(** * CSL-PyKernel: a shallow embedding of the compilation and container core

    The development follows the Python sources module by module:
    [csl_kernel/fardbits.py], [csl_kernel/ir.py], [csl_kernel/compiler.py],
    [csl_kernel/asm.py], [csl_kernel/asc7.py], [csl_kernel/parser.py],
    [mini_cc.py], [collapse_pack.py], [collapse_unpack.py] and
    [csl_any_collapse.py].

    Python integers are [Z]; Python floats are [spec_float] values of the
    binary64 format; byte strings are [list byte]; exceptions are values of
    [exn] carried by the [res] monad; dictionaries are [gmap]s. *)

From Stdlib Require Import ZArith List String Ascii Lia Bool.
From Stdlib Require Import SpecFloat DecimalString HexadecimalString.
From Stdlib.Strings Require Byte.
From Stdlib.Sorting Require Import Sorted.
From stdpp Require Import gmap strings list.

Abbreviation byte := Corelib.Init.Byte.byte.

(* ===================================================================== *)
(** * Part I. The embedding                                               *)
(* ===================================================================== *)

(** ** Exceptions and the error monad *)

Inductive exn : Type :=
  | ValueError (msg : string)
  | AssertionError (msg : string)
  | SyntaxError (msg : string)
  | NameError (name : string)
  | KeyError (key : string)
  | IndexError
  | TypeError
  | OverflowError
  | ZeroDivisionError
  | RecursionError
  | NotImplementedError
  | StructError
  | ZlibError
  | JSONDecodeError
  | AttributeError
  | FileNotFoundError.

Inductive res (A : Type) : Type :=
  | Ok (a : A)
  | Raise (e : exn).
Arguments Ok {A} a.
Arguments Raise {A} e.

Definition bind {A B : Type} (m : res A) (k : A -> res B) : res B :=
  match m with
  | Ok a => k a
  | Raise e => Raise e
  end.

Notation "x <- m ;; k" := (bind m (fun x => k))
  (at level 100, m at next level, right associativity).

Definition is_ok {A : Type} (m : res A) : bool :=
  match m with Ok _ => true | Raise _ => false end.

(** [for x in xs: body] over a state that the body may abort. *)
Fixpoint for_each {X S : Type} (xs : list X) (body : X -> S -> res S) (s : S)
  : res S :=
  match xs with
  | [] => Ok s
  | x :: xs' => s' <- body x s ;; for_each xs' body s'
  end.

(** [range(n)]: empty when [n <= 0]. *)
Definition range (n : Z) : list Z :=
  map Z.of_nat (seq 0 (Z.to_nat n)).

(** ** Python sequences indexed by an integer *)

(** [xs[i]] for a list or tuple: negative indices count from the end,
    anything outside [-len, len) raises [IndexError]. *)
Definition py_index (len i : Z) : res nat :=
  if ((0 <=? i) && (i <? len))%Z then Ok (Z.to_nat i)
  else if ((- len <=? i) && (i <? 0))%Z then Ok (Z.to_nat (len + i))
  else Raise IndexError.

Definition py_getitem {A : Type} (xs : list A) (i : Z) : res A :=
  k <- py_index (Z.of_nat (length xs)) i ;;
  match nth_error xs k with
  | Some x => Ok x
  | None => Raise IndexError
  end.

Definition py_setitem {A : Type} (xs : list A) (i : Z) (v : A) : res (list A) :=
  k <- py_index (Z.of_nat (length xs)) i ;;
  Ok (<[k := v]> xs).

(* --------------------------------------------------------------------- *)
(** ** csl_kernel/fardbits.py                                             *)
(* --------------------------------------------------------------------- *)

Module Fardbits.
Local Open Scope Z_scope.

Definition bitset_new (n : Z) : Z := 0.
Definition bitset_set (bs i : Z) : Z := Z.lor bs (Z.shiftl 1 i).
Definition bitset_test (bs i : Z) : bool := Z.land (Z.shiftr bs i) 1 =? 1.

Definition indices_from_bitset (bs n : Z) : list Z :=
  filter (fun i => Z.land (Z.shiftr bs i) 1 ≠ 0) (range n).

(** [p**dim] is evaluated only to be handed to [bitset_new], which ignores
    it; the one way it can matter is [0 ** negative], which raises. *)
Definition pow_check (p dim : Z) : res unit :=
  if (p =? 0) && (dim <? 0) then Raise ZeroDivisionError else Ok tt.

(** The variables [bs], [idx] and [coords] that [rec] closes over.  [calls]
    is a ghost field: the sequence of calls made to [cond], each recorded
    as (value of [idx] at the call, tuple passed). *)
Record frame : Type := Frame {
  bs : Z;
  idx : Z;
  coords : list Z;
  calls : list (Z * list Z)
}.

Section BuildMask.
Variables (dim p : Z) (cond : list Z -> res bool).

Fixpoint rec (fuel : nat) (d : Z) (st : frame) : res frame :=
    match fuel with
    | O => Raise RecursionError
    | S fuel' =>
      if d =? dim then
        b <- cond (coords st) ;;
        Ok {| bs := if b : bool then bitset_set (bs st) (idx st) else bs st;
              idx := idx st + 1;
              coords := coords st;
              calls := calls st ++ [(idx st, coords st)] |}
      else
        for_each (range p)
          (fun v st =>
             cs <- py_setitem (coords st) d v ;;
             rec fuel' (d + 1)
               {| bs := bs st; idx := idx st; coords := cs; calls := calls st |})
          st
    end.

Definition build_mask_frame : res frame :=
    _ <- pow_check p dim ;;
    rec (S (Z.to_nat dim)) 0
      {| bs := bitset_new (p ^ dim); idx := 0;
         coords := repeat 0 (Z.to_nat dim); calls := [] |}.

Definition build_mask : res Z :=
    st <- build_mask_frame ;; Ok (bs st).
End BuildMask.

End Fardbits.

(* --------------------------------------------------------------------- *)
(** ** Python [str] values                                                *)
(* --------------------------------------------------------------------- *)

(** A Python [str] is a sequence of Unicode code points.  The assembler's
    output, identifiers and error messages are plain ASCII and use Rocq's
    [string]; the text handled by the canonicalizer and the CSL parser can
    hold any code point and uses [ustr]. *)
Definition ustr : Type := list N.

Definition u (s : string) : ustr :=
  map N_of_ascii (list_ascii_of_string s).

Definition ueqb (s t : ustr) : bool := bool_decide (s = t).

(** [sep.join(parts)] *)
Fixpoint join (sep : ustr) (parts : list ustr) : ustr :=
  match parts with
  | [] => []
  | [x] => x
  | x :: rest => x ++ sep ++ join sep rest
  end.

(** [s.split(c)] for a one-character separator: always at least one piece. *)
Fixpoint split_on (c : N) (s : ustr) : list ustr :=
  match s with
  | [] => [[]]
  | x :: s' =>
    if N.eqb x c then [] :: split_on c s'
    else match split_on c s' with
         | piece :: pieces => (x :: piece) :: pieces
         | [] => [[x]]
         end
  end.

(** [s.startswith(pre)] *)
Fixpoint startswith (pre s : ustr) : bool :=
  match pre, s with
  | [], _ => true
  | _ :: _, [] => false
  | x :: pre', y :: s' => N.eqb x y && startswith pre' s'
  end.

(** [pat in s] for strings: substring containment. *)
Fixpoint contains (pat s : ustr) : bool :=
  startswith pat s ||
  match s with
  | [] => false
  | _ :: s' => contains pat s'
  end.

(** [s.split(c, 1)]: the text before the first [c] and the text after it,
    or [None] when [c] does not occur. *)
Fixpoint split_first (c : N) (s : ustr) : option (ustr * ustr) :=
  match s with
  | [] => None
  | x :: s' =>
    if N.eqb x c then Some ([], s')
    else match split_first c s' with
         | Some (l, r) => Some (x :: l, r)
         | None => None
         end
  end.

(** [s.rsplit(c, 1)[0]]: the text before the last [c], all of [s] when [c]
    does not occur. *)
Definition before_last (c : N) (s : ustr) : ustr :=
  match split_first c (rev s) with
  | Some (_, r) => rev r
  | None => s
  end.

Section Whitespace.
  (** [isspace c]: whether the code point counts as whitespace for
      [str.strip()] and [str.split()]. *)
Variable isspace : N -> bool.

Fixpoint lstrip (s : ustr) : ustr :=
    match s with
    | [] => []
    | c :: s' => if isspace c then lstrip s' else s
    end.

Definition rstrip (s : ustr) : ustr := rev (lstrip (rev s)).

Definition strip (s : ustr) : ustr := rstrip (lstrip s).

  (** [s.split()]: the maximal runs of non-whitespace, [cur] being the run
      read so far. *)
Fixpoint split_ws_from (cur s : ustr) : list ustr :=
    match s with
    | [] => match cur with [] => [] | _ => [cur] end
    | c :: s' =>
      if isspace c
      then match cur with
           | [] => split_ws_from [] s'
           | _ => cur :: split_ws_from [] s'
           end
      else split_ws_from (cur ++ [c]) s'
    end.

Definition split_ws (s : ustr) : list ustr := split_ws_from [] s.
End Whitespace.

(* --------------------------------------------------------------------- *)
(** ** csl_kernel/asc7.py                                                 *)
(* --------------------------------------------------------------------- *)

Module Asc7.
Local Open Scope N_scope.

(** Curly double quotes, curly single quotes, em and en dash, no-break
    space, tab, carriage return, form feed. *)
Definition _ASC7_MAP : list (N * N) :=
  [ (8220, 34); (8221, 34); (8216, 39); (8217, 39); (8212, 45); (8211, 45);
    (160, 32); (9, 32); (13, 32); (12, 32) ].

(** [d.get(k, default)] *)
Fixpoint dict_get (d : list (N * N)) (k default : N) : N :=
  match d with
  | [] => default
  | (k', v) :: d' => if N.eqb k k' then v else dict_get d' k default
  end.

Section Canonicalize.
  (** [lower c] is [ch.lower()] for the one-character string [ch]. *)
Variables (lower : N -> ustr) (isspace : N -> bool).

Definition canonicalize (source : ustr) : ustr :=
    let s :=
      fold_left (fun s ch => let ch := dict_get _ASC7_MAP ch ch in s ++ [lower ch])
                source [] in
    let s := join [] s in
    let lines :=
      fold_left
        (fun lines ln =>
           let ln := join (u " ") (split_ws isspace (strip isspace ln)) in
           if negb (ueqb ln []) && negb (startswith (u "//") ln)
           then lines ++ [ln] else lines)
        (split_on 10 s) [] in
    join [10] lines.
End Canonicalize.

End Asc7.

(* --------------------------------------------------------------------- *)
(** ** csl_kernel/parser.py                                               *)
(* --------------------------------------------------------------------- *)

Module Parser.

Record PsiDecl : Type := { p : Z; dim : Z }.
Record ValDecl : Type := { kind : string; val_args : Z * Z }.
Record Step : Type := { st_op : string; st_args : list spec_float }.
Record Program : Type := { psi : PsiDecl; val : ValDecl; steps : list Step }.

(** The binary64 values of the literals [0.01] and [0.99]. *)
Definition f_0_01 : spec_float := S754_finite false 5764607523034235 (-59).
Definition f_0_99 : spec_float := S754_finite false 8917127262193582 (-53).

Section ParseMinimal.
  (** Library functions the parser calls: whitespace classification,
      [str.lower()], [int(str)], and [_val_re.search], which yields groups
      1 and 2 of the leftmost match of [x\s*(\d+)\s*=\s*(-?\d+)]. *)
Variables (isspace : N -> bool)
            (str_lower : ustr -> ustr)
            (py_int : ustr -> res Z)
            (_val_re_search : ustr -> option (ustr * ustr)).

  (** One iteration of the loop over [lines[2:]]. *)
Definition classify (steps : list Step) (ln : ustr) : list Step :=
    let l := str_lower ln in
    if contains [8711%N; 108%N] l || contains (u "grad") l then
      steps ++ [ {| st_op := "grad"; st_args := [] |} ]
    else if contains (u "p_v") l then
      steps ++ [ {| st_op := "project"; st_args := [] |} ]
    else if contains [8866%N] l || contains (u "vdash") l then
      steps ++ [ {| st_op := "goal"; st_args := [f_0_01; f_0_99] |} ]
    else steps.

Definition parse_minimal (canon_text : ustr) : res Program :=
    let lines := filter (fun ln => negb (ueqb ln [])) (split_on 10 canon_text) in
    if (length lines <? 2)%nat then Raise (ValueError "program too short") else
    match lines with
    | line0 :: line1 :: rest =>
      let L1 := split_ws isspace line0 in
      if negb (existsb (ueqb (u "::")) L1)
      then Raise (ValueError "line 1 must contain '::'") else
      layout <- py_getitem L1 (-1) ;;
      if negb (startswith (u "f") layout)
      then Raise (ValueError "expecting f<p>^<dim> in line 1") else
      let after_f := drop 1 layout in
      match split_first 94 after_f with
      | None => Raise (ValueError "expecting caret (^) in field spec")
      | Some (p_str, dim_str) =>
        p <- py_int p_str ;;
        dim <- py_int dim_str ;;
        let psi := {| p := p; dim := dim |} in
        let L2 := line1 in
        if negb (contains (u ":") L2) || negb (contains (u "}") L2)
        then Raise (ValueError "line 2 must define validator like '{ x in f3^3 : x1 = 0 }'")
        else
        match split_first 58 L2 with
        | None => Raise IndexError
        | Some (_, after_colon) =>
          let constraint_region := before_last 125 after_colon in
          match _val_re_search constraint_region with
          | None =>
            Raise (ValueError "could not parse validator; expected pattern like 'x1 = 0'")
          | Some (g1, g2) =>
            k <- py_int g1 ;;
            let axis_idx := (k - 1)%Z in
            cval <- py_int g2 ;;
            let val := {| kind := "x_eq_const"; val_args := (axis_idx, cval) |} in
            let steps := fold_left classify rest [] in
            Ok {| psi := psi; val := val; steps := steps |}
          end
        end
      end
    | _ => Raise (ValueError "program too short")
    end.
End ParseMinimal.

End Parser.

(* --------------------------------------------------------------------- *)
(** ** Python numbers: [int], [float], and their conversions              *)
(* --------------------------------------------------------------------- *)

(** The numeric operands of an instruction are declared [float] but are
    given [int]s as well ([Instr(OP_INIT, b=dim)]). *)
Inductive num : Type :=
  | NInt (z : Z)
  | NFloat (f : spec_float).

Definition f_zero : spec_float := S754_zero false.
(** The binary64 values of the literals [1.0] and [0.1]. *)
Definition f_1_0 : spec_float := S754_finite false 4503599627370496 (-52).
Definition f_0_1 : spec_float := S754_finite false 7205759403792794 (-56).

(** [float(x)]: an [int] is rounded to the nearest binary64 value and
    raises [OverflowError] when it is too large. *)
Definition py_float (x : num) : res spec_float :=
  match x with
  | NFloat f => Ok f
  | NInt z =>
    match binary_normalize 53 1024 z 0 false with
    | S754_infinity _ => Raise OverflowError
    | f => Ok f
    end
  end.

(** [int(x)]: a float is truncated toward zero; infinities and NaN raise. *)
Definition py_int_of_num (x : num) : res Z :=
  match x with
  | NInt z => Ok z
  | NFloat (S754_zero _) => Ok 0%Z
  | NFloat (S754_infinity _) => Raise OverflowError
  | NFloat S754_nan => Raise (ValueError "cannot convert float NaN to integer")
  | NFloat (S754_finite s m e) =>
    let mag := match e with
               | Zneg k => Z.shiftr (Zpos m) (Zpos k)
               | _ => Z.shiftl (Zpos m) e
               end in
    Ok (if s then Z.opp mag else mag)
  end.

(** [x > 0] *)
Definition num_pos (x : num) : bool :=
  match x with
  | NInt z => (0 <? z)%Z
  | NFloat f => SFltb f_zero f
  end.

(** [str(z)] and [hex(z)] for an [int]; [z.bit_length()]. *)
Definition str_of_int (z : Z) : string :=
  DecimalString.NilZero.string_of_int (Z.to_int z).

Definition hex (z : Z) : string :=
  ((if (z <? 0)%Z then "-0x" else "0x") ++
   HexadecimalString.NilZero.string_of_uint (N.to_hex_uint (Z.abs_N z)))%string.

Definition bit_length (z : Z) : Z :=
  if (z =? 0)%Z then 0%Z else (Z.log2 (Z.abs z) + 1)%Z.

(* --------------------------------------------------------------------- *)
(** ** csl_kernel/ir.py                                                   *)
(* --------------------------------------------------------------------- *)

Module Ir.

Definition OP_INIT : Z := 1.
Definition OP_SEED : Z := 2.
Definition OP_VMASK : Z := 3.
Definition OP_GRAD : Z := 4.
Definition OP_PROJ : Z := 5.
Definition OP_METRICS : Z := 6.
Definition OP_HALT : Z := 7.

Record Instr : Type := { op : Z; a : num; b : num; c : num; i : Z }.

(** [Instr(op)] with every other field at its default. *)
Definition mk (op : Z) : Instr :=
  {| op := op; a := NFloat f_zero; b := NFloat f_zero; c := NFloat f_zero;
     i := 0 |}.

End Ir.

(* --------------------------------------------------------------------- *)
(** ** csl_kernel/compiler.py                                             *)
(* --------------------------------------------------------------------- *)

Module Compiler.
Import Parser Ir.

Definition compile_step (bc : list Instr) (st : Step) : list Instr :=
  if String.eqb (st_op st) "grad" then
    bc ++ [ {| op := OP_GRAD; a := NFloat f_1_0; b := NFloat f_1_0;
               c := NFloat f_0_1; i := 0 |} ]
  else if String.eqb (st_op st) "project" then bc ++ [ mk OP_PROJ ]
  else if String.eqb (st_op st) "goal" then
    (bc ++ [ mk OP_METRICS ]) ++ [ mk OP_HALT ]
  else bc.

Definition compile_to_ir (prog : Program) : res (list Instr) :=
  let bc := [] in
  let '(p, dim) := (Parser.p (psi prog), Parser.dim (psi prog)) in
  let bc := bc ++ [ {| op := OP_INIT; a := NFloat f_zero; b := NFloat f_zero;
                       c := NFloat f_zero; i := p |} ] in
  let bc := bc ++ [ {| op := OP_INIT; a := NFloat f_zero; b := NInt dim;
                       c := NFloat f_zero; i := 0 |} ] in
  let bc := bc ++ [ mk OP_SEED ] in
  let '(axis, cval) := val_args (val prog) in
  vmask <- Fardbits.build_mask dim p
             (fun x => xa <- py_getitem x axis ;; Ok (xa =? cval)%Z) ;;
  let bc := bc ++ [ {| op := OP_VMASK; a := NFloat f_zero; b := NFloat f_zero;
                       c := NFloat f_zero; i := vmask |} ] in
  Ok (fold_left compile_step (steps prog) bc).

End Compiler.

(* --------------------------------------------------------------------- *)
(** ** [struct.pack] and [binascii.hexlify]                               *)
(* --------------------------------------------------------------------- *)

Module Struct.
Local Open Scope Z_scope.

Definition byte_of_Z (z : Z) : byte :=
  match Byte.of_N (Z.to_N (z mod 256)) with
  | Some b => b
  | None => Corelib.Init.Byte.x00
  end.

(** The [n] low-order bytes of [z], least significant first. *)
Fixpoint le_bytes (n : nat) (z : Z) : list byte :=
  match n with
  | O => []
  | S n' => byte_of_Z z :: le_bytes n' (z / 256)
  end.

Definition be_bytes (n : nat) (z : Z) : list byte := rev (le_bytes n z).

(** [int.from_bytes(bs, 'little')] and [int.from_bytes(bs, 'big')] *)
Fixpoint from_le (bs : list byte) : Z :=
  match bs with
  | [] => 0
  | b :: bs' => Z.of_N (Byte.to_N b) + 256 * from_le bs'
  end.

Definition from_be (bs : list byte) : Z := from_le (rev bs).

(** Rounding of a binary64 value to binary32 (round to nearest even), as
    performed by the C conversion [(float)x]. *)
Definition to_binary32 (f : spec_float) : spec_float :=
  match f with
  | S754_finite s m e => binary_round 24 128 s m e
  | _ => f
  end.

(** The 32-bit pattern of a binary32 value; NaN is the default quiet NaN. *)
Definition bits32 (f : spec_float) : Z :=
  let sign (s : bool) := if s then 2 ^ 31 else 0 in
  match f with
  | S754_zero s => sign s
  | S754_infinity s => sign s + 255 * 2 ^ 23
  | S754_nan => 255 * 2 ^ 23 + 2 ^ 22
  | S754_finite s m e =>
    if Zpos (digits2_pos m) =? 24
    then sign s + (e + 150) * 2 ^ 23 + (Zpos m - 2 ^ 23)
    else sign s + Zpos m
  end.

(** Format code ['f']: a finite value that rounds to infinity raises. *)
Definition float32_bits (x : num) : res Z :=
  f <- py_float x ;;
  match f, to_binary32 f with
  | S754_finite _ _ _, S754_infinity _ => Raise OverflowError
  | _, r => Ok (bits32 r)
  end.

(** Unsigned integer codes ['B'], ['I'], ['Q']: the argument must be an
    [int] within range. *)
Definition uint_field (width : nat) (x : num) : res Z :=
  match x with
  | NInt z =>
    if (0 <=? z) && (z <? 2 ^ (8 * Z.of_nat width)) then Ok z
    else Raise StructError
  | NFloat _ => Raise StructError
  end.

Definition field (big : bool) (code : ascii) (x : num) : res (list byte) :=
  let bytes n z := if big then be_bytes n z else le_bytes n z in
  if Ascii.eqb code "B" then z <- uint_field 1 x ;; Ok (bytes 1%nat z)
  else if Ascii.eqb code "I" then z <- uint_field 4 x ;; Ok (bytes 4%nat z)
  else if Ascii.eqb code "Q" then z <- uint_field 8 x ;; Ok (bytes 8%nat z)
  else if Ascii.eqb code "f" then z <- float32_bits x ;; Ok (bytes 4%nat z)
  else Raise StructError.

Fixpoint fields (big : bool) (codes : string) (args : list num)
  : res (list byte) :=
  match codes, args with
  | EmptyString, [] => Ok []
  | String code codes', x :: args' =>
    bs <- field big code x ;;
    rest <- fields big codes' args' ;;
    Ok (bs ++ rest)
  | _, _ => Raise StructError
  end.

(** [struct.pack(fmt, *args)] for the standard-size, unpadded modes ['<']
    and ['>'], which are the only ones the sources use. *)
Definition pack (fmt : string) (args : list num) : res (list byte) :=
  match fmt with
  | String "<" codes => fields false codes args
  | String ">" codes => fields true codes args
  | _ => Raise StructError
  end.

Definition hex_digit (z : Z) : ascii :=
  ascii_of_N (Z.to_N (if z <? 10 then 48 + z else 87 + z)).

(** [binascii.hexlify(bs).decode()] *)
Fixpoint hexlify (bs : list byte) : string :=
  match bs with
  | [] => EmptyString
  | b :: bs' =>
    let z := Z.of_N (Byte.to_N b) in
    String (hex_digit (z / 16)) (String (hex_digit (z mod 16)) (hexlify bs'))
  end.

End Struct.

(* --------------------------------------------------------------------- *)
(** ** csl_kernel/asm.py                                                  *)
(* --------------------------------------------------------------------- *)

Module Asm.
Import Ir.
Local Open Scope string_scope.

(** [f"{k:02d}"] for an index [k >= 0]: decimal, zero-padded on the left to
    a width of at least two. *)
Definition fmt_02d (k : nat) : string :=
  let s := str_of_int (Z.of_nat k) in
  if (String.length s <? 2)%nat then "0" ++ s else s.

(** [{OP_SEED:'SEED', ...}.get(op, 'OP')] *)
Definition mnemonic (op : Z) : string :=
  if (op =? OP_SEED)%Z then "SEED"
  else if (op =? OP_PROJ)%Z then "PROJ"
  else if (op =? OP_METRICS)%Z then "METRICS"
  else if (op =? OP_HALT)%Z then "HALT"
  else "OP".

Section ToAssembly.
  (** [repr_float f] is [str(f)] for a float [f]. *)
Variable repr_float : spec_float -> string.

  (** [f"{x}"] *)
Definition str_of_num (x : num) : string :=
    match x with
    | NInt z => str_of_int z
    | NFloat f => repr_float f
    end.

Definition line (k : nat) (ins : Instr) : res string :=
    if (op ins =? OP_INIT)%Z && (0 <? i ins)%Z then
      Ok (fmt_02d k ++ ": INIT p=" ++ str_of_int (i ins))
    else if (op ins =? OP_INIT)%Z && num_pos (b ins) then
      d <- py_int_of_num (b ins) ;;
      Ok (fmt_02d k ++ ": INIT dim=" ++ str_of_int d)
    else if (op ins =? OP_VMASK)%Z then
      let hexmask := hex (i ins) in
      Ok (fmt_02d k ++ ": VMASK nbits=" ++ str_of_int (bit_length (i ins))
            ++ " hex=" ++ substring 0 18 hexmask ++ "...")
    else if (op ins =? OP_GRAD)%Z then
      Ok (fmt_02d k ++ ": GRAD eta=" ++ str_of_num (c ins))
    else
      let name := mnemonic (op ins) in
      Ok (fmt_02d k ++ ": " ++ name).

  (** The loop over [enumerate(bc)], [k] being the index of the head. *)
Fixpoint lines_from (k : nat) (bc : list Instr) (out : list string)
    : res (list string) :=
    match bc with
    | [] => Ok out
    | ins :: bc' => l <- line k ins ;; lines_from (S k) bc' (out ++ [l])
    end.

  (** The separator is written ["\\n"] in the source: a backslash followed
      by the letter n, which is what the Rocq literal below denotes. *)
Definition to_assembly (bc : list Instr) : res string :=
    out <- lines_from 0 bc [] ;;
    Ok (String.concat "\n" out).
End ToAssembly.

Definition record (ins : Instr) : res (list byte) :=
  fa <- py_float (a ins) ;;
  fb <- py_float (b ins) ;;
  fc <- py_float (c ins) ;;
  Struct.pack "<BfffQ"
    [ NInt (op ins); NFloat fa; NFloat fb; NFloat fc;
      NInt (Z.land (i ins) (Z.shiftl 1 64 - 1)) ].

Fixpoint chunks_from (bc : list Instr) (chunks : list string)
  : res (list string) :=
  match bc with
  | [] => Ok chunks
  | ins :: bc' =>
    blob <- record ins ;;
    chunks_from bc' (chunks ++ [Struct.hexlify blob])
  end.

Definition to_bytes (bc : list Instr) : res string :=
  chunks <- chunks_from bc [] ;;
  Ok (String.concat "" chunks).

End Asm.

(* --------------------------------------------------------------------- *)
(** ** mini_cc.py: nodes and the evaluator                                *)
(* --------------------------------------------------------------------- *)

Module MiniCC.

Inductive ZOp : Type := INT | VAR | ADD | MUL | APPLY | LET.

(** The [meta] dictionary of a node.  The engine reads two keys only,
    ["value"] (an [int]) and ["name"] (a [str]); a key that is [None] here
    is absent from the dictionary. *)
Record Meta : Type := { m_value : option Z; m_name : option string }.

Definition no_meta : Meta := {| m_value := None; m_name := None |}.
Definition meta_value (z : Z) : Meta := {| m_value := Some z; m_name := None |}.
Definition meta_name (s : string) : Meta := {| m_value := None; m_name := Some s |}.

(** [ZNode(op, args, meta)].  The derived field [collapse_id] is a digest of
    the other three and is not represented. *)
#[local] Unset Elimination Schemes.
Inductive ZNode : Type :=
  | Node (op : ZOp) (args : list ZNode) (meta : Meta).
#[local] Set Elimination Schemes.

Definition node_op (n : ZNode) : ZOp := let 'Node op _ _ := n in op.
Definition node_args (n : ZNode) : list ZNode := let 'Node _ args _ := n in args.
Definition node_meta (n : ZNode) : Meta := let 'Node _ _ meta := n in meta.

(** [meta[key]] *)
Definition meta_get {A : Type} (field : option A) (key : string) : res A :=
  match field with
  | Some x => Ok x
  | None => Raise (KeyError key)
  end.

Section Runtime.
  (** The values that expressions evaluate to are Python objects.  The
      evaluator needs to build them from integer literals, to test them
      against [None], to add and multiply them, and to call them.  A call
      [f(a)] returns or raises; callables do not hold a reference to the
      runtime and so leave its environment alone. *)
Variable value : Type.
Variable vint : Z -> value.
Variable is_None : value -> bool.
Variables py_add py_mul py_call : value -> value -> res value.

  (** A computation over [self.env]: the environment that is left behind is
      returned on success and on failure alike. *)
Definition M (A : Type) : Type :=
    gmap string value -> res A * gmap string value.

Definition ret {A : Type} (a : A) : M A := fun env => (Ok a, env).
Definition raise {A : Type} (e : exn) : M A := fun env => (Raise e, env).
Definition lift {A : Type} (r : res A) : M A := fun env => (r, env).
Definition bindM {A B : Type} (m : M A) (k : A -> M B) : M B :=
    fun env =>
      match m env with
      | (Ok a, env') => k a env'
      | (Raise e, env') => (Raise e, env')
      end.

  (** [try: body finally: handler]: the handler always runs; when it raises,
      its exception replaces the outcome of the body. *)
Definition try_finally {A : Type} (body : M A) (handler : M unit) : M A :=
    fun env =>
      let '(r, env') := body env in
      match handler env' with
      | (Ok _, env'') => (r, env'')
      | (Raise e, env'') => (Raise e, env'')
      end.

  (** [self.env.get(name)], keeping apart the two ways it can be [None]. *)
Definition env_get (name : string) : M (option value) :=
    fun env => (Ok (env !! name), env).

Definition env_set (name : string) (v : value) : M unit :=
    fun env => (Ok tt, <[name := v]> env).

  (** [del self.env[name]] *)
Definition env_del (name : string) : M unit :=
    fun env =>
      match env !! name with
      | Some _ => (Ok tt, delete name env)
      | None => (Raise (KeyError name), env)
      end.

  (** [old is None] for [old = self.env.get(name)]. *)
Definition old_is_None (old : option value) : bool :=
    match old with
    | None => true
    | Some v => is_None v
    end.

Notation "x <~ m ;; k" := (bindM m (fun x => k))
    (at level 100, m at next level, right associativity).

Fixpoint eval (n : ZNode) : M value :=
    let 'Node op args meta := n in
    match op with
    | INT => z <~ lift (meta_get (m_value meta) "value") ;; ret (vint z)
    | VAR =>
      name <~ lift (meta_get (m_name meta) "name") ;;
      old <~ env_get name ;;
      match old with
      | None => raise (NameError name)
      | Some v => ret v
      end
    | ADD =>
      match args with
      | [] => raise IndexError
      | a0 :: rest =>
        x <~ eval a0 ;;
        match rest with
        | [] => raise IndexError
        | a1 :: _ => y <~ eval a1 ;; lift (py_add x y)
        end
      end
    | MUL =>
      match args with
      | [] => raise IndexError
      | a0 :: rest =>
        x <~ eval a0 ;;
        match rest with
        | [] => raise IndexError
        | a1 :: _ => y <~ eval a1 ;; lift (py_mul x y)
        end
      end
    | APPLY =>
      match args with
      | [] => raise IndexError
      | a0 :: rest =>
        f <~ eval a0 ;;
        match rest with
        | [] => raise IndexError
        | a1 :: _ => a <~ eval a1 ;; lift (py_call f a)
        end
      end
    | LET =>
      name <~ lift (meta_get (m_name meta) "name") ;;
      match args with
      | [] => raise IndexError
      | a0 :: rest =>
        val <~ eval a0 ;;
        old <~ env_get name ;;
        _ <~ env_set name val ;;
        try_finally
          (match rest with
           | [] => raise IndexError
           | a1 :: _ => eval a1
           end)
          (if old_is_None old then env_del name
           else match old with
                | Some v => env_set name v
                | None => ret tt
                end)
      end
    end.
End Runtime.

(** *** A concrete universe of values: integers, [None], and the callables
    that the repository puts in its environments ([add1], [double], and
    the curried [sub], [floordiv] and [mod], with their partial
    applications). *)
Inductive fn : Type :=
  | Fadd1 | Fdouble
  | Fsub | Fsub1 (a : Z)
  | Ffloordiv | Ffloordiv1 (a : Z)
  | Fmod | Fmod1 (a : Z).

Inductive value : Type :=
  | VInt (z : Z)
  | VNone
  | VFn (f : fn).

Definition is_None (v : value) : bool :=
  match v with VNone => true | _ => false end.

Definition py_add (x y : value) : res value :=
  match x, y with
  | VInt a, VInt b => Ok (VInt (a + b))
  | _, _ => Raise TypeError
  end.

Definition py_mul (x y : value) : res value :=
  match x, y with
  | VInt a, VInt b => Ok (VInt (a * b))
  | _, _ => Raise TypeError
  end.

Definition call_fn (f : fn) (x : value) : res value :=
  match f, x with
  | Fsub, _ | Ffloordiv, _ | Fmod, _ =>
    match x with
    | VInt a => Ok (VFn match f with
                        | Fsub => Fsub1 a
                        | Ffloordiv => Ffloordiv1 a
                        | _ => Fmod1 a
                        end)
    | _ => Raise TypeError
    end
  | Fadd1, VInt a => Ok (VInt (a + 1))
  | Fdouble, VInt a => Ok (VInt (a * 2))
  | Fsub1 a, VInt b => Ok (VInt (a - b))
  | Ffloordiv1 a, VInt b =>
    if (b =? 0)%Z then Raise ZeroDivisionError else Ok (VInt (a / b))
  | Fmod1 a, VInt b =>
    if (b =? 0)%Z then Raise ZeroDivisionError else Ok (VInt (a mod b))
  | _, _ => Raise TypeError
  end.

Definition py_call (f x : value) : res value :=
  match f with
  | VFn f => call_fn f x
  | _ => Raise TypeError
  end.

(** [Runtime(env).eval(n)] over the concrete values. *)
Definition run (n : ZNode) (env : gmap string value)
  : res value * gmap string value :=
  eval value VInt is_None py_add py_mul py_call n env.

End MiniCC.

(* --------------------------------------------------------------------- *)
(** ** The fragment of Python's [ast] that the packer visits              *)
(* --------------------------------------------------------------------- *)

Module PyAst.

Inductive operator : Type :=
  | Add | Mult | Sub | Div | FloorDiv | Mod | Pow
  | OtherOperator.

(** [ast.Constant] holds an [int] or some other literal. *)
Inductive constant : Type :=
  | CInt (z : Z)
  | COther.

#[local] Unset Elimination Schemes.
Inductive expr : Type :=
  | Constant (value : constant)
  | Name (id : string)
  | BinOp (left : expr) (op : operator) (right : expr)
  | Call (func : expr) (args : list expr)
  | OtherExpr.
#[local] Set Elimination Schemes.

Inductive stmt : Type :=
  | Expr (value : expr)
  | Assign (targets : list expr) (value : expr)
  | OtherStmt.

(** [ast.Module.body] *)
Definition module : Type := list stmt.

(** Concrete syntax of the forms that [z_to_py] writes. *)
Fixpoint show_expr (e : expr) : string :=
  match e with
  | Constant (CInt z) => str_of_int z
  | Name id => id
  | BinOp l Add r => "(" ++ show_expr l ++ " + " ++ show_expr r ++ ")"
  | BinOp l Mult r => "(" ++ show_expr l ++ " * " ++ show_expr r ++ ")"
  | Call f [a] => show_expr f ++ "(" ++ show_expr a ++ ")"
  | _ => "?"
  end%string.

Definition show_stmt (s : stmt) : string :=
  match s with
  | Expr e => show_expr e
  | Assign [Name nm] v => nm ++ " = " ++ show_expr v
  | _ => "?"
  end%string.

Section Semantics.
  (** Evaluation of that fragment by Python itself, over the same values
      as the engine: names are looked up in the environment, an assignment
      statement binds its target, and the value of a module is the value of
      its last statement when that is an expression. *)
Variable value : Type.
Variable vint : Z -> value.
Variables py_add py_mul py_call : value -> value -> res value.

Fixpoint eval_expr (env : gmap string value) (e : expr) : res value :=
    match e with
    | Constant (CInt z) => Ok (vint z)
    | Name id =>
      match env !! id with
      | Some v => Ok v
      | None => Raise (NameError id)
      end
    | BinOp l Add r =>
      x <- eval_expr env l ;; y <- eval_expr env r ;; py_add x y
    | BinOp l Mult r =>
      x <- eval_expr env l ;; y <- eval_expr env r ;; py_mul x y
    | Call f [a] =>
      fv <- eval_expr env f ;; av <- eval_expr env a ;; py_call fv av
    | _ => Raise NotImplementedError
    end.

Fixpoint exec_module (env : gmap string value) (body : module) : res value :=
    match body with
    | [] => Raise NotImplementedError
    | [Expr e] => eval_expr env e
    | Assign [Name nm] v :: body' =>
      x <- eval_expr env v ;; exec_module (<[nm := x]> env) body'
    | _ => Raise NotImplementedError
    end.
End Semantics.

End PyAst.

(* --------------------------------------------------------------------- *)
(** ** collapse_pack.py: [PyToZ]                                          *)
(* --------------------------------------------------------------------- *)

Module CollapsePack.
Import MiniCC PyAst.

Definition MAGIC : list byte := list_byte_of_string "CSLX".
Definition VER : Z := 1.

Definition znode (op : ZOp) (args : list ZNode) (meta : Meta) : ZNode :=
  Node op args meta.

Definition _name_of (t : expr) : res string :=
  match t with
  | Name id => Ok id
  | _ => Raise (SyntaxError "only simple names supported in assignment")
  end.

(** The name that [visit_BinOp] looks up for an operator other than [Add]
    and [Mult]. *)
Definition binop_name (op : operator) : res string :=
  match op with
  | Sub => Ok "sub"
  | Div => Ok "div"
  | FloorDiv => Ok "floordiv"
  | Mod => Ok "mod"
  | Pow => Ok "pow"
  | _ => Raise (KeyError "operator")
  end.

(** [self.visit(e)] for an expression.  A node class without a visitor
    method makes [visit] return [None], and building the enclosing [ZNode]
    (or serialising the result) then fails, which is the failure recorded
    here. *)
Fixpoint visit (e : expr) : res ZNode :=
  match e with
  | Constant (CInt z) => Ok (znode INT [] (meta_value z))
  | Constant COther => Raise (SyntaxError "const")
  | Name id => Ok (znode VAR [] (meta_name id))
  | BinOp l op r =>
    L <- visit l ;;
    R <- visit r ;;
    match op with
    | Add => Ok (znode ADD [L; R] no_meta)
    | Mult => Ok (znode MUL [L; R] no_meta)
    | _ =>
      name <- binop_name op ;;
      let f := znode VAR [] (meta_name name) in
      Ok (znode APPLY [znode APPLY [f; L] no_meta; R] no_meta)
    end
  | Call func args =>
    match func with
    | Name id =>
      let f := znode VAR [] (meta_name id) in
      (fix loop (args : list expr) (out : ZNode) : res ZNode :=
         match args with
         | [] => Ok out
         | a :: args' =>
           za <- visit a ;; loop args' (znode APPLY [out; za] no_meta)
         end) args f
    | _ => Raise (SyntaxError "call")
    end
  | OtherExpr => Raise AttributeError
  end.

(** The loop over [reversed(node.body[:-1])]. *)
Definition wrap_let (st : stmt) (z : ZNode) : res ZNode :=
  match st with
  | Assign [target] value =>
    nm <- _name_of target ;;
    val <- visit value ;;
    Ok (znode LET [val; z] (meta_name nm))
  | _ => Ok z
  end.

Definition visit_Module (body : module) : res ZNode :=
  match rev body with
  | [] => Raise (SyntaxError "empty module")
  | last :: before =>
    z <- match last with
         | Expr value => visit value
         | Assign [target] value =>
           nm <- _name_of target ;;
           val <- visit value ;;
           Ok (znode LET [val; znode VAR [] (meta_name nm)] (meta_name nm))
         | _ => Raise (SyntaxError "last stmt must be expr or single assignment")
         end ;;
    for_each before wrap_let z
  end.

End CollapsePack.

(* --------------------------------------------------------------------- *)
(** ** Files                                                              *)
(* --------------------------------------------------------------------- *)

(** The file system maps a path to the bytes stored there.  A computation
    that touches it returns the file system it leaves behind together with
    its outcome. *)
Definition IO (A : Type) : Type :=
  gmap string (list byte) -> res A * gmap string (list byte).

Definition io_ret {A : Type} (a : A) : IO A := fun fs => (Ok a, fs).
Definition io_raise {A : Type} (e : exn) : IO A := fun fs => (Raise e, fs).
Definition io_lift {A : Type} (r : res A) : IO A := fun fs => (r, fs).
Definition io_bind {A B : Type} (m : IO A) (k : A -> IO B) : IO B :=
  fun fs =>
    match m fs with
    | (Ok a, fs') => k a fs'
    | (Raise e, fs') => (Raise e, fs')
    end.

Notation "x <~~ m ;; k" := (io_bind m (fun x => k))
  (at level 100, m at next level, right associativity).

(** [path.read_bytes()] and [path.write_bytes(data)] *)
Definition read_bytes (path : string) : IO (list byte) :=
  fun fs =>
    match fs !! path with
    | Some data => (Ok data, fs)
    | None => (Raise FileNotFoundError, fs)
    end.

Definition write_bytes (path : string) (data : list byte) : IO unit :=
  fun fs => (Ok tt, <[path := data]> fs).

(** [bs[lo:hi]] for [0 <= lo <= hi] *)
Definition slice {A : Type} (lo hi : nat) (bs : list A) : list A :=
  take (hi - lo) (drop lo bs).

(** [x == y] for byte strings *)
Fixpoint bytes_eqb (x y : list byte) : bool :=
  match x, y with
  | [], [] => true
  | a :: x', b :: y' => Byte.eqb a b && bytes_eqb x' y'
  | _, _ => false
  end.

(* --------------------------------------------------------------------- *)
(** ** collapse_unpack.py                                                 *)
(* --------------------------------------------------------------------- *)

Module CollapseUnpack.
Import MiniCC.
Local Open Scope string_scope.

Definition MAGIC : list byte := list_byte_of_string "CSLX".

(** What [json.loads] returns. *)
#[local] Unset Elimination Schemes.
Inductive json : Type :=
  | JNull
  | JBool (b : bool)
  | JInt (z : Z)
  | JStr (s : string)
  | JList (items : list json)
  | JDict (items : list (string * json)).
#[local] Set Elimination Schemes.

Fixpoint jget (items : list (string * json)) (key : string) : option json :=
  match items with
  | [] => None
  | (k, v) :: rest => if String.eqb k key then Some v else jget rest key
  end.

(** [getattr(ZOp, name)] *)
Definition zop_of_name (name : string) : res ZOp :=
  if String.eqb name "INT" then Ok INT
  else if String.eqb name "VAR" then Ok VAR
  else if String.eqb name "ADD" then Ok ADD
  else if String.eqb name "MUL" then Ok MUL
  else if String.eqb name "APPLY" then Ok APPLY
  else if String.eqb name "LET" then Ok LET
  else Raise AttributeError.

(** The [meta] object of a node; an entry of another type than the engine
    expects is outside what [Meta] represents and is reported as an error. *)
Definition meta_of_json (m : option json) : res Meta :=
  match m with
  | None => Ok no_meta
  | Some (JDict items) =>
    v <- match jget items "value" with
         | None => Ok None
         | Some (JInt z) => Ok (Some z)
         | Some _ => Raise TypeError
         end ;;
    n <- match jget items "name" with
         | None => Ok None
         | Some (JStr s) => Ok (Some s)
         | Some _ => Raise TypeError
         end ;;
    Ok {| m_value := v; m_name := n |}
  | Some _ => Raise TypeError
  end.

Fixpoint z_from_dict (d : json) : res ZNode :=
  match d with
  | JDict items =>
    opname <- match jget items "op" with
              | Some (JStr s) => Ok s
              | Some _ => Raise TypeError
              | None => Raise (KeyError "op")
              end ;;
    op <- zop_of_name opname ;;
    args <- (fix find (items : list (string * json)) : res (list ZNode) :=
               match items with
               | [] => Ok []
               | (k, v) :: rest =>
                 if String.eqb k "args" then
                   match v with
                   | JList l =>
                     (fix each (l : list json) : res (list ZNode) :=
                        match l with
                        | [] => Ok []
                        | a :: l' =>
                          za <- z_from_dict a ;;
                          zs <- each l' ;;
                          Ok (za :: zs)
                        end) l
                   | _ => Raise TypeError
                   end
                 else find rest
               end) items ;;
    meta <- meta_of_json (jget items "meta") ;;
    Ok (Node op args meta)
  | _ => Raise TypeError
  end.

(** [z_to_py]: the inner function [t] appends to the list [assigns] of its
    enclosing call, which is threaded through here. *)
Definition T (A : Type) : Type := list string -> res A * list string.

Definition t_ret {A : Type} (a : A) : T A := fun assigns => (Ok a, assigns).
Definition t_raise {A : Type} (e : exn) : T A := fun assigns => (Raise e, assigns).
Definition t_lift {A : Type} (r : res A) : T A := fun assigns => (r, assigns).
Definition t_bind {A B : Type} (m : T A) (k : A -> T B) : T B :=
  fun assigns =>
    match m assigns with
    | (Ok a, assigns') => k a assigns'
    | (Raise e, assigns') => (Raise e, assigns')
    end.
Definition append (line : string) : T unit :=
  fun assigns => (Ok tt, (assigns ++ [line])%list).

Notation "x <~ m ;; k" := (t_bind m (fun x => k))
  (at level 100, m at next level, right associativity).

Fixpoint t (n : ZNode) : T string :=
  let 'Node op args meta := n in
  match op with
  | INT => z <~ t_lift (meta_get (m_value meta) "value") ;; t_ret (str_of_int z)
  | VAR => t_lift (meta_get (m_name meta) "name")
  | ADD =>
    match args with
    | [] => t_raise IndexError
    | a0 :: rest =>
      l <~ t a0 ;;
      match rest with
      | [] => t_raise IndexError
      | a1 :: _ => r <~ t a1 ;; t_ret ("(" ++ l ++ " + " ++ r ++ ")")
      end
    end
  | MUL =>
    match args with
    | [] => t_raise IndexError
    | a0 :: rest =>
      l <~ t a0 ;;
      match rest with
      | [] => t_raise IndexError
      | a1 :: _ => r <~ t a1 ;; t_ret ("(" ++ l ++ " * " ++ r ++ ")")
      end
    end
  | APPLY =>
    match args with
    | [] => t_raise IndexError
    | a0 :: rest =>
      f <~ t a0 ;;
      match rest with
      | [] => t_raise IndexError
      | a1 :: _ => a <~ t a1 ;; t_ret (f ++ "(" ++ a ++ ")")
      end
    end
  | LET =>
    name <~ t_lift (meta_get (m_name meta) "name") ;;
    match args with
    | [] => t_raise IndexError
    | a0 :: rest =>
      v <~ t a0 ;;
      _ <~ append (name ++ " = " ++ v) ;;
      match rest with
      | [] => t_raise IndexError
      | a1 :: _ => t a1
      end
    end
  end.

Definition z_to_py (z : ZNode) : res (list string * string) :=
  match t z [] with
  | (Ok final, assigns) => Ok (assigns, final)
  | (Raise e, _) => Raise e
  end.

Definition newline : string := String "010" EmptyString.

Section Unpack.
  (** [zlib.decompress], [json.loads], [Path.with_suffix], and the
      environment of built-in callables that [--eval] constructs. *)
Variables (zlib_decompress : list byte -> res (list byte))
            (json_loads : list byte -> res json)
            (with_suffix : string -> string -> res string).
Variable value : Type.
Variable vint : Z -> value.
Variable is_None : value -> bool.
Variables py_add py_mul py_call : value -> value -> res value.
Variable builtins : gmap string value.

  (** [unpack(in_path, out, eval_now)]; the lines it prints are not
      represented. *)
Definition unpack (in_path : string) (out : option string) (eval_now : bool)
    : IO unit :=
    raw <~~ read_bytes in_path ;;
    if negb (bytes_eqb (slice 0 4 raw) MAGIC)
    then io_raise (ValueError "bad magic") else
    ver <~~ io_lift (if (length (slice 4 8 raw) =? 4)%nat
                     then Ok (Struct.from_be (slice 4 8 raw))
                     else Raise StructError) ;;
    let comp := drop 8 raw in
    canon <~~ io_lift (zlib_decompress comp) ;;
    d <~~ io_lift (json_loads canon) ;;
    z <~~ io_lift (z_from_dict d) ;;
    py <~~ io_lift (z_to_py z) ;;
    let '(assigns, final) := py in
    let text := "# expanded by CSL" ++ newline
                ++ String.concat newline (assigns ++ [final])%list ++ newline in
    out <~~ match out with
            | Some o => io_ret o
            | None => io_lift (with_suffix in_path ".py")
            end ;;
    _ <~~ write_bytes out (list_byte_of_string text) ;;
    if eval_now then
      io_lift (_ <- fst (eval value vint is_None py_add py_mul py_call z builtins) ;;
               Ok tt)
    else io_ret tt.
End Unpack.

End CollapseUnpack.

(* --------------------------------------------------------------------- *)
(** ** csl_any_collapse.py                                                *)
(* --------------------------------------------------------------------- *)

Module AnyCollapse.
Local Open Scope string_scope.

Definition MAGIC : list byte := list_byte_of_string "CSLXRAW".
Definition VER : Z := 1.

Section Codec.
  (** [zlib.compress(data, 9)] and [zlib.decompress]; [str.encode('utf-8')]
      and [bytes.decode('utf-8')]; [Path.name], [Path.suffix] and
      [Path.with_suffix]. *)
Variables (zlib_compress : list byte -> list byte)
            (zlib_decompress : list byte -> res (list byte))
            (encode : string -> list byte)
            (decode : list byte -> res string)
            (path_name path_suffix : string -> string)
            (with_suffix : string -> string -> res string).

Definition pack_any (in_path : string) : IO string :=
    raw <~~ read_bytes in_path ;;
    let name := encode (path_name in_path) in
    ver <~~ io_lift (Struct.pack ">I" [NInt VER]) ;;
    nlen <~~ io_lift (Struct.pack ">I" [NInt (Z.of_nat (length name))]) ;;
    let payload := (MAGIC ++ ver ++ nlen ++ name ++ zlib_compress raw)%list in
    out <~~ io_lift (with_suffix in_path (path_suffix in_path ++ ".cslx")) ;;
    _ <~~ write_bytes out payload ;;
    io_ret out.

Definition unpack_any (pkg_path : string) : IO string :=
    pkg <~~ read_bytes pkg_path ;;
    if negb (bytes_eqb (slice 0 7 pkg) MAGIC)
    then io_raise (AssertionError "invalid CSLX magic") else
    let ver := Struct.from_be (slice 7 11 pkg) in
    let nlen := Z.to_nat (Struct.from_be (slice 11 15 pkg)) in
    name <~~ io_lift (decode (slice 15 (15 + nlen) pkg)) ;;
    data <~~ io_lift (zlib_decompress (drop (15 + nlen) pkg)) ;;
    let out := name in
    _ <~~ write_bytes out data ;;
    io_ret out.
End Codec.

End AnyCollapse.

(* --------------------------------------------------------------------- *)
(** ** The string library at ASCII text                                   *)
(* --------------------------------------------------------------------- *)

(** The canonicalizer and the parser take Python's character classes, case
    mapping, [int] and regular-expression search as parameters.  This module
    gives them for text made of ASCII code points, which is what the
    examples of the specification are written in; on such text they agree
    with Python's. *)
Module AsciiText.
Local Open Scope N_scope.

(** [c.isspace()] for [c < 128]: tab, line feed, vertical tab, form feed,
    carriage return, the four separators 28-31, and space. *)
Definition isspace (c : N) : bool :=
  existsb (N.eqb c) [9; 10; 11; 12; 13; 28; 29; 30; 31; 32].

Definition isdigit (c : N) : bool := (48 <=? c) && (c <=? 57).

(** [c.lower()] *)
Definition lower (c : N) : ustr :=
  if (65 <=? c) && (c <=? 90) then [c + 32] else [c].

(** [s.lower()] *)
Definition str_lower (s : ustr) : ustr := flat_map lower s.

(** The longest prefix of [s] made of digits, and what follows it. *)
Fixpoint span_digits (s : ustr) : ustr * ustr :=
  match s with
  | [] => ([], [])
  | c :: s' =>
    if isdigit c then let '(ds, r) := span_digits s' in (c :: ds, r)
    else ([], s)
  end.

Definition digits_value (ds : ustr) : Z :=
  fold_left (fun acc c => (10 * acc + Z.of_N (c - 48))%Z) ds 0%Z.

(** [int(s)] for an optionally signed run of digits, surrounded by optional
    whitespace; anything else is rejected. *)
Definition py_int (s : ustr) : res Z :=
  let s := strip isspace s in
  let '(neg, body) :=
    match s with
    | 45 :: r => (true, r)
    | 43 :: r => (false, r)
    | _ => (false, s)
    end in
  match span_digits body with
  | ((_ :: _) as ds, []) =>
    Ok (if neg then Z.opp (digits_value ds) else digits_value ds)
  | _ => Raise (ValueError "invalid literal for int() with base 10")
  end.

(** A match of [x\s*(\d+)\s*=\s*(-?\d+)] that starts at the head of [s].
    The classes of adjacent items are disjoint, so taking each repetition
    as long as possible loses no match. *)
Definition val_re_match_here (s : ustr) : option (ustr * ustr) :=
  match s with
  | 120 :: r =>
    let '(g1, r) := span_digits (lstrip isspace r) in
    match g1, lstrip isspace r with
    | _ :: _, 61 :: r =>
      let r := lstrip isspace r in
      let '(sign, r) :=
        match r with
        | 45 :: r' => ([45], r')
        | _ => ([], r)
        end in
      match span_digits r with
      | ((_ :: _) as ds, _) => Some (g1, sign ++ ds)
      | _ => None
      end
    | _, _ => None
    end
  | _ => None
  end.

(** [_val_re.search(s)]: groups 1 and 2 of the leftmost match. *)
Fixpoint _val_re_search (s : ustr) : option (ustr * ustr) :=
  match val_re_match_here s with
  | Some g => Some g
  | None =>
    match s with
    | [] => None
    | _ :: s' => _val_re_search s'
    end
  end.

Definition canonicalize : ustr -> ustr := Asc7.canonicalize lower isspace.

Definition parse_minimal : ustr -> res Parser.Program :=
  Parser.parse_minimal isspace str_lower py_int _val_re_search.

(** The source of the end-to-end example of the specification. *)
Definition example_source : ustr :=
  join [10]
    [ u "psi :: f3^3"; u "v :: { x in f3^3 : x1 = 0 }";
      u "grad"; u "project"; u "goal" ].

(** [compile_to_ir(parse_minimal(canonicalize(source)))] *)
Definition compile_source (source : ustr) : res (list Ir.Instr) :=
  prog <- parse_minimal (canonicalize source) ;;
  Compiler.compile_to_ir prog.

End AsciiText.

(* --------------------------------------------------------------------- *)
(** ** mini_cc.py: the canonical bytes of a node                          *)
(* --------------------------------------------------------------------- *)

Module Canonical.
Import MiniCC CollapseUnpack.
Local Open Scope string_scope.

(** [op.name] *)
Definition op_name (op : ZOp) : string :=
  match op with
  | INT => "INT"
  | VAR => "VAR"
  | ADD => "ADD"
  | MUL => "MUL"
  | APPLY => "APPLY"
  | LET => "LET"
  end.

(** The [meta] dictionary as the JSON object it is written as.  The order
    of its keys does not reach the output, which has them sorted. *)
Definition meta_json (m : Meta) : json :=
  JDict ((match m_name m with Some s => [("name", JStr s)] | None => [] end) ++
         (match m_value m with Some z => [("value", JInt z)] | None => [] end)).

Section ToCanon.
  (** [json.dumps(x, sort_keys=True, separators=(",", ":")).encode()], which
      returns for the dictionaries of strings, integers and lists built
      here, and [json.loads]. *)
Variables (json_dumps : json -> list byte)
            (json_loads : list byte -> res json).

  (** [ZNode.to_canon], through [_canon] on a dictionary. *)
Fixpoint to_canon (z : ZNode) : res (list byte) :=
    let 'Node op args meta := z in
    arg_json <- (fix each (l : list ZNode) : res (list json) :=
                   match l with
                   | [] => Ok []
                   | a :: l' =>
                     c <- to_canon a ;;
                     j <- json_loads c ;;
                     js <- each l' ;;
                     Ok (j :: js)
                   end) args ;;
    Ok (json_dumps (JDict [ ("op", JStr (op_name op));
                            ("args", JList arg_json);
                            ("meta", meta_json meta) ])).
End ToCanon.

End Canonical.

(* --------------------------------------------------------------------- *)
(** ** collapse_pack.py: [pack_py]                                        *)
(* --------------------------------------------------------------------- *)

Module PackPy.
Import MiniCC PyAst CollapsePack Canonical.
Local Open Scope string_scope.

Section PackPy.
  (** [bytes.decode('utf-8')], [ast.parse], the two functions of [json],
      [zlib.compress(data, 9)] and [Path.with_suffix]. *)
Variables (decode : list byte -> res string)
            (ast_parse : string -> res module)
            (json_dumps : CollapseUnpack.json -> list byte)
            (json_loads : list byte -> res CollapseUnpack.json)
            (zlib_compress : list byte -> list byte)
            (with_suffix : string -> string -> res string).

  (** [pack_py(src, out)]; the line it prints is not represented. *)
Definition pack_py (src : string) (out : option string) : IO unit :=
    raw <~~ read_bytes src ;;
    text <~~ io_lift (decode raw) ;;
    tree <~~ io_lift (ast_parse text) ;;
    z <~~ io_lift (visit_Module tree) ;;
    canon <~~ io_lift (to_canon json_dumps json_loads z) ;;
    let comp := zlib_compress canon in
    ver <~~ io_lift (Struct.pack ">I" [NInt VER]) ;;
    let payload := (MAGIC ++ ver ++ comp)%list in
    out <~~ match out with
            | Some o => io_ret o
            | None => io_lift (with_suffix src ".cslx")
            end ;;
    _ <~~ write_bytes out payload ;;
    io_ret tt.
End PackPy.

End PackPy.

(* --------------------------------------------------------------------- *)
(** ** mini_cc.py: the tokenizer and the parser                           *)
(* --------------------------------------------------------------------- *)

Module TokenType.
Inductive t : Type :=
  | INT | IDENT | PLUS | STAR | LPAREN | RPAREN | LET | IN | ARROW | COMMA | EOF.

#[global] Instance eq_dec : EqDecision t.
Proof. solve_decision. Defined.

(** [type.name] *)
Definition name (ty : t) : string :=
  match ty with
  | INT => "INT"
  | IDENT => "IDENT"
  | PLUS => "PLUS"
  | STAR => "STAR"
  | LPAREN => "LPAREN"
  | RPAREN => "RPAREN"
  | LET => "LET"
  | IN => "IN"
  | ARROW => "ARROW"
  | COMMA => "COMMA"
  | EOF => "EOF"
  end.
End TokenType.

Module Front.
Import MiniCC.
Local Open Scope string_scope.

(** [Token(type, value)] with the value that the tokenizer gives to each
    type: an [int] for [INT], a [str] for [IDENT], and [None] for the
    others. *)
Inductive Token : Type :=
  | T_INT (value : Z)
  | T_IDENT (value : string)
  | T_PLUS | T_STAR | T_LPAREN | T_RPAREN | T_LET | T_IN | T_ARROW | T_COMMA
  | T_EOF.

Definition type_of (tok : Token) : TokenType.t :=
  match tok with
  | T_INT _ => TokenType.INT
  | T_IDENT _ => TokenType.IDENT
  | T_PLUS => TokenType.PLUS
  | T_STAR => TokenType.STAR
  | T_LPAREN => TokenType.LPAREN
  | T_RPAREN => TokenType.RPAREN
  | T_LET => TokenType.LET
  | T_IN => TokenType.IN
  | T_ARROW => TokenType.ARROW
  | T_COMMA => TokenType.COMMA
  | T_EOF => TokenType.EOF
  end.

(** [tok.value] for a token of type [IDENT]. *)
Definition str_value (tok : Token) : string :=
  match tok with
  | T_IDENT w => w
  | _ => ""
  end.

(** The longest prefix of [s] whose characters satisfy [p], and what
    follows it: [s[i:j]] and [s[j:]] after
    [j = i; while j < n and p(s[j]): j += 1]. *)
Fixpoint span (p : ascii -> bool) (s : string) : string * string :=
  match s with
  | EmptyString => (EmptyString, EmptyString)
  | String c s' =>
    if p c then let '(w, r) := span p s' in (String c w, r)
    else (EmptyString, s)
  end.

(** The dictionary [m] of one-character tokens. *)
Definition symbol (c : ascii) : option Token :=
  if Ascii.eqb c "+" then Some T_PLUS
  else if Ascii.eqb c "*" then Some T_STAR
  else if Ascii.eqb c "(" then Some T_LPAREN
  else if Ascii.eqb c ")" then Some T_RPAREN
  else if Ascii.eqb c "," then Some T_COMMA
  else None.

Section Tokenizer.
  (** The character classes of [str] and [int] on a string of digits.  The
      source text is a [string], as the names of nodes are. *)
Variables (isspace isdigit isdecimal isnumeric isalpha : ascii -> bool).
Variable py_int : string -> res Z.

  (** [c.isalnum()]: one of [isalpha], [isdecimal], [isdigit] and
      [isnumeric] holds. *)
Definition isalnum (c : ascii) : bool :=
    isalpha c || isdecimal c || isdigit c || isnumeric c.

  (** The loop of [tokenize] with [s[i:]] for the index [i].  [fuel] bounds
      its turns; the length of the text is enough, each turn consuming a
      character. *)
Fixpoint tokenize_from (fuel : nat) (s : string) (ts : list Token)
    : res (list Token) :=
    match s with
    | EmptyString => Ok (ts ++ [T_EOF])%list
    | String c rest =>
      match fuel with
      | O => Raise RecursionError
      | S fuel' =>
        if isspace c then tokenize_from fuel' rest ts
        else if isdigit c then
          let '(w, r) := span isdigit s in
          n <- py_int w ;;
          tokenize_from fuel' r (ts ++ [T_INT n])%list
        else if isalpha c || Ascii.eqb c "_" then
          let '(w, r) := span (fun c => isalnum c || Ascii.eqb c "_") s in
          let tok := if String.eqb w "let" then T_LET
                     else if String.eqb w "in" then T_IN
                     else T_IDENT w in
          tokenize_from fuel' r (ts ++ [tok])%list
        else
          match rest with
          | String d rest' =>
            if Ascii.eqb c "-" && Ascii.eqb d ">"
            then tokenize_from fuel' rest' (ts ++ [T_ARROW])%list
            else match symbol c with
                 | Some tok => tokenize_from fuel' rest (ts ++ [tok])%list
                 | None => Raise (SyntaxError ("Unexpected " ++ String c ""))
                 end
          | EmptyString =>
            match symbol c with
            | Some tok => tokenize_from fuel' rest (ts ++ [tok])%list
            | None => Raise (SyntaxError ("Unexpected " ++ String c ""))
            end
          end
      end
    end.

Definition tokenize (s : string) : res (list Token) :=
    tokenize_from (String.length s) s [].
End Tokenizer.

Section Parser.
  (** [self.ts]; the state of the parser is the index [self.i]. *)
Variable ts : list Token.

Definition cur (i : nat) : res Token :=
    match ts !! i with
    | Some tok => Ok tok
    | None => Raise IndexError
    end.

Definition adv (i : nat) : nat :=
    if (Z.of_nat i <? Z.of_nat (length ts) - 1)%Z then S i else i.

Definition expect (ty : TokenType.t) (i : nat) : res (Token * nat) :=
    tok <- cur i ;;
    if bool_decide (type_of tok = ty) then Ok (tok, adv i)
    else Raise (SyntaxError ("Expected " ++ TokenType.name ty ++ ", got "
                               ++ TokenType.name (type_of tok))).

Definition is_type (ty : TokenType.t) (tok : Token) : bool :=
    bool_decide (type_of tok = ty).

  (** The methods [expr], [add], [mul], [app] and [prim], and the three
      [while] loops.  [fuel] bounds the depth of the calls and the turns of
      the loops; when it runs out the outcome is [RecursionError], which is
      what a recursion without end gives. *)
Fixpoint expr (fuel : nat) (i : nat) {struct fuel} : res (ZNode * nat) :=
    match fuel with
    | O => Raise RecursionError
    | S f =>
      tok <- cur i ;;
      if is_type TokenType.LET tok then
        let i := adv i in
        p <- expect TokenType.IDENT i ;;
        let '(name, i) := p in
        p <- expect TokenType.ARROW i ;;
        let '(_, i) := p in
        p <- expr f i ;;
        let '(val, i) := p in
        p <- expect TokenType.IN i ;;
        let '(_, i) := p in
        p <- expr f i ;;
        let '(body, i) := p in
        Ok (Node LET [val; body] (meta_name (str_value name)), i)
      else add f i
    end
with add (fuel : nat) (i : nat) {struct fuel} : res (ZNode * nat) :=
    match fuel with
    | O => Raise RecursionError
    | S f =>
      p <- mul f i ;;
      let '(lhs, i) := p in
      add_loop f lhs i
    end
with add_loop (fuel : nat) (lhs : ZNode) (i : nat) {struct fuel}
    : res (ZNode * nat) :=
    match fuel with
    | O => Raise RecursionError
    | S f =>
      tok <- cur i ;;
      if is_type TokenType.PLUS tok then
        p <- mul f (adv i) ;;
        let '(rhs, i) := p in
        add_loop f (Node ADD [lhs; rhs] no_meta) i
      else Ok (lhs, i)
    end
with mul (fuel : nat) (i : nat) {struct fuel} : res (ZNode * nat) :=
    match fuel with
    | O => Raise RecursionError
    | S f =>
      p <- app f i ;;
      let '(lhs, i) := p in
      mul_loop f lhs i
    end
with mul_loop (fuel : nat) (lhs : ZNode) (i : nat) {struct fuel}
    : res (ZNode * nat) :=
    match fuel with
    | O => Raise RecursionError
    | S f =>
      tok <- cur i ;;
      if is_type TokenType.STAR tok then
        p <- app f (adv i) ;;
        let '(rhs, i) := p in
        mul_loop f (Node MUL [lhs; rhs] no_meta) i
      else Ok (lhs, i)
    end
with app (fuel : nat) (i : nat) {struct fuel} : res (ZNode * nat) :=
    match fuel with
    | O => Raise RecursionError
    | S f =>
      p <- prim f i ;;
      let '(fn, i) := p in
      tok <- cur i ;;
      if is_type TokenType.LPAREN tok then
        let i := adv i in
        tok <- cur i ;;
        p <- (if negb (is_type TokenType.RPAREN tok) then
                p <- expr f i ;;
                let '(a, i) := p in
                app_loop f [a] i
              else Ok ([], i)) ;;
        let '(args, i) := p in
        p <- expect TokenType.RPAREN i ;;
        let '(_, i) := p in
        Ok (fold_left (fun fn a => Node APPLY [fn; a] no_meta) args fn, i)
      else Ok (fn, i)
    end
with app_loop (fuel : nat) (args : list ZNode) (i : nat) {struct fuel}
    : res (list ZNode * nat) :=
    match fuel with
    | O => Raise RecursionError
    | S f =>
      tok <- cur i ;;
      if is_type TokenType.COMMA tok then
        p <- expr f (adv i) ;;
        let '(a, i) := p in
        app_loop f (args ++ [a])%list i
      else Ok (args, i)
    end
with prim (fuel : nat) (i : nat) {struct fuel} : res (ZNode * nat) :=
    match fuel with
    | O => Raise RecursionError
    | S f =>
      tok <- cur i ;;
      match tok with
      | T_INT value => Ok (Node INT [] (meta_value value), adv i)
      | T_IDENT value => Ok (Node VAR [] (meta_name value), adv i)
      | T_LPAREN =>
        p <- expr f (adv i) ;;
        let '(e, i) := p in
        p <- expect TokenType.RPAREN i ;;
        let '(_, i) := p in
        Ok (e, i)
      | _ => Raise (SyntaxError ("Unexpected token: "
                                   ++ TokenType.name (type_of tok)))
      end
    end.

Definition parse_with (fuel : nat) : res ZNode :=
    p <- expr fuel 0 ;;
    let '(node, i) := p in
    _ <- expect TokenType.EOF i ;;
    Ok node.

  (** [Parser(ts).parse()], with six steps for each token and six more,
      which is enough for every list that ends with [EOF]. *)
Definition parse : res ZNode := parse_with (6 * length ts + 6).
End Parser.

Section CompileToZ.
Variables (isspace isdigit isdecimal isnumeric isalpha : ascii -> bool).
Variable py_int : string -> res Z.

Definition compile_to_z (source : string) : res ZNode :=
    toks <- tokenize isspace isdigit isdecimal isnumeric isalpha py_int source ;;
    parse toks.
End CompileToZ.

End Front.

(* ===================================================================== *)
(** * Part II. Vocabulary of the specification                            *)
(* ===================================================================== *)

Module Lex.
Local Open Scope Z_scope.

(** All tuples of length [n] over the digits [0 .. p-1], in odometer order:
    the first coordinate is the slowest to change. *)
Fixpoint lex_tuples (n : nat) (p : Z) : list (list Z) :=
  match n with
  | O => [[]]
  | S n' => flat_map (fun v => map (cons v) (lex_tuples n' p)) (range p)
  end.

(** Strict lexicographic order on tuples. *)
Inductive lex_lt : list Z -> list Z -> Prop :=
  | lex_lt_nil y ys : lex_lt [] (y :: ys)
  | lex_lt_head x y xs ys : x < y -> lex_lt (x :: xs) (y :: ys)
  | lex_lt_tail x xs ys : lex_lt xs ys -> lex_lt (x :: xs) (x :: ys).

(** What it means for a run of [build_mask] that ended in the frame [st] to
    have enumerated the lattice: [cond] was called on every tuple exactly
    once, in lexicographic order, with [idx] counting up from 0, and the
    bits of the mask are the indices at which [cond] held. *)
Definition enumerates (dim p : Z) (f : list Z -> bool) (st : Fardbits.frame)
  : Prop :=
  map snd (Fardbits.calls st) = lex_tuples (Z.to_nat dim) p /\
  map fst (Fardbits.calls st) = range (p ^ dim) /\
  Fardbits.idx st = p ^ dim /\
  StronglySorted lex_lt (map snd (Fardbits.calls st)) /\
  NoDup (map snd (Fardbits.calls st)) /\
  (forall t, In t (map snd (Fardbits.calls st)) <->
             length t = Z.to_nat dim /\ Forall (fun x => 0 <= x < p) t) /\
  (forall i, Z.testbit (Fardbits.bs st) i = true <->
             exists t, In (i, t) (Fardbits.calls st) /\ f t = true).

(** The program [psi :: f3^3], [v :: { x in f3^3 : x1 = 0 }] followed by
    any steps. *)
Definition x1_eq_0_over_f3_3 (steps : list Parser.Step) : Parser.Program :=
  {| Parser.psi := {| Parser.p := 3; Parser.dim := 3 |};
     Parser.val := {| Parser.kind := "x_eq_const"; Parser.val_args := (0, 0) |};
     Parser.steps := steps |}.

(** The mask of the fourth instruction has exactly 9 bits set, all below
    27, and they are the indices of the tuples whose first coordinate is 0. *)
Definition vmask_first_coordinate_zero (bc : list Ir.Instr) : Prop :=
  exists mask,
    (Ir.op <$> bc !! 3%nat) = Some Ir.OP_VMASK /\
    (Ir.i <$> bc !! 3%nat) = Some mask /\
    length (Fardbits.indices_from_bitset mask 27) = 9%nat /\
    (forall i, Z.testbit mask i = true <->
               0 <= i < 27 /\
               exists t, lex_tuples 3 3 !! Z.to_nat i = Some t /\ t !! 0%nat = Some 0).

End Lex.

Module Env.

(** [shrinks E E']: every binding of [E'] is a binding of [E], and every
    binding of [E] to a value other than [None] is still in [E']. *)
Definition shrinks (value : Type) (is_None : value -> bool)
    (E E' : gmap string value) : Prop :=
  (forall k v, E' !! k = Some v -> E !! k = Some v) /\
  (forall k v, E !! k = Some v -> is_None v = false -> E' !! k = Some v).

(** No name is bound to [None]. *)
Definition None_free (value : Type) (is_None : value -> bool)
    (E : gmap string value) : Prop :=
  forall k v, E !! k = Some v -> is_None v = false.

End Env.

Module Markers.
(** The three kinds of marker that [parse_minimal] looks for in a lowercased
    line. *)
Definition gradient (l : ustr) : bool :=
  contains [8711%N; 108%N] l || contains (u "grad") l.
Definition projection (l : ustr) : bool := contains (u "p_v") l.
Definition turnstile (l : ustr) : bool :=
  contains [8866%N] l || contains (u "vdash") l.

Definition grad_step : Parser.Step :=
  {| Parser.st_op := "grad"; Parser.st_args := [] |}.
Definition project_step : Parser.Step :=
  {| Parser.st_op := "project"; Parser.st_args := [] |}.
Definition goal_step : Parser.Step :=
  {| Parser.st_op := "goal"; Parser.st_args := [Parser.f_0_01; Parser.f_0_99] |}.

(** What one lowercased line [l] contributes to the steps. *)
Definition outcome (l : ustr) (out : list Parser.Step) : Prop :=
  (length out <= 1)%nat /\
  (gradient l = true -> out = [grad_step]) /\
  (gradient l = false -> projection l = true -> out = [project_step]) /\
  (gradient l = false -> projection l = false -> turnstile l = true ->
   out = [goal_step]) /\
  (gradient l = false -> projection l = false -> turnstile l = false ->
   out = []).

(** The non-empty lines of a text. *)
Definition lines (text : ustr) : list ustr :=
  filter (fun ln => negb (ueqb ln [])) (split_on 10 text).
End Markers.

Module Listing.
Local Open Scope string_scope.

(** The entries of a text listing of [bc]: one per instruction, in order,
    entry [k] beginning with the formatted index [k] and a colon. *)
Definition entries_of (bc : list Ir.Instr) (out : list string) : Prop :=
  length out = length bc /\
  forall k l, out !! k = Some l ->
    exists body, l = Asm.fmt_02d k ++ ": " ++ body.

(** An instruction whose operand [b] is not an infinity or a NaN. *)
Definition finite_b (ins : Ir.Instr) : Prop :=
  match Ir.b ins with
  | NFloat (S754_infinity _) | NFloat S754_nan => False
  | _ => True
  end.

(** The program of the end-to-end example, were each of its three step
    lines to yield its step. *)
Definition three_steps : Parser.Program :=
  Lex.x1_eq_0_over_f3_3
    [ Markers.grad_step; Markers.project_step; Markers.goal_step ].

(** Whether a string holds a line feed. *)
Definition has_line_feed (s : string) : bool :=
  existsb (Ascii.eqb "010") (list_ascii_of_string s).
End Listing.

Module Layout.
Local Open Scope Z_scope.

(** [rec] is the binary record of [ins]: the opcode as one byte, the three
    numeric operands as the little-endian bit patterns of their binary32
    roundings, and the integer operand reduced modulo [2^64] as eight
    little-endian bytes. *)
Definition is_record (ins : Ir.Instr) (rec : list byte) : Prop :=
  exists za zb zc,
    Struct.float32_bits (Ir.a ins) = Ok za /\
    Struct.float32_bits (Ir.b ins) = Ok zb /\
    Struct.float32_bits (Ir.c ins) = Ok zc /\
    0 <= Ir.op ins < 256 /\
    rec = (Struct.le_bytes 1 (Ir.op ins) ++ Struct.le_bytes 4 za ++
           Struct.le_bytes 4 zb ++ Struct.le_bytes 4 zc ++
           Struct.le_bytes 8 (Ir.i ins mod 2 ^ 64))%list.

(** An instruction that [struct.pack] accepts. *)
Definition packable (ins : Ir.Instr) : bool :=
  (0 <=? Ir.op ins) && (Ir.op ins <? 256) &&
  is_ok (Struct.float32_bits (Ir.a ins)) &&
  is_ok (Struct.float32_bits (Ir.b ins)) &&
  is_ok (Struct.float32_bits (Ir.c ins)).
End Layout.

Module Errors.
(** The specification calls the failure on malformed input a format error.
    The sources have no class of that name: the CSL parser and [unpack]
    raise [ValueError], and [unpack_any] fails an [assert]. *)
Definition FormatError (e : exn) : Prop :=
  match e with
  | ValueError _ | AssertionError _ => True
  | _ => False
  end.
End Errors.

Module Stored.
(** Stand-ins for the libraries the container codec calls, used to run it:
    a [zlib] that stores the data as it is, a UTF-8 codec for names that
    are already byte strings, a JSON reader that rejects everything, and
    paths without directories. *)
Definition zlib_compress (data : list byte) : list byte := data.
Definition zlib_decompress (data : list byte) : res (list byte) := Ok data.
Definition encode (s : string) : list byte := list_byte_of_string s.
Definition decode (bs : list byte) : res string := Ok (string_of_list_byte bs).
Definition json_loads (bs : list byte) : res CollapseUnpack.json :=
  Raise JSONDecodeError.
Definition path_name (p : string) : string := p.
Definition path_suffix (p : string) : string := "".
Definition with_suffix (p suffix : string) : res string := Ok (p ++ suffix)%string.
End Stored.

Module Canon.
Local Open Scope N_scope.

(** A key of [_ASC7_MAP]. *)
Definition is_key (c : N) : bool :=
  existsb (fun kv => N.eqb c (fst kv)) Asc7._ASC7_MAP.

(** What Python's tables are assumed to satisfy.  Lowercasing is idempotent
    on every character it produces; it does not produce a character that
    the map replaces out of one that the map keeps; it leaves the space and
    the line feed alone; and the space is whitespace. *)
Record unicode_facts (lower : N -> ustr) (isspace : N -> bool) : Prop := {
  lower_idem : forall c d, In d (lower c) -> lower d = [d];
  lower_keys : forall c d, In d (lower c) -> is_key d = true -> is_key c = true;
  lower_space : lower 32 = [32];
  lower_line_feed : lower 10 = [10];
  space_isspace : isspace 32 = true
}.
End Canon.

(** The code of one step: what the loop of [compile_to_ir] appends for it. *)
Definition step_code (st : Parser.Step) : list Ir.Instr :=
  Compiler.compile_step [] st.

Module Operands.
(** An [INIT] instruction that the listing shows as [INIT dim=...] and
    whose operand [b] is the float [+inf], which [int()] rejects. *)
Definition init_dim_infinite (ins : Ir.Instr) : bool :=
  (Ir.op ins =? Ir.OP_INIT)%Z && negb (0 <? Ir.i ins)%Z &&
  match Ir.b ins with
  | NFloat (S754_infinity false) => true
  | _ => false
  end.
End Operands.

Module CanonForm.
Local Open Scope N_scope.

(** A line of a text in canonical form: it is not empty and not a
    comment; it is made of words, non-empty runs without whitespace, joined
    by single spaces; and each of its characters is other than the line
    feed, is not replaced by [_ASC7_MAP] and is its own lower case. *)
Definition canonical_line (lower : N -> ustr) (isspace : N -> bool) (ln : ustr)
  : Prop :=
  ln <> [] /\ startswith (u "//") ln = false /\
  (exists words,
     ln = join [32] words /\
     Forall (fun w => w <> [] /\ Forall (fun c => isspace c = false) w) words) /\
  Forall (fun c => c <> 10 /\ Canon.is_key c = false /\ lower c = [c]) ln.

(** Two texts put one above the other, an empty text contributing no
    line. *)
Definition stack (a b : ustr) : ustr :=
  match a, b with
  | [], _ => b
  | _, [] => a
  | _, _ => a ++ [10] ++ b
  end.
End CanonForm.

Module Subset.
Import PyAst.

(** The expressions to which Python and the engine both give a meaning
    without help from the environment: integer literals, names, sums,
    products, and calls of a named function on one argument. *)
Inductive core : expr -> Prop :=
  | core_int (z : Z) : core (Constant (CInt z))
  | core_name (id : string) : core (Name id)
  | core_add (l r : expr) : core l -> core r -> core (BinOp l Add r)
  | core_mul (l r : expr) : core l -> core r -> core (BinOp l Mult r)
  | core_call (f : string) (a : expr) : core a -> core (Call (Name f) [a]).

(** The statement [name = value]. *)
Definition assign (b : string * expr) : stmt := Assign [Name (fst b)] (snd b).

(** A module made of assignments to names followed by an expression
    statement. *)
Definition program (bindings : list (string * expr)) (final : expr) : module :=
  map assign bindings ++ [Expr final].

(** A statement that the loop of [visit_Module] turns into a [LET]: an
    assignment with a single target. *)
Definition single_assign (st : stmt) : bool :=
  match st with
  | Assign [_] _ => true
  | _ => false
  end.
End Subset.

Module Json.
Import CollapseUnpack.
Local Open Scope string_scope.

(** Insertion of an entry into a list of entries sorted by key, before the
    entries whose key is not smaller. *)
Fixpoint insert_key (kv : string * json) (l : list (string * json))
  : list (string * json) :=
  match l with
  | [] => [kv]
  | kv' :: l' =>
    if String.leb (fst kv) (fst kv') then kv :: l else kv' :: insert_key kv l'
  end.

(** The value with the entries of every object sorted by key, which is the
    order [json.dumps(..., sort_keys=True)] writes them in and so the order
    [json.loads] meets them in. *)
Fixpoint sort_keys (j : json) : json :=
  match j with
  | JList items => JList (map sort_keys items)
  | JDict items =>
    JDict ((fix each (l : list (string * json)) : list (string * json) :=
              match l with
              | [] => []
              | (k, v) :: l' => insert_key (k, sort_keys v) (each l')
              end) items)
  | _ => j
  end.

(** What Python's [json] is assumed to do: reading what was written gives
    the value back, with the keys of its objects in sorted order. *)
Definition round_trip (json_dumps : json -> list byte)
    (json_loads : list byte -> res json) : Prop :=
  forall j, json_loads (json_dumps j) = Ok (sort_keys j).
End Json.

Module Expansion.
Local Open Scope string_scope.

(** The text of the file that [unpack] writes for the lines [lines]: a
    comment line, then the lines, each ended by a line feed. *)
Definition expanded (lines : list string) : string :=
  "# expanded by CSL" ++ CollapseUnpack.newline
    ++ String.concat CollapseUnpack.newline lines ++ CollapseUnpack.newline.
End Expansion.

Module StoredJson.
Import CollapseUnpack.

(** A stand-in for [json], used to run the packer: a value is written as
    the bits, one per byte, of its number in an enumeration of the values. *)
Fixpoint to_tree (j : json) : gen_tree (Z + string) :=
  match j with
  | JNull => GenNode 0 []
  | JBool true => GenNode 1 []
  | JBool false => GenNode 2 []
  | JInt z => GenLeaf (inl z)
  | JStr s => GenLeaf (inr s)
  | JList items => GenNode 3 (map to_tree items)
  | JDict items =>
    GenNode 4 (map (fun kv => GenNode 3 [GenLeaf (inr (fst kv)); to_tree (snd kv)])
                   items)
  end.

Definition entry_of (j : json) : option (string * json) :=
  match j with
  | JList [JStr k; v] => Some (k, v)
  | _ => None
  end.

Fixpoint all_some {A : Type} (l : list (option A)) : option (list A) :=
  match l with
  | [] => Some []
  | Some x :: l' =>
    match all_some l' with Some xs => Some (x :: xs) | None => None end
  | None :: _ => None
  end.

Fixpoint of_tree (t : gen_tree (Z + string)) : option json :=
  match t with
  | GenLeaf (inl z) => Some (JInt z)
  | GenLeaf (inr s) => Some (JStr s)
  | GenNode 0 _ => Some JNull
  | GenNode 1 _ => Some (JBool true)
  | GenNode 2 _ => Some (JBool false)
  | GenNode 3 ts =>
    match all_some (map of_tree ts) with
    | Some items => Some (JList items)
    | None => None
    end
  | GenNode 4 ts =>
    match all_some (map of_tree ts) with
    | Some items =>
      match all_some (map entry_of items) with
      | Some kvs => Some (JDict kvs)
      | None => None
      end
    | None => None
    end
  | GenNode _ _ => None
  end.

Fixpoint bytes_of_pos (p : positive) : list byte :=
  match p with
  | xH => []
  | xO p' => Corelib.Init.Byte.x00 :: bytes_of_pos p'
  | xI p' => Corelib.Init.Byte.x01 :: bytes_of_pos p'
  end.

Fixpoint pos_of_bytes (bs : list byte) : positive :=
  match bs with
  | [] => xH
  | b :: bs' =>
    if Byte.eqb b Corelib.Init.Byte.x00 then xO (pos_of_bytes bs')
    else xI (pos_of_bytes bs')
  end.

Definition json_dumps (j : json) : list byte :=
  bytes_of_pos (encode (to_tree j)).

Definition json_loads (bs : list byte) : res json :=
  match decode (pos_of_bytes bs) with
  | Some t =>
    match of_tree t with
    | Some j => Ok (Json.sort_keys j)
    | None => Raise JSONDecodeError
    end
  | None => Raise JSONDecodeError
  end.
End StoredJson.

Module Printed.
Import MiniCC Front.

(** The expressions of [mini_cc]. *)
Inductive term : Type :=
  | TInt (value : Z)
  | TVar (name : string)
  | TAdd (l r : term)
  | TMul (l r : term)
  | TApply (f a : term)
  | TLet (name : string) (val body : term).

(** The node that stands for an expression. *)
Fixpoint node_of (e : term) : ZNode :=
  match e with
  | TInt value => Node INT [] (meta_value value)
  | TVar name => Node VAR [] (meta_name name)
  | TAdd l r => Node ADD [node_of l; node_of r] no_meta
  | TMul l r => Node MUL [node_of l; node_of r] no_meta
  | TApply f a => Node APPLY [node_of f; node_of a] no_meta
  | TLet name val body => Node LET [node_of val; node_of body] (meta_name name)
  end.

(** The tokens of an expression written with all its parentheses:
    [(l + r)], [(l * r)], [(f)(a)] and [(let name -> val in body)]. *)
Fixpoint tokens (e : term) : list Token :=
  match e with
  | TInt value => [T_INT value]
  | TVar name => [T_IDENT name]
  | TAdd l r => [T_LPAREN] ++ tokens l ++ [T_PLUS] ++ tokens r ++ [T_RPAREN]
  | TMul l r => [T_LPAREN] ++ tokens l ++ [T_STAR] ++ tokens r ++ [T_RPAREN]
  | TApply f a =>
    [T_LPAREN] ++ tokens f ++ [T_RPAREN; T_LPAREN] ++ tokens a ++ [T_RPAREN]
  | TLet name val body =>
    [T_LPAREN; T_LET; T_IDENT name; T_ARROW] ++ tokens val ++ [T_IN]
      ++ tokens body ++ [T_RPAREN]
  end.
End Printed.

Module Packaged.
(** A file of the first variant whose header holds the four bytes [ver] as
    version and announces the stored name [name], followed by [comp]. *)
Definition framed (ver name comp : list byte) : list byte :=
  AnyCollapse.MAGIC ++ ver ++ Struct.be_bytes 4 (Z.of_nat (length name))
    ++ name ++ comp.
End Packaged.

Module Surface.
Import MiniCC Front Printed.

(** [toks] between parentheses when [b] holds. *)
Definition paren (b : bool) (toks : list Token) : list Token :=
  if b then T_LPAREN :: toks ++ [T_RPAREN] else toks.

(** The tokens of an expression written with the parentheses that the
    grammar needs and no other.  [lvl] is the place where the expression
    stands: 0 for an expression, 1 for a term of a sum, 2 for a factor of a
    product, 3 for a call, 4 for a primary.  A sum is parenthesised from
    level 2 on, and its right operand stands at level 2; a product from
    level 3 on, its right operand at level 3; a call at level 4, its
    function at level 4; a [let] from level 1 on. *)
Fixpoint show (lvl : nat) (e : term) : list Token :=
  match e with
  | TInt value => [T_INT value]
  | TVar name => [T_IDENT name]
  | TAdd l r => paren (1 <? lvl) (show 1 l ++ T_PLUS :: show 2 r)
  | TMul l r => paren (2 <? lvl) (show 2 l ++ T_STAR :: show 3 r)
  | TApply f a =>
    paren (3 <? lvl) (show 4 f ++ T_LPAREN :: show 0 a ++ [T_RPAREN])
  | TLet name val body =>
    paren (0 <? lvl)
      (T_LET :: T_IDENT name :: T_ARROW :: show 0 val ++ T_IN :: show 0 body)
  end.

(** The arguments of a call after the first, each one behind its comma. *)
Definition more_commas (args : list term) : list Token :=
  flat_map (fun a => T_COMMA :: show 0 a) args.

(** The arguments of a call, separated by commas. *)
Definition commas (args : list term) : list Token :=
  match args with
  | [] => []
  | a :: rest => show 0 a ++ more_commas rest
  end.

(** [fn] applied to the arguments one after the other. *)
Definition curried (fn : ZNode) (args : list ZNode) : ZNode :=
  fold_left (fun fn a => Node APPLY [fn; a] no_meta) args fn.
End Surface.

(* ===================================================================== *)
(** * Part III. Verification                                              *)
(* ===================================================================== *)

(** ** The error monad *)

Lemma bind_Ok {A B : Type} (m : res A) (k : A -> res B) (b : B) :
  bind m k = Ok b -> exists a, m = Ok a /\ k a = Ok b.
Proof. destruct m as [a|e]; simpl; [eauto | discriminate]. Qed.

Lemma for_each_app {X S : Type} (xs ys : list X) (body : X -> S -> res S) (s : S) :
  for_each (xs ++ ys) body s = (s' <- for_each xs body s ;; for_each ys body s').
Proof.
  revert s. induction xs as [|x xs IH]; intros s; simpl; [reflexivity|].
  destruct (body x s); simpl; auto.
Qed.

Lemma range_length (n : Z) : length (range n) = Z.to_nat n.
Proof. unfold range. by rewrite length_map, length_seq. Qed.

Lemma range_lookup (n : Z) (k : nat) :
  (k < Z.to_nat n)%nat -> range n !! k = Some (Z.of_nat k).
Proof.
  intros Hk. unfold range. rewrite list_lookup_fmap, lookup_seq_lt by done.
  reflexivity.
Qed.

Lemma range_In (n x : Z) : In x (range n) <-> (0 <= x < n)%Z.
Proof.
  unfold range. rewrite in_map_iff. split.
  - intros (k & <- & Hk). apply in_seq in Hk. lia.
  - intros Hx. exists (Z.to_nat x). split; [lia|]. apply in_seq. lia.
Qed.

Lemma range_sorted (n : Z) : StronglySorted Z.lt (range n).
Proof.
  unfold range. generalize 0%nat as s. generalize (Z.to_nat n) as k.
  induction k as [|k IH]; intros s; simpl; constructor; [apply IH|].
  apply Forall_forall. intros x Hx. apply list_elem_of_In in Hx.
  apply in_map_iff in Hx as (j & <- & Hj). apply in_seq in Hj. lia.
Qed.

(** ** [build_mask] enumerates the lattice *)

Section BuildMaskProofs.
Import Fardbits Lex.
Local Open Scope Z_scope.

Variables (dim p : Z) (f : list Z -> bool).

  (** The effect of one call [rec(dim)] on [bs], [idx] and the ghost log,
      for the tuple that [coords] holds at that moment. *)
Definition leaf (st : frame) (tup : list Z) : frame :=
    {| bs := if f tup then bitset_set (bs st) (idx st) else bs st;
       idx := idx st + 1;
       coords := coords st;
       calls := calls st ++ [(idx st, tup)] |}.

Definition with_coords (cs : list Z) (st : frame) : frame :=
    {| bs := bs st; idx := idx st; coords := cs; calls := calls st |}.

Lemma with_coords_leaves ts cs st :
    fold_left leaf ts (with_coords cs st) = with_coords cs (fold_left leaf ts st).
  Proof.
    revert st. induction ts as [|t ts IH]; intros st; simpl; [reflexivity|].
    rewrite <- IH. reflexivity.
  Qed.

Lemma with_coords_idem cs cs' st :
    with_coords cs (with_coords cs' st) = with_coords cs st.
  Proof. reflexivity. Qed.

Lemma with_coords_self st : with_coords (coords st) st = st.
  Proof. by destruct st. Qed.

Lemma py_setitem_in_range {A : Type} (xs : list A) (k : Z) (v : A) :
    0 <= k < Z.of_nat (length xs) ->
    py_setitem xs k v = Ok (<[Z.to_nat k := v]> xs).
  Proof.
    intros Hk. unfold py_setitem, py_index.
    replace ((0 <=? k) && (k <? Z.of_nat (length xs))) with true; [reflexivity|].
    symmetry. apply andb_true_iff. split; [apply Z.leb_le | apply Z.ltb_lt]; lia.
  Qed.

Lemma take_of_take_succ (l l' : list Z) (n : nat) (v : Z) :
    take (S n) l = take n l' ++ [v] -> (n <= length l')%nat ->
    take n l = take n l'.
  Proof.
    intros H Hn.
    rewrite <- (take_idemp l'), <- (take_app_le (take n l') [v] n)
      by (rewrite length_take; lia).
    rewrite <- H, take_take. f_equal. lia.
  Qed.

Abbreviation cond := (fun x : list Z => Ok (f x)).

  (** One level of the recursion: the loop [for v in range(p)] at depth [d]
      behaves as stated as soon as the calls [rec(d+1)] do. *)
Lemma loop_spec (n : nat) (fuel : nat) (d : Z) :
    0 <= d -> d < dim ->
    (forall st, length (coords st) = Z.to_nat dim ->
       exists cs,
         rec dim p cond fuel (d + 1) st =
           Ok (with_coords cs
                 (fold_left leaf
                    (map (app (take (Z.to_nat (d + 1)) (coords st))) (lex_tuples n p)) st))
         /\ length cs = Z.to_nat dim
         /\ take (Z.to_nat (d + 1)) cs = take (Z.to_nat (d + 1)) (coords st)) ->
    forall vs st, length (coords st) = Z.to_nat dim ->
      exists cs,
        for_each vs
          (fun v st =>
             cs <- py_setitem (coords st) d v ;;
             rec dim p cond fuel (d + 1)
               {| bs := bs st; idx := idx st; coords := cs; calls := calls st |})
          st =
          Ok (with_coords cs
                (fold_left leaf
                   (map (app (take (Z.to_nat d) (coords st)))
                        (flat_map (fun v => map (cons v) (lex_tuples n p)) vs)) st))
        /\ length cs = Z.to_nat dim
        /\ take (Z.to_nat d) cs = take (Z.to_nat d) (coords st).
  Proof.
    intros Hd0 Hd IH vs. induction vs as [|v vs IHvs]; intros st Hlen.
    - exists (coords st). simpl. rewrite with_coords_self. auto.
    - simpl. rewrite py_setitem_in_range by lia. simpl.
      set (cs1 := <[Z.to_nat d := v]> (coords st)).
      destruct (IH {| bs := bs st; idx := idx st; coords := cs1; calls := calls st |})
        as (cs2 & Hrec & Hlen2 & Hpre2).
      { simpl. unfold cs1. rewrite length_insert. exact Hlen. }
      rewrite Hrec. simpl.
      assert (Hpre1 : take (Z.to_nat (d + 1)) cs1 = take (Z.to_nat d) (coords st) ++ [v]).
      { replace (Z.to_nat (d + 1)) with (S (Z.to_nat d)) by lia.
        unfold cs1. rewrite take_S_r with (x := v).
        - rewrite take_insert_ge by lia. reflexivity.
        - apply list_lookup_insert_eq. lia. }
      change {| bs := bs st; idx := idx st; coords := cs1; calls := calls st |}
        with (with_coords cs1 st) in *.
      rewrite with_coords_leaves, with_coords_idem.
      set (st2 := with_coords cs2 _).
      destruct (IHvs st2) as (cs3 & Hloop & Hlen3 & Hpre3); [exact Hlen2|].
      assert (Hpre : take (Z.to_nat d) cs2 = take (Z.to_nat d) (coords st)).
      { apply (take_of_take_succ _ _ _ v); [|lia].
        replace (S (Z.to_nat d)) with (Z.to_nat (d + 1)) by lia.
        rewrite Hpre2. exact Hpre1. }
      exists cs3. split; [|split; [exact Hlen3|]].
      + rewrite Hloop. f_equal. unfold st2. simpl coords.
        rewrite Hpre, with_coords_leaves, with_coords_idem.
        f_equal. rewrite map_app, fold_left_app. f_equal.
        f_equal. rewrite Hpre1, map_map.
        apply map_ext. intros t. by rewrite <- app_assoc.
      + rewrite Hpre3. unfold st2. simpl coords. exact Hpre.
  Qed.

Lemma rec_spec (n : nat) :
    forall fuel d st,
      (n < fuel)%nat -> 0 <= d -> d + Z.of_nat n = dim ->
      length (coords st) = Z.to_nat dim ->
      exists cs,
        rec dim p cond fuel d st =
          Ok (with_coords cs
                (fold_left leaf
                   (map (app (take (Z.to_nat d) (coords st))) (lex_tuples n p)) st))
        /\ length cs = Z.to_nat dim
        /\ take (Z.to_nat d) cs = take (Z.to_nat d) (coords st).
  Proof.
    induction n as [|n IH]; intros fuel d st Hfuel Hd0 Hd Hlen.
    - destruct fuel as [|fuel]; [lia|]. simpl.
      replace (d =? dim) with true by (symmetry; apply Z.eqb_eq; lia).
      exists (coords st). simpl.
      rewrite take_ge, app_nil_r by lia. auto.
    - destruct fuel as [|fuel]; [lia|]. simpl rec.
      replace (d =? dim) with false by (symmetry; apply Z.eqb_neq; lia).
      apply (loop_spec n fuel d); [lia | lia | | exact Hlen].
      intros st' Hlen'. apply IH; [lia | lia | lia | exact Hlen'].
  Qed.

  (** *** What a sequence of leaf calls leaves behind *)

Lemma leaves_idx ts st :
    idx (fold_left leaf ts st) = idx st + Z.of_nat (length ts).
  Proof.
    revert st. induction ts as [|t ts IH]; intros st; simpl; [lia|].
    rewrite IH. simpl. lia.
  Qed.

Lemma leaves_calls_snd ts st :
    map snd (calls (fold_left leaf ts st)) = map snd (calls st) ++ ts.
  Proof.
    revert st. induction ts as [|t ts IH]; intros st; simpl.
    - by rewrite app_nil_r.
    - rewrite IH. simpl. rewrite map_app. simpl. by rewrite <- app_assoc.
  Qed.

Lemma leaves_calls_fst ts st :
    map fst (calls (fold_left leaf ts st)) =
    map fst (calls st) ++ map (fun k => idx st + Z.of_nat k) (seq 0 (length ts)).
  Proof.
    revert st. induction ts as [|t ts IH]; intros st; simpl.
    - by rewrite app_nil_r.
    - rewrite IH. simpl. rewrite map_app. simpl. rewrite <- app_assoc. simpl.
      do 2 f_equal; [f_equal; lia|].
      rewrite <- seq_shift, map_map. apply map_ext. intros k. lia.
  Qed.

Lemma bitset_set_spec b k i :
    0 <= k -> Z.testbit (bitset_set b k) i = Z.testbit b i || (i =? k).
  Proof.
    intros Hk. unfold bitset_set. rewrite Z.lor_spec. f_equal.
    rewrite Z.shiftl_1_l, Z.pow2_bits_eqb by exact Hk. apply Z.eqb_sym.
  Qed.

Lemma leaves_bs ts st i :
    0 <= idx st ->
    Z.testbit (bs (fold_left leaf ts st)) i = true <->
    Z.testbit (bs st) i = true \/
    exists k t, ts !! k = Some t /\ i = idx st + Z.of_nat k /\ f t = true.
  Proof.
    revert st. induction ts as [|t ts IH]; intros st Hidx; simpl.
    - split; [auto|]. intros [H|(k & t & H & _)]; [exact H|]. by destruct k.
    - rewrite IH by (simpl; lia). simpl. split.
      + intros [H|(k & t' & Hk & -> & Hf)].
        * destruct (f t) eqn:Hft; [|auto].
          rewrite bitset_set_spec in H by exact Hidx.
          apply orb_true_iff in H as [H|H]; [auto|].
          apply Z.eqb_eq in H. right. exists 0%nat, t. simpl. split; [done|]. split; [lia|done].
        * right. exists (S k), t'. simpl. split; [done|]. split; [lia|done].
      + intros [H|(k & t' & Hk & -> & Hf)].
        * left. destruct (f t); [|exact H].
          rewrite bitset_set_spec by exact Hidx. by rewrite H.
        * destruct k as [|k]; simpl in Hk.
          -- injection Hk as ->. left. rewrite Hf.
             rewrite bitset_set_spec by exact Hidx. apply orb_true_iff. right.
             apply Z.eqb_eq. lia.
          -- right. exists k, t'. split; [done|]. split; [lia|done].
  Qed.

Lemma leaves_calls_In ts st i t :
    In (i, t) (calls (fold_left leaf ts st)) <->
    In (i, t) (calls st) \/
    exists k, ts !! k = Some t /\ i = idx st + Z.of_nat k.
  Proof.
    revert st. induction ts as [|t' ts IH]; intros st; simpl.
    - split; [auto|]. intros [H|(k & H & _)]; [exact H|]. by destruct k.
    - rewrite IH. simpl. rewrite in_app_iff. simpl. split.
      + intros [[H|[H|[]]]|(k & Hk & ->)].
        * auto.
        * injection H as <- <-. right. exists 0%nat. split; [done|lia].
        * right. exists (S k). split; [done|lia].
      + intros [H|(k & Hk & ->)]; [auto|].
        destruct k as [|k]; simpl in Hk.
        * injection Hk as ->. left. right. left. f_equal. lia.
        * right. exists k. split; [done|lia].
  Qed.
End BuildMaskProofs.

Section LexTuples.
Import Lex.
Local Open Scope Z_scope.

Lemma length_flat_map_const {A B : Type} (g : A -> list B) (xs : list A) (k : nat) :
    (forall x, length (g x) = k) -> length (flat_map g xs) = (length xs * k)%nat.
  Proof.
    intros Hg. induction xs as [|x xs IH]; simpl; [reflexivity|].
    rewrite length_app, Hg, IH. reflexivity.
  Qed.

Lemma lex_tuples_length (n : nat) (p : Z) :
    length (lex_tuples n p) = (Z.to_nat p ^ n)%nat.
  Proof.
    induction n as [|n IH]; simpl; [reflexivity|].
    rewrite (length_flat_map_const _ _ (Z.to_nat p ^ n)%nat).
    - by rewrite range_length.
    - intros v. by rewrite length_map.
  Qed.

Lemma lex_tuples_length_Z (dim p : Z) :
    0 <= p -> 0 <= dim ->
    Z.of_nat (length (lex_tuples (Z.to_nat dim) p)) = p ^ dim.
  Proof.
    intros Hp Hdim. rewrite lex_tuples_length, Nat2Z.inj_pow, !Z2Nat.id by lia.
    reflexivity.
  Qed.

Lemma lex_tuples_In (n : nat) (p : Z) (t : list Z) :
    In t (lex_tuples n p) <->
    length t = n /\ Forall (fun x => 0 <= x < p) t.
  Proof.
    revert t. induction n as [|n IH]; intros t; simpl.
    - split.
      + intros [<-|[]]. split; [reflexivity | constructor].
      + intros [Hlen _]. left. symmetry. by apply nil_length_inv.
    - rewrite in_flat_map. split.
      + intros (v & Hv & Ht). apply in_map_iff in Ht as (t' & <- & Ht').
        apply IH in Ht' as [Hlen Hall]. apply range_In in Hv.
        split; [simpl; by rewrite Hlen | by constructor].
      + intros [Hlen Hall]. destruct t as [|v t']; [discriminate|].
        apply Forall_cons in Hall as [Hv Hall]. exists v. split.
        * by apply range_In.
        * apply in_map. apply IH. split; [simpl in Hlen; lia | exact Hall].
  Qed.

Lemma StronglySorted_app {A : Type} (R : A -> A -> Prop) (l1 l2 : list A) :
    StronglySorted R l1 -> StronglySorted R l2 ->
    (forall x y, In x l1 -> In y l2 -> R x y) ->
    StronglySorted R (l1 ++ l2).
  Proof.
    intros H1 H2 H12. induction H1 as [|x l1 H1 IH Hx]; simpl; [exact H2|].
    constructor.
    - apply IH. intros a b Ha Hb. apply H12; [by right | exact Hb].
    - apply Forall_forall. intros y Hy. apply list_elem_of_In in Hy.
      apply in_app_iff in Hy as [Hy|Hy].
      + rewrite Forall_forall in Hx. apply Hx. by apply list_elem_of_In.
      + apply H12; [by left | exact Hy].
  Qed.

Lemma StronglySorted_map_cons (v : Z) (ts : list (list Z)) :
    StronglySorted lex_lt ts -> StronglySorted lex_lt (map (cons v) ts).
  Proof.
    induction 1 as [|t ts Hts IH Ht]; simpl; constructor; [exact IH|].
    apply Forall_forall. intros y Hy. apply list_elem_of_In in Hy.
    apply in_map_iff in Hy as (t' & <- & Ht').
    apply lex_lt_tail. rewrite Forall_forall in Ht. apply Ht.
    by apply list_elem_of_In.
  Qed.

Lemma lex_tuples_sorted (n : nat) (p : Z) :
    StronglySorted lex_lt (lex_tuples n p).
  Proof.
    induction n as [|n IH]; simpl.
    - repeat constructor.
    - pose proof (range_sorted p) as Hr.
      induction Hr as [|v vs Hvs IHvs Hv]; simpl; [constructor|].
      apply StronglySorted_app; [by apply StronglySorted_map_cons | exact IHvs |].
      intros x y Hx Hy. apply in_map_iff in Hx as (t & <- & _).
      apply in_flat_map in Hy as (w & Hw & Hy).
      apply in_map_iff in Hy as (t' & <- & _).
      apply lex_lt_head. rewrite Forall_forall in Hv. apply Hv.
      by apply list_elem_of_In.
  Qed.

Lemma lex_lt_irrefl (t : list Z) : ~ lex_lt t t.
  Proof.
    induction t as [|x t IH]; intros H; inversion H; subst; [lia | auto].
  Qed.

Lemma StronglySorted_NoDup {A : Type} (R : A -> A -> Prop) (l : list A) :
    (forall x, ~ R x x) -> StronglySorted R l -> NoDup l.
  Proof.
    intros Hirr. induction 1 as [|x l Hl IH Hx]; constructor; [|exact IH].
    intros Hin. rewrite Forall_forall in Hx. exact (Hirr x (Hx x Hin)).
  Qed.
End LexTuples.

Section BuildMaskTheorem.
Import Fardbits Lex.
Local Open Scope Z_scope.

Lemma build_mask_frame_enumerates (dim p : Z) (f : list Z -> bool) :
    1 <= p -> 0 <= dim ->
    exists st,
      build_mask_frame dim p (fun x => Ok (f x)) = Ok st /\ enumerates dim p f st.
  Proof.
    intros Hp Hdim. unfold build_mask_frame, pow_check.
    replace (p =? 0) with false by (symmetry; apply Z.eqb_neq; lia).
    cbv beta iota delta [bind andb].
    set (st0 := {| bs := bitset_new (p ^ dim); idx := 0;
                   coords := repeat 0 (Z.to_nat dim); calls := [] |}).
    destruct (rec_spec dim p f (Z.to_nat dim) (S (Z.to_nat dim)) 0 st0)
      as (cs & Hrec & _ & _); [lia | lia | lia | apply repeat_length |].
    rewrite Hrec. eexists. split; [reflexivity|].
    change (take (Z.to_nat 0) (coords st0)) with (@nil Z).
    rewrite (map_ext _ id), map_id by reflexivity.
    set (ts := lex_tuples (Z.to_nat dim) p).
    assert (Hlen : Z.of_nat (length ts) = p ^ dim)
      by (apply lex_tuples_length_Z; lia).
    assert (Hsnd : map snd (calls (fold_left (leaf f) ts st0)) = ts)
      by (rewrite leaves_calls_snd; reflexivity).
    unfold enumerates. simpl calls. simpl idx. simpl bs. rewrite Hsnd.
    repeat split.
    - rewrite leaves_calls_fst. simpl. unfold range. rewrite <- Hlen, Nat2Z.id.
      apply map_ext. intros k. lia.
    - rewrite leaves_idx. simpl. lia.
    - apply lex_tuples_sorted.
    - apply (StronglySorted_NoDup lex_lt); [apply lex_lt_irrefl | apply lex_tuples_sorted].
    - by apply lex_tuples_In in H as [? ?].
    - by apply lex_tuples_In in H as [? ?].
    - by apply lex_tuples_In.
    - intros Hbit. apply leaves_bs in Hbit; [|simpl; lia].
      destruct Hbit as [Hbit|(k & t & Hk & -> & Hf)].
      + simpl in Hbit. unfold bitset_new in Hbit. by rewrite Z.bits_0 in Hbit.
      + exists t. split; [|exact Hf]. apply leaves_calls_In. right. eauto.
    - intros (t & Hin & Hf). apply leaves_calls_In in Hin as [[]|(k & Hk & ->)].
      apply leaves_bs; [simpl; lia|]. right. eauto.
  Qed.

Lemma compile_step_prefix (steps : list Parser.Step) (bc : list Ir.Instr) :
    exists tail, fold_left Compiler.compile_step steps bc = bc ++ tail.
  Proof.
    revert bc. induction steps as [|st steps IH]; intros bc; simpl.
    - exists []. by rewrite app_nil_r.
    - unfold Compiler.compile_step at 2.
      repeat match goal with |- context [if ?b then _ else _] => destruct b end;
        match goal with |- exists _, fold_left _ _ ?bc' = _ =>
          destruct (IH bc') as [tail ->] end;
        rewrite <- ?app_assoc; eauto.
  Qed.

Definition first_is_zero (i : Z) : bool :=
    match lex_tuples 3 3 !! Z.to_nat i with
    | Some (0 :: _) => true
    | _ => false
    end.

Lemma first_is_zero_spec (i : Z) :
    first_is_zero i = true <->
    exists t, lex_tuples 3 3 !! Z.to_nat i = Some t /\ t !! 0%nat = Some 0.
  Proof.
    unfold first_is_zero. destruct (lex_tuples 3 3 !! Z.to_nat i) as [t|].
    - split.
      + destruct t as [|[] ?]; try discriminate. eauto.
      + intros (t' & [= <-] & Ht). destruct t as [|? ?]; [discriminate|].
        injection Ht as ->. reflexivity.
    - split; [discriminate|]. by intros (t & ? & _).
  Qed.

Lemma build_mask_x1_eq_0 :
    build_mask 3 3 (fun x => xa <- py_getitem x 0 ;; Ok (xa =? 0)) = Ok 511.
  Proof. vm_compute. reflexivity. Qed.

Lemma mask_511_bits (i : Z) :
    Z.testbit 511 i = true <-> 0 <= i < 27 /\ first_is_zero i = true.
  Proof.
    change 511 with (Z.ones 9). rewrite Z.ones_spec_iff by lia.
    assert (Hall : forallb (fun k => Bool.eqb (k <? 9) (first_is_zero k)) (range 27) = true)
      by (vm_compute; reflexivity).
    rewrite forallb_forall in Hall. split.
    - intros Hi. split; [lia|]. specialize (Hall i). rewrite range_In in Hall.
      specialize (Hall ltac:(lia)). apply Bool.eqb_prop in Hall. rewrite <- Hall.
      apply Z.ltb_lt. lia.
    - intros [Hi Hz]. specialize (Hall i). rewrite range_In in Hall.
      specialize (Hall Hi). apply Bool.eqb_prop in Hall. rewrite <- Hall in Hz.
      apply Z.ltb_lt in Hz. lia.
  Qed.

Lemma vmask_x1_eq_0 (steps : list Parser.Step) :
    exists bc,
      Compiler.compile_to_ir (x1_eq_0_over_f3_3 steps) = Ok bc /\
      vmask_first_coordinate_zero bc.
  Proof.
    unfold Compiler.compile_to_ir, x1_eq_0_over_f3_3.
    cbn [Parser.p Parser.dim Parser.psi Parser.val Parser.val_args Parser.steps].
    rewrite build_mask_x1_eq_0. cbv beta iota delta [bind].
    match goal with |- context [fold_left _ _ ?bc] =>
      destruct (compile_step_prefix steps bc) as [tail ->] end.
    eexists. split; [reflexivity|]. exists 511.
    split; [reflexivity|]. split; [reflexivity|]. split; [by vm_compute|].
    intros i. rewrite mask_511_bits, first_is_zero_spec. reflexivity.
  Qed.
End BuildMaskTheorem.

(** C6. For every [p >= 2], [dim >= 1] and predicate [f] on tuples,
    [build_mask(dim, p, f)] returns; on the way it calls [f] on each of the
    [p^dim] tuples of digits below [p] exactly once, in lexicographic order,
    while [idx] runs through [0 .. p^dim - 1]; bit [i] of the result is set
    exactly when [f] holds of the tuple visited at index [i].  In
    particular, compiling the validator [x1 = 0] over [f3^3] yields a
    [VMASK] whose set bits are the 9 indices, out of 27, of the tuples whose
    first coordinate is 0. *)
Theorem C6_build_mask_enumerates_lattice (dim p : Z) (f : list Z -> bool) :
  (2 <= p)%Z -> (1 <= dim)%Z ->
  (exists st,
     Fardbits.build_mask_frame dim p (fun x => Ok (f x)) = Ok st /\
     Fardbits.build_mask dim p (fun x => Ok (f x)) = Ok (Fardbits.bs st) /\
     Lex.enumerates dim p f st) /\
  (forall steps, exists bc,
     Compiler.compile_to_ir (Lex.x1_eq_0_over_f3_3 steps) = Ok bc /\
     Lex.vmask_first_coordinate_zero bc).
Proof.
  intros Hp Hdim. split.
  - destruct (build_mask_frame_enumerates dim p f) as (st & Hst & Henum); [lia | lia |].
    exists st. split; [exact Hst|]. split; [|exact Henum].
    unfold Fardbits.build_mask. rewrite Hst. reflexivity.
  - apply vmask_x1_eq_0.
Qed.

(** The theorem at [dim = 2], [p = 2] and the predicate "the coordinates
    are equal". *)
Lemma C6_build_mask_witness :
  exists st,
    Fardbits.build_mask_frame 2 2 (fun x => Ok (bool_decide (x !! 0%nat = x !! 1%nat))) = Ok st /\
    Fardbits.build_mask 2 2 (fun x => Ok (bool_decide (x !! 0%nat = x !! 1%nat))) = Ok (Fardbits.bs st) /\
    Lex.enumerates 2 2 (fun x => bool_decide (x !! 0%nat = x !! 1%nat)) st.
Proof.
  apply (C6_build_mask_enumerates_lattice 2 2
           (fun x => bool_decide (x !! 0%nat = x !! 1%nat))); lia.
Defined.

(** ** The evaluator and its environment *)

Section NodeInduction.
Import MiniCC.

(** Induction on nodes, with the hypothesis available for every child. *)
Fixpoint ZNode_ind' (P : ZNode -> Prop)
    (step : forall op args meta, Forall P args -> P (Node op args meta))
    (n : ZNode) : P n :=
  match n with
  | Node op args meta =>
    step op args meta
      ((fix all (l : list ZNode) : Forall P l :=
          match l with
          | [] => @List.Forall_nil _ P
          | x :: l' => @List.Forall_cons _ P x l' (ZNode_ind' P step x) (all l')
          end) args)
  end.
End NodeInduction.

Section RuntimeProofs.
Import MiniCC.

Variable value : Type.
Variable vint : Z -> value.
Variable is_None : value -> bool.
Variables py_add py_mul py_call : value -> value -> res value.

Abbreviation eval' := (eval value vint is_None py_add py_mul py_call).
Abbreviation shrinks' := (Env.shrinks value is_None).

Lemma shrinks_refl (E : gmap string value) : shrinks' E E.
Proof. split; auto. Qed.

Lemma shrinks_trans (E1 E2 E3 : gmap string value) :
  shrinks' E1 E2 -> shrinks' E2 E3 -> shrinks' E1 E3.
Proof. intros [H1 H1'] [H2 H2']. split; eauto. Qed.

(** Binding [name], running something that only shrinks the environment, and
    then restoring [name] the way the [finally] clause does, shrinks the
    environment that was there before the binding. *)
Lemma shrinks_restore (E E3 : gmap string value) (name : string) (val : value)
    (r : res value) :
  shrinks' (<[name := val]> E) E3 ->
  shrinks' E
    (snd (try_finally value (fun env => (r, env))
            (if old_is_None value is_None (E !! name) then env_del value name
             else match E !! name with
                  | Some v => env_set value name v
                  | None => ret value tt
                  end) E3)).
Proof.
  intros [Hsub Hkeep]. unfold try_finally, old_is_None.
  destruct (E !! name) as [old|] eqn:Hold.
  - destruct (is_None old) eqn:Hnone.
    + unfold env_del. destruct (E3 !! name) as [cur|] eqn:Hcur; simpl.
      * split.
        -- intros k v Hk. destruct (decide (k = name)) as [->|Hne].
           ++ by rewrite lookup_delete_eq in Hk.
           ++ rewrite lookup_delete_ne in Hk by done.
              apply Hsub in Hk. by rewrite lookup_insert_ne in Hk.
        -- intros k v Hk Hv. destruct (decide (k = name)) as [->|Hne].
           ++ congruence.
           ++ rewrite lookup_delete_ne by done. apply Hkeep; [|done].
              by rewrite lookup_insert_ne.
      * split.
        -- intros k v Hk. destruct (decide (k = name)) as [->|Hne]; [congruence|].
           apply Hsub in Hk. by rewrite lookup_insert_ne in Hk.
        -- intros k v Hk Hv. destruct (decide (k = name)) as [->|Hne]; [congruence|].
           apply Hkeep; [|done]. by rewrite lookup_insert_ne.
    + unfold env_set. simpl. split.
      * intros k v Hk. destruct (decide (k = name)) as [->|Hne].
        -- rewrite lookup_insert_eq in Hk. congruence.
        -- rewrite lookup_insert_ne in Hk by done.
           apply Hsub in Hk. by rewrite lookup_insert_ne in Hk.
      * intros k v Hk Hv. destruct (decide (k = name)) as [->|Hne].
        -- rewrite lookup_insert_eq. congruence.
        -- rewrite lookup_insert_ne by done. apply Hkeep; [|done].
           by rewrite lookup_insert_ne.
  - unfold env_del. destruct (E3 !! name) as [cur|] eqn:Hcur; simpl.
    + split.
      * intros k v Hk. destruct (decide (k = name)) as [->|Hne].
        -- by rewrite lookup_delete_eq in Hk.
        -- rewrite lookup_delete_ne in Hk by done.
           apply Hsub in Hk. by rewrite lookup_insert_ne in Hk.
      * intros k v Hk Hv. destruct (decide (k = name)) as [->|Hne]; [congruence|].
        rewrite lookup_delete_ne by done. apply Hkeep; [|done].
        by rewrite lookup_insert_ne.
    + split.
      * intros k v Hk. destruct (decide (k = name)) as [->|Hne]; [congruence|].
        apply Hsub in Hk. by rewrite lookup_insert_ne in Hk.
      * intros k v Hk Hv. destruct (decide (k = name)) as [->|Hne]; [congruence|].
        apply Hkeep; [|done]. by rewrite lookup_insert_ne.
Qed.

Lemma try_finally_run {A : Type} (body : M value A) (handler : M value unit)
    (E E3 : gmap string value) (r : res A) :
  body E = (r, E3) ->
  try_finally value body handler E =
  try_finally value (fun env => (r, env)) handler E3.
Proof. intros H. unfold try_finally. rewrite H. reflexivity. Qed.

(** The shape shared by [ADD], [MUL] and [APPLY]. *)
Lemma binary_shrinks (g : value -> value -> res value) (args : list ZNode)
    (E : gmap string value) :
  Forall (fun n => forall E, shrinks' E (snd (eval' n E))) args ->
  shrinks' E
    (snd (match args with
          | [] => raise value IndexError
          | a0 :: rest =>
            bindM value (eval' a0) (fun x =>
              match rest with
              | [] => raise value IndexError
              | a1 :: _ => bindM value (eval' a1) (fun y => lift value (g x y))
              end)
          end E)).
Proof.
  intros Hargs. destruct args as [|a0 rest]; [apply shrinks_refl|].
  apply Forall_cons in Hargs as [H0 Hrest]. unfold bindM at 1.
  specialize (H0 E). destruct (eval' a0 E) as [[x|e] E1]; [|exact H0].
  destruct rest as [|a1 rest]; [exact H0|].
  apply Forall_cons in Hrest as [H1 _]. unfold bindM.
  specialize (H1 E1). destruct (eval' a1 E1) as [[y|e] E2];
    simpl in *; eapply shrinks_trans; eauto.
Qed.

(** Evaluation never adds a binding and never loses or changes a binding to
    a value other than [None]. *)
Lemma eval_shrinks (n : ZNode) :
  forall E, shrinks' E (snd (eval' n E)).
Proof.
  induction n as [op args meta IH] using ZNode_ind'. intros E.
  destruct op; simpl eval.
  - unfold bindM, lift, meta_get. destruct (m_value meta); apply shrinks_refl.
  - unfold bindM, lift, meta_get, env_get.
    destruct (m_name meta) as [name|]; [|apply shrinks_refl].
    destruct (E !! name); apply shrinks_refl.
  - by apply binary_shrinks.
  - by apply binary_shrinks.
  - by apply binary_shrinks.
  - unfold bindM at 1. unfold lift, meta_get.
    destruct (m_name meta) as [name|]; [|apply shrinks_refl].
    destruct args as [|a0 rest]; [apply shrinks_refl|].
    apply Forall_cons in IH as [H0 Hrest]. unfold bindM at 1.
    specialize (H0 E). destruct (eval' a0 E) as [[val|e] E1]; [|exact H0].
    unfold bindM, env_get, env_set.
    eapply shrinks_trans; [exact H0|].
    match goal with |- context [try_finally _ ?body ?h ?E2] =>
      destruct (body E2) as [r E3] eqn:Hbody;
      rewrite (try_finally_run body h E2 E3 r Hbody) end.
    apply (shrinks_restore E1 E3 name val r).
    destruct rest as [|a1 rest].
    + injection Hbody as <- <-. apply shrinks_refl.
    + apply Forall_cons in Hrest as [H1 _]. specialize (H1 (<[name:=val]> E1)).
      rewrite Hbody in H1. exact H1.
Qed.

(** In an environment without [None], evaluation restores every binding. *)
Lemma shrinks_None_free (E E' : gmap string value) :
  Env.None_free value is_None E -> shrinks' E E' -> E' = E.
Proof.
  intros Hfree [Hsub Hkeep]. apply map_eq. intros k.
  destruct (E !! k) as [v|] eqn:Hk.
  - apply Hkeep; [exact Hk | by apply (Hfree k)].
  - destruct (E' !! k) as [v|] eqn:Hk'; [|reflexivity].
    apply Hsub in Hk'. congruence.
Qed.

(** C9. Whatever the values are and however they add, multiply and call,
    evaluating a node in an environment where no name is bound to [None]
    leaves exactly that environment behind, whether the evaluation returns
    or raises. *)
Theorem C9_eval_preserves_environment (n : ZNode) (E : gmap string value) :
  Env.None_free value is_None E ->
  snd (eval' n E) = E.
Proof.
  intros Hfree. apply shrinks_None_free; [exact Hfree | apply eval_shrinks].
Qed.

(** For a [let] in particular: a name that was absent is absent afterwards,
    and a name bound to a value other than [None] is bound to it again. *)
Lemma let_restores (name : string) (args : list ZNode) (E : gmap string value) :
  let E' := snd (eval' (Node LET args (meta_name name)) E) in
  (E !! name = None -> E' !! name = None) /\
  (forall v, E !! name = Some v -> is_None v = false -> E' !! name = Some v).
Proof.
  intros E'. destruct (eval_shrinks (Node LET args (meta_name name)) E) as [Hsub Hkeep].
  fold E' in Hsub, Hkeep. split.
  - intros Habs. destruct (E' !! name) as [v|] eqn:Hv; [|reflexivity].
    apply Hsub in Hv. congruence.
  - intros v Hv Hnone. by apply Hkeep.
Qed.
End RuntimeProofs.

(** The theorem over the concrete values, at the environment
    [{x: 1, add1: add1}] and the node [let x -> add1(x) in x * y], whose
    evaluation raises because [y] is unbound. *)
Lemma C9_eval_preserves_environment_witness :
  let E : gmap string MiniCC.value :=
    <["x" := MiniCC.VInt 1]> {["add1" := MiniCC.VFn MiniCC.Fadd1]} in
  let n :=
    MiniCC.Node MiniCC.LET
      [ MiniCC.Node MiniCC.APPLY
          [ MiniCC.Node MiniCC.VAR [] (MiniCC.meta_name "add1");
            MiniCC.Node MiniCC.VAR [] (MiniCC.meta_name "x") ] MiniCC.no_meta;
        MiniCC.Node MiniCC.MUL
          [ MiniCC.Node MiniCC.VAR [] (MiniCC.meta_name "x");
            MiniCC.Node MiniCC.VAR [] (MiniCC.meta_name "y") ] MiniCC.no_meta ]
      (MiniCC.meta_name "x") in
  Env.None_free MiniCC.value MiniCC.is_None E /\
  snd (MiniCC.run n E) = E.
Proof.
  intros E n.
  assert (Hfree : Env.None_free MiniCC.value MiniCC.is_None E).
  { intros k v Hk. unfold E in Hk.
    destruct (decide (k = "x")) as [->|Hx].
    - rewrite lookup_insert_eq in Hk. by injection Hk as <-.
    - rewrite lookup_insert_ne in Hk by done.
      apply lookup_singleton_Some in Hk as [_ <-]. reflexivity. }
  split; [exact Hfree|].
  exact (C9_eval_preserves_environment MiniCC.value MiniCC.VInt MiniCC.is_None
           MiniCC.py_add MiniCC.py_mul MiniCC.py_call n E Hfree).
Defined.

(** C4. The environment [{x: None}] and the node [let x -> 1 in x]: the
    evaluation returns 1, and [x], which was bound (to [None]) before the
    [let], is absent afterwards. *)
Theorem C4_let_deletes_name_bound_to_None :
  let E : gmap string MiniCC.value := {["x" := MiniCC.VNone]} in
  let n :=
    MiniCC.Node MiniCC.LET
      [ MiniCC.Node MiniCC.INT [] (MiniCC.meta_value 1);
        MiniCC.Node MiniCC.VAR [] (MiniCC.meta_name "x") ]
      (MiniCC.meta_name "x") in
  E !! "x" = Some MiniCC.VNone /\
  fst (MiniCC.run n E) = Ok (MiniCC.VInt 1) /\
  snd (MiniCC.run n E) !! "x" = None.
Proof. vm_compute. repeat split. Qed.

(** C2. The source [x = n], [x = 5], [x] and the environment [{n: None}]:
    [PyToZ] accepts the module; the unpacked text is that same module, which
    evaluates to 5; evaluating the AST raises [KeyError], from the [del] in
    the [finally] clause of the outer [let]. *)
Theorem C2_unpacked_text_and_ast_disagree :
  let m : PyAst.module :=
    [ PyAst.Assign [PyAst.Name "x"] (PyAst.Name "n");
      PyAst.Assign [PyAst.Name "x"] (PyAst.Constant (PyAst.CInt 5));
      PyAst.Expr (PyAst.Name "x") ] in
  let E : gmap string MiniCC.value := {["n" := MiniCC.VNone]} in
  exists z,
    CollapsePack.visit_Module m = Ok z /\
    CollapseUnpack.z_to_py z = Ok (["x = n"; "x = 5"], "x") /\
    map PyAst.show_stmt m = ["x = n"; "x = 5"; "x"] /\
    PyAst.exec_module MiniCC.value MiniCC.VInt MiniCC.py_add MiniCC.py_mul
      MiniCC.py_call E m = Ok (MiniCC.VInt 5) /\
    fst (MiniCC.run z E) = Raise (KeyError "x").
Proof. eexists. vm_compute. repeat split. Qed.

(** ** The classification of step lines *)

Section ParserProofs.
Import Parser Markers.

Variables (isspace : N -> bool)
          (str_lower : ustr -> ustr)
          (py_int : ustr -> res Z)
          (_val_re_search : ustr -> option (ustr * ustr)).

Abbreviation classify' := (classify str_lower).
Abbreviation parse' := (parse_minimal isspace str_lower py_int _val_re_search).

Lemma classify_acc (steps : list Step) (ln : ustr) :
  classify' steps ln = steps ++ classify' [] ln.
Proof.
  unfold classify.
  repeat match goal with |- context [if ?b then _ else _] => destruct b end;
    simpl; rewrite ?app_nil_r; reflexivity.
Qed.

Lemma classify_fold (rest : list ustr) (steps : list Step) :
  fold_left classify' rest steps = steps ++ concat (map (classify' []) rest).
Proof.
  revert steps. induction rest as [|ln rest IH]; intros steps; simpl.
  - by rewrite app_nil_r.
  - rewrite IH, classify_acc, app_assoc. reflexivity.
Qed.

Lemma classify_outcome (ln : ustr) : outcome (str_lower ln) (classify' [] ln).
Proof.
  unfold outcome, classify, gradient, projection, turnstile.
  destruct (contains [8711%N; 108%N] (str_lower ln) || contains (u "grad") (str_lower ln));
    [|destruct (contains (u "p_v") (str_lower ln));
       [|destruct (contains [8866%N] (str_lower ln) || contains (u "vdash") (str_lower ln))]];
    simpl; repeat split; intros; try discriminate; try reflexivity; lia.
Qed.

(** A successful parse decomposes the text into two header lines and the
    lines that are classified. *)
Lemma parse_minimal_Ok (canon_text : ustr) (prog : Program) :
  parse' canon_text = Ok prog ->
  exists line0 line1 rest,
    lines canon_text = line0 :: line1 :: rest /\
    steps prog = fold_left classify' rest [].
Proof.
  unfold parse_minimal. fold (lines canon_text).
  destruct (lines canon_text) as [|line0 [|line1 rest]]; simpl; try discriminate.
  intros H. exists line0, line1, rest. split; [reflexivity|].
  repeat match type of H with
         | (if ?b then _ else _) = Ok _ => destruct b; [discriminate|]
         | bind ?m _ = Ok _ => apply bind_Ok in H as (? & _ & H)
         | match ?x with _ => _ end = Ok _ => destruct x; try discriminate
         end.
  by injection H as <-.
Qed.

(** Whether the parse fails is decided by the first two lines. *)
Lemma parse_minimal_header (text text' : ustr) (line0 line1 : ustr)
    (rest rest' : list ustr) :
  lines text = line0 :: line1 :: rest ->
  lines text' = line0 :: line1 :: rest' ->
  is_ok (parse' text) = is_ok (parse' text').
Proof.
  intros H H'. unfold parse_minimal. fold (lines text) (lines text').
  rewrite H, H'. simpl.
  repeat match goal with
         | |- is_ok (if ?b then _ else _) = _ => destruct b; [reflexivity|]
         | |- is_ok (bind ?m _) = _ => destruct m; simpl; [|reflexivity]
         | |- is_ok (match ?x with _ => _ end) = _ => destruct x; try reflexivity
         end.
  reflexivity.
Qed.

(** C10. When [parse_minimal] returns a program, its steps are the
    concatenation, line by line, of what the lines after the second
    contribute; each such line contributes at most one step, decided on the
    lowercased line with the precedence gradient, projection, turnstile, and
    a line without marker contributes nothing.  The remaining lines cannot
    make the parse fail: a text with the same first two lines parses too. *)
Theorem C10_step_classification (canon_text : ustr) (prog : Program) :
  parse' canon_text = Ok prog ->
  (exists outs,
     steps prog = concat outs /\
     Forall2 (fun ln out => outcome (str_lower ln) out)
             (drop 2 (lines canon_text)) outs) /\
  (forall text', take 2 (lines text') = take 2 (lines canon_text) ->
     (2 <= length (lines text'))%nat ->
     exists prog', parse' text' = Ok prog').
Proof.
  intros Hparse.
  destruct (parse_minimal_Ok canon_text prog Hparse) as (l0 & l1 & rest & Hlines & Hsteps).
  split.
  - exists (map (classify' []) rest). split.
    + rewrite Hsteps, classify_fold. reflexivity.
    + rewrite Hlines. simpl. clear. induction rest as [|ln rest IH]; simpl; constructor.
      * apply classify_outcome.
      * exact IH.
  - intros text' Htake Hlen. rewrite Hlines in Htake. simpl in Htake.
    destruct (lines text') as [|l0' [|l1' rest']] eqn:Hlines'; simpl in Hlen; try lia.
    simpl in Htake. injection Htake as -> ->.
    pose proof (parse_minimal_header text' canon_text l0 l1 rest' rest Hlines' Hlines) as Hok.
    rewrite Hparse in Hok. simpl in Hok.
    destruct (parse' text') as [prog'|e]; [eauto | discriminate].
Qed.
End ParserProofs.


(** The theorem at the end-to-end example of the specification, with the
    string library of ASCII text: the lines [project] and [goal] carry no
    marker, so [grad] is the only step. *)
Lemma C10_step_classification_witness :
  let prog :=
    {| Parser.psi := {| Parser.p := 3; Parser.dim := 3 |};
       Parser.val := {| Parser.kind := "x_eq_const"; Parser.val_args := (0%Z, 0%Z) |};
       Parser.steps := [Markers.grad_step] |} in
  AsciiText.parse_minimal AsciiText.example_source = Ok prog /\
  exists outs,
    Parser.steps prog = concat outs /\
    Forall2 (fun ln out => Markers.outcome (AsciiText.str_lower ln) out)
            (drop 2 (Markers.lines AsciiText.example_source)) outs.
Proof.
  intros prog.
  assert (H : AsciiText.parse_minimal AsciiText.example_source = Ok prog)
    by (vm_compute; reflexivity).
  split; [exact H|].
  exact (proj1 (C10_step_classification AsciiText.isspace AsciiText.str_lower
                  AsciiText.py_int AsciiText._val_re_search
                  AsciiText.example_source prog H)).
Defined.

(** ** The text listing *)

Section ListingProofs.
Import Ir Asm Listing.
Local Open Scope string_scope.

Variable repr_float : spec_float -> string.

Lemma str_of_int_nonempty (z : Z) : (1 <= String.length (str_of_int z))%nat.
Proof.
  unfold str_of_int, DecimalString.NilZero.string_of_int,
    DecimalString.NilZero.string_of_uint.
  destruct (Z.to_int z) as [d|d]; destruct d; simpl; lia.
Qed.

Lemma fmt_02d_length (k : nat) : (2 <= String.length (fmt_02d k))%nat.
Proof.
  unfold fmt_02d. pose proof (str_of_int_nonempty (Z.of_nat k)) as H.
  destruct (String.length (str_of_int (Z.of_nat k)) <? 2)%nat eqn:Hlt.
  - change (2 <= S (String.length (str_of_int (Z.of_nat k))))%nat. lia.
  - apply Nat.ltb_ge in Hlt. exact Hlt.
Qed.

Lemma fmt_02d_two_digits (k : nat) :
  (k < 100)%nat -> String.length (fmt_02d k) = 2%nat.
Proof.
  intros Hk.
  assert (Hall : forallb (fun j => (String.length (fmt_02d j) =? 2)%nat) (seq 0 100) = true)
    by (vm_compute; reflexivity).
  rewrite forallb_forall in Hall. apply Nat.eqb_eq, Hall, in_seq. lia.
Qed.

Lemma line_prefix (k : nat) (ins : Instr) (l : string) :
  line repr_float k ins = Ok l -> exists body, l = fmt_02d k ++ ": " ++ body.
Proof.
  unfold line.
  repeat match goal with |- context [if ?b then _ else _] => destruct b end;
    intros H; try apply bind_Ok in H as (d & _ & H); injection H as <-;
    eexists; f_equal; cbn [String.append]; reflexivity.
Qed.

Lemma lines_from_entries (bc : list Instr) :
  forall k out res,
    lines_from repr_float k bc out = Ok res ->
    exists new,
      res = (out ++ new)%list /\ length new = length bc /\
      forall j l, new !! j = Some l ->
        exists body, l = fmt_02d (k + j) ++ ": " ++ body.
Proof.
  induction bc as [|ins bc IH]; intros k out res H; simpl in H.
  - injection H as <-. exists []. rewrite app_nil_r. repeat split. by intros [].
  - apply bind_Ok in H as (l & Hl & H).
    apply IH in H as (new & -> & Hlen & Hnew).
    exists (l :: new). rewrite <- app_assoc. split; [reflexivity|].
    split; [simpl; by rewrite Hlen|].
    intros [|j] l' Hj; simpl in Hj.
    + injection Hj as <-. rewrite Nat.add_0_r. by apply line_prefix with ins.
    + replace (k + S j)%nat with (S k + j)%nat by lia. by apply Hnew.
Qed.

Lemma line_finite_b (k : nat) (ins : Instr) :
  finite_b ins -> exists l, line repr_float k ins = Ok l.
Proof.
  unfold finite_b, line. intros Hb.
  repeat match goal with |- context [if ?b then _ else _] => destruct b end;
    eauto.
  destruct (b ins) as [z|[s|s| |s m e]]; simpl; try contradiction; eauto.
Qed.

Lemma lines_from_total (bc : list Instr) :
  Forall finite_b bc ->
  forall k out, exists res, lines_from repr_float k bc out = Ok res.
Proof.
  induction 1 as [|ins bc Hins _ IH]; intros k out; simpl; [eauto|].
  destruct (line_finite_b k ins Hins) as [l ->]. simpl. apply IH.
Qed.

Lemma compile_step_finite_b (steps : list Parser.Step) (bc : list Instr) :
  Forall finite_b bc -> Forall finite_b (fold_left Compiler.compile_step steps bc).
Proof.
  revert bc. induction steps as [|st steps IH]; intros bc Hbc; simpl; [exact Hbc|].
  apply IH. unfold Compiler.compile_step.
  repeat match goal with |- context [if ?b then _ else _] => destruct b end;
    repeat (apply Forall_app; split); try exact Hbc;
    repeat constructor.
Qed.

Lemma compile_to_ir_finite_b (prog : Parser.Program) (bc : list Instr) :
  Compiler.compile_to_ir prog = Ok bc -> Forall finite_b bc.
Proof.
  unfold Compiler.compile_to_ir. destruct (Parser.val_args (Parser.val prog)) as [axis cval].
  intros H. apply bind_Ok in H as (vmask & _ & H). injection H as <-.
  apply compile_step_finite_b. repeat constructor.
Qed.

(** C3 (amended). Whenever [to_assembly] returns, its text is the join of
    one entry per instruction, in order, entry [k] beginning with [k] in
    decimal, zero-padded to at least two digits (exactly two below 100), and
    a colon.  It returns on everything that [compile_to_ir] produces.  For
    the source of the end-to-end example, canonicalizing, parsing and
    compiling yield five instructions, [INIT], [INIT], [SEED], [VMASK] and
    [GRAD], since the lines [project] and [goal] hold no marker, and the
    listing has five entries. *)
Theorem C3_listing_has_one_entry_per_instruction (bc : list Instr) (s : string) :
  to_assembly repr_float bc = Ok s ->
  (exists sep out, s = String.concat sep out /\ entries_of bc out) /\
  (forall k, (2 <= String.length (fmt_02d k))%nat /\
             ((k < 100)%nat -> String.length (fmt_02d k) = 2%nat)) /\
  (forall prog bc', Compiler.compile_to_ir prog = Ok bc' ->
                    exists s', to_assembly repr_float bc' = Ok s') /\
  (exists bc5,
     AsciiText.compile_source AsciiText.example_source = Ok bc5 /\
     map op bc5 = [OP_INIT; OP_INIT; OP_SEED; OP_VMASK; OP_GRAD] /\
     lines_from repr_float 0 bc5 [] =
       Ok [ "00: INIT p=3"; "01: INIT dim=3"; "02: SEED";
            "03: VMASK nbits=9 hex=0x1ff...";
            "04: GRAD eta=" ++ repr_float f_0_1 ]).
Proof.
  intros H. repeat split.
  - unfold to_assembly in H. apply bind_Ok in H as (out & Hout & H).
    injection H as <-. exists "\n", out. split; [reflexivity|].
    apply lines_from_entries in Hout as (new & -> & Hlen & Hnew).
    split; [exact Hlen | exact Hnew].
  - apply fmt_02d_length.
  - apply fmt_02d_two_digits.
  - intros prog bc' Hc. unfold to_assembly.
    destruct (lines_from_total bc' (compile_to_ir_finite_b prog bc' Hc) 0%nat [])
      as [out ->].
    simpl. eauto.
  - eexists. split; [vm_compute; reflexivity|]. split; vm_compute; reflexivity.
Qed.
End ListingProofs.

(** The theorem at the five instructions of the example, with a rendering
    of floats that prints [0.1] for the one float the listing shows. *)
Lemma C3_listing_witness :
  let bc :=
    [ {| Ir.op := 1; Ir.a := NFloat f_zero; Ir.b := NFloat f_zero;
         Ir.c := NFloat f_zero; Ir.i := 3 |};
      {| Ir.op := 1; Ir.a := NFloat f_zero; Ir.b := NInt 3;
         Ir.c := NFloat f_zero; Ir.i := 0 |};
      Ir.mk 2;
      {| Ir.op := 3; Ir.a := NFloat f_zero; Ir.b := NFloat f_zero;
         Ir.c := NFloat f_zero; Ir.i := 511 |};
      {| Ir.op := 4; Ir.a := NFloat f_1_0; Ir.b := NFloat f_1_0;
         Ir.c := NFloat f_0_1; Ir.i := 0 |} ] in
  let s := "00: INIT p=3\n01: INIT dim=3\n02: SEED\n03: VMASK nbits=9 hex=0x1ff...\n04: GRAD eta=0.1"%string in
  Asm.to_assembly (fun _ => "0.1"%string) bc = Ok s /\
  exists sep out, s = String.concat sep out /\ Listing.entries_of bc out.
Proof.
  intros bc s.
  assert (H : Asm.to_assembly (fun _ => "0.1"%string) bc = Ok s)
    by (vm_compute; reflexivity).
  split; [exact H|].
  exact (proj1 (C3_listing_has_one_entry_per_instruction
                  (fun _ => "0.1"%string) bc s H)).
Defined.

(** C3 as stated fails on the example.  From its source the pipeline
    produces five instructions, not eight.  Even the program that has all
    three steps, which compiles to eight instructions, is listed without a
    single line feed: the entries are joined by a backslash and an [n].
    And index 100 is printed with three digits. *)
Lemma C3_example_counterexample :
  (exists bc,
     AsciiText.compile_source AsciiText.example_source = Ok bc /\
     length bc = 5%nat /\
     Asm.to_assembly (fun _ => "0.1"%string) bc =
       Ok "00: INIT p=3\n01: INIT dim=3\n02: SEED\n03: VMASK nbits=9 hex=0x1ff...\n04: GRAD eta=0.1"%string) /\
  (exists bc s,
     Compiler.compile_to_ir Listing.three_steps = Ok bc /\
     length bc = 8%nat /\
     Asm.to_assembly (fun _ => "0.1"%string) bc = Ok s /\
     s = "00: INIT p=3\n01: INIT dim=3\n02: SEED\n03: VMASK nbits=9 hex=0x1ff...\n04: GRAD eta=0.1\n05: PROJ\n06: METRICS\n07: HALT"%string /\
     Listing.has_line_feed s = false) /\
  Asm.fmt_02d 100 = "100"%string.
Proof.
  split; [|split].
  - eexists. split; [vm_compute; reflexivity|]. split; vm_compute; reflexivity.
  - eexists. eexists. split; [vm_compute; reflexivity|].
    split; [reflexivity|]. split; [vm_compute; reflexivity|].
    split; vm_compute; reflexivity.
  - vm_compute. reflexivity.
Qed.

(** ** The binary form *)

Section BinaryProofs.
Import Ir Asm Struct Layout.
Local Open Scope Z_scope.

Lemma le_bytes_length (n : nat) (z : Z) : length (le_bytes n z) = n.
Proof. revert z. induction n as [|n IH]; intros z; simpl; [|rewrite IH]; reflexivity. Qed.

Lemma hexlify_app (x y : list byte) :
  hexlify (x ++ y) = (hexlify x ++ hexlify y)%string.
Proof. induction x as [|b x IH]; simpl; [|rewrite IH]; reflexivity. Qed.

Lemma hexlify_length (x : list byte) :
  String.length (hexlify x) = (2 * length x)%nat.
Proof. induction x as [|b x IH]; simpl; [|rewrite IH]; lia. Qed.

Lemma append_empty_r (s : string) : (s ++ "")%string = s.
Proof.
  induction s as [|ch s IH]; [reflexivity|].
  change (String ch (s ++ "") = String ch s)%string. by rewrite IH.
Qed.

Lemma concat_hexlify (recs : list (list byte)) :
  String.concat "" (map hexlify recs) = hexlify (concat recs).
Proof.
  induction recs as [|r recs IH]; [reflexivity|].
  simpl concat. rewrite hexlify_app, <- IH. simpl.
  destruct (map hexlify recs) as [|h hs]; simpl; [|reflexivity].
  symmetry. apply append_empty_r.
Qed.

Lemma uint_field_Ok (width : nat) (x : num) (z : Z) :
  uint_field width x = Ok z ->
  x = NInt z /\ 0 <= z < 2 ^ (8 * Z.of_nat width).
Proof.
  unfold uint_field. destruct x as [z'|f]; [|discriminate].
  destruct ((0 <=? z') && (z' <? 2 ^ (8 * Z.of_nat width))) eqn:Hr; [|discriminate].
  intros [= <-]. apply andb_true_iff in Hr as [H1 H2].
  apply Z.leb_le in H1. apply Z.ltb_lt in H2. auto.
Qed.

Lemma float32_bits_of_float (x : num) (f : spec_float) :
  py_float x = Ok f -> float32_bits (NFloat f) = float32_bits x.
Proof. intros H. unfold float32_bits. rewrite H. reflexivity. Qed.

Lemma fields_cons (big : bool) (code : ascii) (codes : string) (x : num)
    (args : list num) (r : list byte) :
  fields big (String code codes) (x :: args) = Ok r ->
  exists bs rest,
    field big code x = Ok bs /\ fields big codes args = Ok rest /\
    r = (bs ++ rest)%list.
Proof.
  cbn [fields]. intros H. apply bind_Ok in H as (bs & Hbs & H).
  apply bind_Ok in H as (rest & Hrest & [= <-]). eauto.
Qed.

Lemma field_uint (big : bool) (code : ascii) (width : nat) (x : num) (bs : list byte) :
  (code = "B"%char /\ width = 1%nat) \/ (code = "I"%char /\ width = 4%nat) \/
  (code = "Q"%char /\ width = 8%nat) ->
  field big code x = Ok bs ->
  exists z, x = NInt z /\ 0 <= z < 2 ^ (8 * Z.of_nat width) /\
            bs = if big then be_bytes width z else le_bytes width z.
Proof.
  intros Hc H. unfold field in H.
  destruct Hc as [[-> ->]|[[-> ->]|[-> ->]]]; cbn [Ascii.eqb Bool.eqb] in H;
    apply bind_Ok in H as (z & Hz & [= <-]);
    apply uint_field_Ok in Hz as [-> Hz]; eauto.
Qed.

Lemma field_float (big : bool) (x : num) (bs : list byte) :
  field big "f" x = Ok bs ->
  exists z, float32_bits x = Ok z /\
            bs = if big then be_bytes 4 z else le_bytes 4 z.
Proof.
  unfold field. cbn [Ascii.eqb Bool.eqb]. intros H.
  apply bind_Ok in H as (z & Hz & [= <-]). eauto.
Qed.

Lemma pack_BfffQ (o q : Z) (fa fb fc : spec_float) (rec : list byte) :
  pack "<BfffQ" [NInt o; NFloat fa; NFloat fb; NFloat fc; NInt q] = Ok rec ->
  exists za zb zc,
    float32_bits (NFloat fa) = Ok za /\ float32_bits (NFloat fb) = Ok zb /\
    float32_bits (NFloat fc) = Ok zc /\ 0 <= o < 256 /\ 0 <= q < 2 ^ 64 /\
    rec = (le_bytes 1 o ++ le_bytes 4 za ++ le_bytes 4 zb ++ le_bytes 4 zc ++
           le_bytes 8 q)%list.
Proof.
  unfold pack. intros H.
  apply fields_cons in H as (b1 & r1 & H1 & H & ->).
  apply fields_cons in H as (b2 & r2 & H2 & H & ->).
  apply fields_cons in H as (b3 & r3 & H3 & H & ->).
  apply fields_cons in H as (b4 & r4 & H4 & H & ->).
  apply fields_cons in H as (b5 & r5 & H5 & H & ->).
  cbn [fields] in H. injection H as <-.
  apply (field_uint _ _ 1%nat) in H1 as (z1 & [= <-] & Ho & ->); [|tauto].
  apply (field_uint _ _ 8%nat) in H5 as (z5 & [= <-] & Hq & ->); [|tauto].
  apply field_float in H2 as (za & Hza & ->).
  apply field_float in H3 as (zb & Hzb & ->).
  apply field_float in H4 as (zc & Hzc & ->).
  exists za, zb, zc. rewrite app_nil_r. repeat split; try assumption; lia.
Qed.

Lemma record_layout (ins : Instr) (rec : list byte) :
  record ins = Ok rec -> is_record ins rec /\ length rec = 21%nat.
Proof.
  unfold record. intros H.
  apply bind_Ok in H as (fa & Hfa & H). apply bind_Ok in H as (fb & Hfb & H).
  apply bind_Ok in H as (fc & Hfc & H).
  apply pack_BfffQ in H as (za & zb & zc & Hza & Hzb & Hzc & Ho & _ & ->).
  rewrite (float32_bits_of_float _ _ Hfa) in Hza.
  rewrite (float32_bits_of_float _ _ Hfb) in Hzb.
  rewrite (float32_bits_of_float _ _ Hfc) in Hzc.
  replace (Z.land (i ins) (Z.shiftl 1 64 - 1)) with (i ins mod 2 ^ 64)
    by (symmetry; apply (Z.land_ones (i ins) 64); lia).
  split.
  - exists za, zb, zc. auto.
  - rewrite !length_app, !le_bytes_length. reflexivity.
Qed.

Lemma chunks_from_records (bc : list Instr) :
  forall chunks res,
    chunks_from bc chunks = Ok res ->
    exists recs,
      Forall2 (fun ins rec => record ins = Ok rec) bc recs /\
      res = (chunks ++ map hexlify recs)%list.
Proof.
  induction bc as [|ins bc IH]; intros chunks res H; simpl in H.
  - injection H as <-. exists []. rewrite app_nil_r. split; [constructor | reflexivity].
  - apply bind_Ok in H as (blob & Hblob & H).
    apply IH in H as (recs & Hrecs & ->).
    exists (blob :: recs). split; [by constructor|].
    by rewrite <- app_assoc.
Qed.

Lemma chunks_from_total (bc : list Instr) :
  (forall ins, In ins bc -> exists rec, record ins = Ok rec) ->
  forall chunks, exists res, chunks_from bc chunks = Ok res.
Proof.
  induction bc as [|ins bc IH]; intros Hall chunks; simpl; [eauto|].
  destruct (Hall ins) as [rec ->]; [by left|]. simpl.
  apply IH. intros ins' Hin. apply Hall. by right.
Qed.

Lemma record_packable (ins : Instr) :
  packable ins = true -> exists rec, record ins = Ok rec.
Proof.
  unfold packable. rewrite !andb_true_iff.
  intros [[[[Ho1 Ho2] Ha] Hb] Hc].
  apply Z.leb_le in Ho1. apply Z.ltb_lt in Ho2.
  unfold record.
  unfold float32_bits in Ha, Hb, Hc.
  destruct (py_float (a ins)) as [fa|] eqn:Hfa; [|discriminate].
  destruct (py_float (b ins)) as [fb|] eqn:Hfb; [|discriminate].
  destruct (py_float (c ins)) as [fc|] eqn:Hfc; [|discriminate].
  cbn [bind] in *.
  unfold pack. cbn [fields]. unfold field. cbn [Ascii.eqb Bool.eqb].
  unfold uint_field at 1.
  replace ((0 <=? op ins) && (op ins <? 2 ^ (8 * Z.of_nat 1))) with true
    by (symmetry; apply andb_true_iff; split; [apply Z.leb_le | apply Z.ltb_lt]; lia).
  cbn [bind].
  unfold float32_bits. cbn [py_float bind].
  destruct (match fa with S754_finite _ _ _ => _ | _ => _ end) as [za|]; [|discriminate].
  destruct (match fb with S754_finite _ _ _ => _ | _ => _ end) as [zb|]; [|discriminate].
  destruct (match fc with S754_finite _ _ _ => _ | _ => _ end) as [zc|]; [|discriminate].
  cbn [bind]. unfold uint_field.
  replace (Z.land (i ins) (Z.shiftl 1 64 - 1)) with (i ins mod 2 ^ 64)
    by (symmetry; apply (Z.land_ones (i ins) 64); lia).
  pose proof (Z.mod_pos_bound (i ins) (2 ^ 64) ltac:(lia)) as Hq.
  replace ((0 <=? i ins mod 2 ^ 64) && (i ins mod 2 ^ 64 <? 2 ^ (8 * Z.of_nat 8))) with true
    by (symmetry; apply andb_true_iff; split; [apply Z.leb_le | apply Z.ltb_lt];
        change (2 ^ (8 * Z.of_nat 8)) with (2 ^ 64); lia).
  cbn [bind]. eauto.
Qed.

(** C1 (amended). The binary form is the hex encoding of the
    concatenation, without separators, of one record per instruction; each
    record has 21 bytes: the opcode as one byte, the operands [a], [b], [c]
    as little-endian binary32 values in that order, and the integer operand
    modulo [2^64] as eight little-endian bytes. *)
Theorem C1_to_bytes_records (bc : list Instr) (s : string) :
  to_bytes bc = Ok s ->
  exists recs,
    Forall2 is_record bc recs /\
    Forall (fun rec => length rec = 21%nat) recs /\
    s = hexlify (concat recs) /\
    String.length s = (42 * length bc)%nat.
Proof.
  unfold to_bytes. intros H. apply bind_Ok in H as (chunks & Hch & [= <-]).
  apply chunks_from_records in Hch as (recs & Hrecs & ->). simpl.
  exists recs.
  assert (Hlay : Forall2 (fun ins rec => is_record ins rec /\ length rec = 21%nat) bc recs).
  { induction Hrecs as [|ins rec bc recs Hrec _ IH]; constructor; [|exact IH].
    by apply record_layout. }
  assert (Hlen : length (concat recs) = (21 * length bc)%nat).
  { clear Hrecs. induction Hlay as [|ins rec bc recs [_ Hrec] _ IH]; [reflexivity|].
    simpl. rewrite length_app, Hrec, IH. lia. }
  split; [|split; [|split]].
  - clear Hrecs Hlen. induction Hlay as [|ins rec bc recs [Hrec _] _ IH]; constructor; auto.
  - clear Hrecs Hlen. induction Hlay as [|ins rec bc recs [_ Hrec] _ IH]; constructor; auto.
  - apply concat_hexlify.
  - rewrite concat_hexlify, hexlify_length, Hlen. lia.
Qed.

(** [to_bytes] returns on every list of instructions that [struct.pack]
    accepts. *)
Lemma to_bytes_total (bc : list Instr) :
  forallb packable bc = true -> exists s, to_bytes bc = Ok s.
Proof.
  intros Hall. unfold to_bytes.
  destruct (chunks_from_total bc) with (chunks := @nil string) as [res ->].
  - intros ins Hin. apply record_packable.
    rewrite forallb_forall in Hall. by apply Hall.
  - simpl. eauto.
Qed.
End BinaryProofs.

(** The binary32 patterns of [0.1], [1.0] and of the integer [3], as
    [struct.pack('<f', ...)] gives them: [0x3dcccccd], [0x3f800000],
    [0x40400000]. *)
Example float32_bits_examples :
  Struct.float32_bits (NFloat f_0_1) = Ok 1036831949%Z /\
  Struct.float32_bits (NFloat f_1_0) = Ok 1065353216%Z /\
  Struct.float32_bits (NInt 3) = Ok 1077936128%Z.
Proof. vm_compute. repeat split. Qed.

(** The theorem at the single instruction [GRAD] that the compiler emits. *)
Lemma C1_to_bytes_witness :
  let bc := [ {| Ir.op := Ir.OP_GRAD; Ir.a := NFloat f_1_0; Ir.b := NFloat f_1_0;
                 Ir.c := NFloat f_0_1; Ir.i := 0 |} ] in
  let s := "040000803f0000803fcdcccc3d0000000000000000"%string in
  Asm.to_bytes bc = Ok s /\
  exists recs,
    Forall2 Layout.is_record bc recs /\
    Forall (fun rec => length rec = 21%nat) recs /\
    s = Struct.hexlify (concat recs) /\
    String.length s = (42 * length bc)%nat.
Proof.
  intros bc s.
  assert (H : Asm.to_bytes bc = Ok s) by (vm_compute; reflexivity).
  split; [exact H|].
  exact (C1_to_bytes_records bc s H).
Defined.

(** C1 as stated fails on the single instruction [SEED]: its record is the
    byte 2 followed by twenty zero bytes, 21 bytes and not 16, and the
    binary form has 42 hex digits. *)
Lemma C1_record_counterexample :
  Asm.record (Ir.mk Ir.OP_SEED) = Ok (Struct.le_bytes 21 2) /\
  length (Struct.le_bytes 21 2) = 21%nat /\
  Asm.to_bytes [Ir.mk Ir.OP_SEED] =
    Ok "020000000000000000000000000000000000000000"%string /\
  String.length "020000000000000000000000000000000000000000" = 42%nat.
Proof. vm_compute. repeat split. Qed.

(** ** The container codec *)

Section BytesLemmas.
Import Struct.
Local Open Scope Z_scope.

Lemma bytes_eqb_eq (x y : list byte) : bytes_eqb x y = true <-> x = y.
Proof.
  revert y. induction x as [|a x IH]; intros [|b y]; simpl; try (split; done).
  rewrite andb_true_iff, IH. split.
  - intros [Hab ->]. apply Byte.byte_dec_bl in Hab. by subst.
  - intros [= -> ->]. split; [by apply Byte.byte_dec_lb | reflexivity].
Qed.

Lemma bytes_eqb_neq (x y : list byte) : x <> y -> bytes_eqb x y = false.
Proof.
  intros Hne. destruct (bytes_eqb x y) eqn:H; [|reflexivity].
  apply bytes_eqb_eq in H. contradiction.
Qed.

Lemma byte_of_Z_to_N (z : Z) : Z.of_N (Byte.to_N (byte_of_Z z)) = z mod 256.
Proof.
  unfold byte_of_Z.
  pose proof (Z.mod_pos_bound z 256 ltac:(lia)) as Hb.
  destruct (Byte.of_N (Z.to_N (z mod 256))) as [b|] eqn:Hof.
  - apply Byte.to_of_N in Hof. rewrite Hof. lia.
  - apply Byte.of_N_None_iff in Hof. lia.
Qed.

Lemma from_le_le_bytes (n : nat) (z : Z) :
  from_le (le_bytes n z) = z mod 256 ^ Z.of_nat n.
Proof.
  revert z. induction n as [|n IH]; intros z.
  - simpl. by rewrite Z.mod_1_r.
  - cbn [le_bytes from_le]. rewrite byte_of_Z_to_N, IH.
    rewrite Nat2Z.inj_succ, Z.pow_succ_r by lia.
    rewrite (Z.rem_mul_r z 256 (256 ^ Z.of_nat n)) by lia. lia.
Qed.

Lemma from_be_be_bytes (n : nat) (z : Z) :
  0 <= z < 256 ^ Z.of_nat n -> from_be (be_bytes n z) = z.
Proof.
  intros Hz. unfold from_be, be_bytes. rewrite rev_involutive, from_le_le_bytes.
  apply Z.mod_small. exact Hz.
Qed.

Lemma be_bytes_length (n : nat) (z : Z) : length (be_bytes n z) = n.
Proof. unfold be_bytes. by rewrite length_rev, le_bytes_length. Qed.

Lemma pack_u32 (z : Z) :
  0 <= z < 2 ^ 32 -> pack ">I" [NInt z] = Ok (be_bytes 4 z).
Proof.
  intros Hz. unfold pack. cbn [fields]. unfold field. cbn [Ascii.eqb Bool.eqb].
  unfold uint_field.
  replace ((0 <=? z) && (z <? 2 ^ (8 * Z.of_nat 4))) with true
    by (symmetry; apply andb_true_iff; split; [apply Z.leb_le | apply Z.ltb_lt];
        change (2 ^ (8 * Z.of_nat 4)) with (2 ^ 32); lia).
  cbn [bind]. by rewrite app_nil_r.
Qed.
End BytesLemmas.

(** The pieces of [m ++ v ++ l ++ name ++ rest] when [m], [v] and [l] have
    7, 4 and 4 bytes. *)
Lemma framed_parts (m v l name rest : list byte) :
  length m = 7%nat -> length v = 4%nat -> length l = 4%nat ->
  slice 0 7 (m ++ v ++ l ++ name ++ rest) = m /\
  slice 11 15 (m ++ v ++ l ++ name ++ rest) = l /\
  slice 15 (15 + length name) (m ++ v ++ l ++ name ++ rest) = name /\
  drop (15 + length name) (m ++ v ++ l ++ name ++ rest) = rest.
Proof.
  intros Hm Hv Hl. unfold slice. split; [|split; [|split]].
  - rewrite drop_0. replace (7 - 0)%nat with (length m) by lia.
    apply take_app_length.
  - replace (m ++ v ++ l ++ name ++ rest) with ((m ++ v) ++ l ++ name ++ rest)
      by (by rewrite <- app_assoc).
    rewrite drop_app_length' by (rewrite length_app; lia).
    replace (15 - 11)%nat with (length l) by lia. apply take_app_length.
  - replace (m ++ v ++ l ++ name ++ rest) with ((m ++ v ++ l) ++ name ++ rest)
      by (by rewrite <- !app_assoc).
    rewrite drop_app_length' by (rewrite !length_app; lia).
    replace (15 + length name - 15)%nat with (length name) by lia.
    apply take_app_length.
  - replace (m ++ v ++ l ++ name ++ rest) with ((m ++ v ++ l ++ name) ++ rest)
      by (by rewrite <- !app_assoc).
    apply drop_app_length'. rewrite !length_app. lia.
Qed.

Section CodecProofs.
Import AnyCollapse.

Variables (zlib_compress : list byte -> list byte)
          (zlib_decompress : list byte -> res (list byte))
          (encode : string -> list byte)
          (decode : list byte -> res string)
          (path_name path_suffix : string -> string)
          (with_suffix : string -> string -> res string).

Abbreviation pack_any' :=
  (pack_any zlib_compress encode path_name path_suffix with_suffix).
Abbreviation unpack_any' := (unpack_any zlib_decompress decode).

(** The envelope that [pack_any] writes. *)
Definition envelope (name raw : list byte) : list byte :=
  MAGIC ++ Struct.be_bytes 4 VER ++ Struct.be_bytes 4 (Z.of_nat (length name))
    ++ name ++ zlib_compress raw.

Lemma envelope_parts (name raw : list byte) :
  (Z.of_nat (length name) < 2 ^ 32)%Z ->
  slice 0 7 (envelope name raw) = MAGIC /\
  Z.to_nat (Struct.from_be (slice 11 15 (envelope name raw))) = length name /\
  slice 15 (15 + length name) (envelope name raw) = name /\
  drop (15 + length name) (envelope name raw) = zlib_compress raw.
Proof.
  intros Hlen. unfold envelope.
  destruct (framed_parts MAGIC (Struct.be_bytes 4 VER)
              (Struct.be_bytes 4 (Z.of_nat (length name))) name (zlib_compress raw))
    as (H1 & H2 & H3 & H4);
    [reflexivity | apply be_bytes_length | apply be_bytes_length |].
  split; [exact H1|]. split; [|split; [exact H3 | exact H4]].
  rewrite H2, from_be_be_bytes by (change (256 ^ Z.of_nat 4)%Z with (2 ^ 32)%Z; lia).
  lia.
Qed.

Lemma pack_any_run (fs : gmap string (list byte)) (in_path out : string)
    (raw : list byte) :
  fs !! in_path = Some raw ->
  (Z.of_nat (length (encode (path_name in_path))) < 2 ^ 32)%Z ->
  with_suffix in_path (path_suffix in_path ++ ".cslx") = Ok out ->
  pack_any' in_path fs =
    (Ok out, <[out := envelope (encode (path_name in_path)) raw]> fs).
Proof.
  intros Hraw Hlen Hout. unfold pack_any, io_bind, read_bytes, io_lift.
  rewrite Hraw. rewrite !pack_u32 by (unfold VER; lia). rewrite Hout.
  reflexivity.
Qed.

Lemma unpack_any_envelope (fs : gmap string (list byte)) (pkg_path : string)
    (name : string) (raw : list byte) :
  fs !! pkg_path = Some (envelope (encode name) raw) ->
  (Z.of_nat (length (encode name)) < 2 ^ 32)%Z ->
  decode (encode name) = Ok name ->
  zlib_decompress (zlib_compress raw) = Ok raw ->
  unpack_any' pkg_path fs = (Ok name, <[name := raw]> fs).
Proof.
  intros Hpkg Hlen Hdec Hz.
  destruct (envelope_parts (encode name) raw Hlen) as (Hm & Hn & Hname & Hdata).
  unfold unpack_any, io_bind, read_bytes, io_lift. rewrite Hpkg.
  rewrite Hm. replace (bytes_eqb MAGIC MAGIC) with true
    by (symmetry; by apply bytes_eqb_eq).
  cbn [negb]. rewrite Hn, Hname, Hdec, Hdata, Hz. reflexivity.
Qed.

(** C7. With a [zlib] whose [decompress] inverts [compress] and a UTF-8
    codec whose [decode] inverts [encode], packing an existing file, of any
    content, and unpacking the package that was written writes the original
    bytes under the original name. *)
Theorem C7_pack_any_round_trip (fs : gmap string (list byte))
    (in_path out : string) (raw : list byte) :
  (forall data, zlib_decompress (zlib_compress data) = Ok data) ->
  (forall s, decode (encode s) = Ok s) ->
  fs !! in_path = Some raw ->
  (Z.of_nat (length (encode (path_name in_path))) < 2 ^ 32)%Z ->
  with_suffix in_path (path_suffix in_path ++ ".cslx") = Ok out ->
  exists fs1 fs2,
    pack_any' in_path fs = (Ok out, fs1) /\
    unpack_any' out fs1 = (Ok (path_name in_path), fs2) /\
    fs2 !! path_name in_path = Some raw.
Proof.
  intros Hzlib Hutf Hraw Hlen Hout.
  eexists. eexists. split; [by apply pack_any_run|]. split.
  - apply unpack_any_envelope; auto. apply lookup_insert_eq.
  - apply lookup_insert_eq.
Qed.

(** A package that does not start with the magic is rejected before
    anything is written. *)
Lemma unpack_any_bad_magic (fs : gmap string (list byte)) (pkg_path : string)
    (pkg : list byte) :
  fs !! pkg_path = Some pkg ->
  take 7 pkg <> MAGIC ->
  unpack_any' pkg_path fs = (Raise (AssertionError "invalid CSLX magic"), fs).
Proof.
  intros Hpkg Hm. unfold unpack_any, io_bind, read_bytes. rewrite Hpkg.
  unfold slice. simpl drop. rewrite bytes_eqb_neq by exact Hm. reflexivity.
Qed.
End CodecProofs.

Section UnpackProofs.
Import CollapseUnpack.

Variables (zlib_decompress : list byte -> res (list byte))
          (json_loads : list byte -> res json)
          (with_suffix : string -> string -> res string).
Variable value : Type.
Variable vint : Z -> value.
Variable is_None : value -> bool.
Variables py_add py_mul py_call : value -> value -> res value.
Variable builtins : gmap string value.
Variables (decode : list byte -> res string).

Abbreviation unpack' :=
  (unpack zlib_decompress json_loads with_suffix value vint is_None
          py_add py_mul py_call builtins).

Lemma unpack_bad_magic (fs : gmap string (list byte)) (in_path : string)
    (raw : list byte) (out : option string) (eval_now : bool) :
  fs !! in_path = Some raw ->
  take 4 raw <> MAGIC ->
  unpack' in_path out eval_now fs = (Raise (ValueError "bad magic"), fs).
Proof.
  intros Hraw Hm. unfold unpack, io_bind, read_bytes. rewrite Hraw.
  unfold slice. rewrite drop_0, bytes_eqb_neq by exact Hm. reflexivity.
Qed.

(** C5. A file whose first bytes are not the magic of the variant is
    rejected by that variant's unpacker with a format error, an
    [AssertionError] from [unpack_any] and a [ValueError] from [unpack], and
    the file system is left as it was. *)
Theorem C5_bad_magic_fails_without_write (fs : gmap string (list byte))
    (path : string) (data : list byte) :
  fs !! path = Some data ->
  (take 7 data <> AnyCollapse.MAGIC ->
   exists e, Errors.FormatError e /\
             AnyCollapse.unpack_any zlib_decompress decode path fs = (Raise e, fs)) /\
  (take 4 data <> MAGIC ->
   forall out eval_now,
   exists e, Errors.FormatError e /\
             unpack' path out eval_now fs = (Raise e, fs)).
Proof.
  intros Hdata. split.
  - intros Hm. exists (AssertionError "invalid CSLX magic"). split; [exact I|].
    by apply unpack_any_bad_magic with data.
  - intros Hm out eval_now. exists (ValueError "bad magic"). split; [exact I|].
    by apply unpack_bad_magic with data.
Qed.
End UnpackProofs.


(** The theorem at a file that holds the four bytes [NOPE]. *)
Lemma C5_bad_magic_witness :
  let fs : gmap string (list byte) := {["f.cslx" := list_byte_of_string "NOPE"]} in
  fs !! "f.cslx" = Some (list_byte_of_string "NOPE") /\
  (exists e, Errors.FormatError e /\
             AnyCollapse.unpack_any Stored.zlib_decompress Stored.decode "f.cslx" fs
             = (Raise e, fs)) /\
  (exists e, Errors.FormatError e /\
             CollapseUnpack.unpack Stored.zlib_decompress Stored.json_loads
               Stored.with_suffix MiniCC.value MiniCC.VInt MiniCC.is_None
               MiniCC.py_add MiniCC.py_mul MiniCC.py_call ∅ "f.cslx" None false fs
             = (Raise e, fs)).
Proof.
  intros fs.
  assert (H : fs !! "f.cslx" = Some (list_byte_of_string "NOPE"))
    by apply lookup_singleton_eq.
  destruct (C5_bad_magic_fails_without_write Stored.zlib_decompress
              Stored.json_loads Stored.with_suffix MiniCC.value MiniCC.VInt
              MiniCC.is_None MiniCC.py_add MiniCC.py_mul MiniCC.py_call ∅
              Stored.decode fs "f.cslx" (list_byte_of_string "NOPE") H)
    as [HA HB].
  split; [exact H|]. split.
  - apply HA. discriminate.
  - apply HB. discriminate.
Defined.

(** The theorem at a file [a.txt] with no content. *)
Lemma C7_pack_any_round_trip_witness :
  let fs : gmap string (list byte) := {["a.txt" := []]} in
  exists fs1 fs2,
    AnyCollapse.pack_any Stored.zlib_compress Stored.encode Stored.path_name
      Stored.path_suffix Stored.with_suffix "a.txt" fs = (Ok "a.txt.cslx", fs1) /\
    AnyCollapse.unpack_any Stored.zlib_decompress Stored.decode "a.txt.cslx" fs1
    = (Ok "a.txt", fs2) /\
    fs2 !! "a.txt" = Some [].
Proof.
  intros fs.
  apply (C7_pack_any_round_trip Stored.zlib_compress Stored.zlib_decompress
           Stored.encode Stored.decode Stored.path_name Stored.path_suffix
           Stored.with_suffix fs "a.txt" "a.txt.cslx" []).
  - reflexivity.
  - intros s. unfold Stored.decode, Stored.encode.
    by rewrite string_of_list_byte_of_string.
  - apply lookup_singleton_eq.
  - vm_compute. reflexivity.
  - reflexivity.
Defined.

(** ** The canonicalizer *)

Section StringLemmas.

Lemma join_cons (sep x : ustr) (rest : list ustr) :
  rest <> [] -> join sep (x :: rest) = x ++ sep ++ join sep rest.
Proof. destruct rest; [done | reflexivity]. Qed.

(** *** [split_on] *)

Lemma split_on_nonempty (c : N) (s : ustr) : split_on c s <> [].
Proof.
  induction s as [|x s IH]; simpl; [done|].
  destruct (N.eqb x c); [done|]. destruct (split_on c s); done.
Qed.

Lemma split_on_pieces (c : N) (s : ustr) :
  Forall (fun piece => forall x, In x piece -> In x s /\ x <> c) (split_on c s).
Proof.
  induction s as [|x s IH]; simpl.
  - constructor; [|constructor]. intros y [].
  - destruct (N.eqb x c) eqn:Hx.
    + constructor; [intros y []|].
      eapply Forall_impl; [exact IH|]. simpl. intros p Hp y Hy.
      destruct (Hp y Hy). auto.
    + apply N.eqb_neq in Hx.
      pose proof (split_on_nonempty c s) as Hne.
      destruct (split_on c s) as [|piece pieces]; [done|].
      apply Forall_cons in IH as [Hp Hps]. constructor.
      * intros y [<-|Hy]; [auto|]. destruct (Hp y Hy). auto.
      * eapply Forall_impl; [exact Hps|]. simpl. intros p Hp' y Hy.
        destruct (Hp' y Hy). auto.
Qed.

Lemma split_on_no_sep (c : N) (s : ustr) :
  ~ In c s -> split_on c s = [s].
Proof.
  induction s as [|x s IH]; intros Hc; simpl; [reflexivity|].
  destruct (N.eqb x c) eqn:Hx.
  - apply N.eqb_eq in Hx. subst. exfalso. apply Hc. by left.
  - rewrite IH; [reflexivity|]. intros Hin. apply Hc. by right.
Qed.

Lemma split_on_app_sep (c : N) (s t : ustr) :
  ~ In c s -> split_on c (s ++ c :: t) = s :: split_on c t.
Proof.
  induction s as [|x s IH]; intros Hc; simpl.
  - by rewrite N.eqb_refl.
  - destruct (N.eqb x c) eqn:Hx.
    + apply N.eqb_eq in Hx. subst. exfalso. apply Hc. by left.
    + rewrite IH; [reflexivity|]. intros Hin. apply Hc. by right.
Qed.

Lemma split_on_join (c : N) (lines : list ustr) :
  lines <> [] -> Forall (fun ln => ~ In c ln) lines ->
  split_on c (join [c] lines) = lines.
Proof.
  induction lines as [|ln lines IH]; intros Hne Hall; [done|].
  apply Forall_cons in Hall as [Hln Hall].
  destruct lines as [|ln' lines].
  - simpl. by apply split_on_no_sep.
  - rewrite join_cons by done. simpl app.
    rewrite split_on_app_sep by exact Hln. f_equal. by apply IH.
Qed.
End StringLemmas.

Section WhitespaceLemmas.
Variable isspace : N -> bool.

(** A word: a non-empty run without whitespace. *)
Definition word (w : ustr) : Prop :=
  w <> [] /\ Forall (fun c => isspace c = false) w.

Lemma split_ws_from_words (s : ustr) :
  forall cur, Forall (fun c => isspace c = false) cur ->
    Forall (fun w => word w /\ forall c, In c w -> In c cur \/ In c s)
           (split_ws_from isspace cur s).
Proof.
  induction s as [|c s IH]; intros cur Hcur; simpl.
  - destruct cur as [|x cur]; constructor; [|constructor].
    split; [split; [done | exact Hcur] | auto].
  - destruct (isspace c) eqn:Hc.
    + assert (Hrest : Forall (fun w => word w /\ forall d, In d w -> In d cur \/ In d (c :: s))
                        (split_ws_from isspace [] s)).
      { eapply Forall_impl; [apply (IH []); constructor|]. simpl.
        intros w [Hw Hin]. split; [exact Hw|]. intros d Hd.
        destruct (Hin d Hd) as [[]|Hd']. right. by right. }
      destruct cur as [|x cur]; [exact Hrest|]. constructor; [|exact Hrest].
      split; [split; [done | exact Hcur] | auto].
    + eapply Forall_impl; [apply (IH (cur ++ [c]))|].
      * apply Forall_app. split; [exact Hcur | by constructor].
      * simpl. intros w [Hw Hin]. split; [exact Hw|]. intros d Hd.
        destruct (Hin d Hd) as [Hd'|Hd']; [|right; by right].
        apply in_app_iff in Hd' as [Hd'|[<-|[]]]; [by left | right; by left].
Qed.

Lemma split_ws_from_word (w : ustr) :
  Forall (fun c => isspace c = false) w ->
  forall cur rest,
    split_ws_from isspace cur (w ++ rest) = split_ws_from isspace (cur ++ w) rest.
Proof.
  induction 1 as [|c w Hc _ IH]; intros cur rest; simpl.
  - by rewrite app_nil_r.
  - rewrite Hc, IH, <- app_assoc. reflexivity.
Qed.

Lemma split_ws_from_spaces (t : ustr) :
  Forall (fun c => isspace c = true) t ->
  forall cur,
    split_ws_from isspace cur t = match cur with [] => [] | _ => [cur] end.
Proof.
  induction 1 as [|c t Hc _ IH]; intros cur; simpl; [reflexivity|].
  rewrite Hc, (IH []). by destruct cur.
Qed.

Lemma split_ws_from_trailing (s t : ustr) :
  Forall (fun c => isspace c = true) t ->
  forall cur, split_ws_from isspace cur (s ++ t) = split_ws_from isspace cur s.
Proof.
  intros Ht. induction s as [|c s IH]; intros cur; simpl.
  - by apply split_ws_from_spaces.
  - destruct (isspace c); [|apply IH]. rewrite !(IH []). reflexivity.
Qed.

Lemma lstrip_decompose (s : ustr) :
  exists t, s = t ++ lstrip isspace s /\ Forall (fun c => isspace c = true) t.
Proof.
  induction s as [|c s (t & Hs & Ht)]; simpl.
  - exists []. split; [reflexivity | constructor].
  - destruct (isspace c) eqn:Hc.
    + exists (c :: t). split; [simpl; by rewrite <- Hs | by constructor].
    + exists []. split; [reflexivity | constructor].
Qed.

Lemma split_ws_lstrip (s : ustr) :
  split_ws isspace (lstrip isspace s) = split_ws isspace s.
Proof.
  unfold split_ws. induction s as [|c s IH]; simpl; [reflexivity|].
  destruct (isspace c) eqn:Hc; [exact IH | simpl; by rewrite Hc].
Qed.

Lemma split_ws_rstrip (s : ustr) :
  split_ws isspace (rstrip isspace s) = split_ws isspace s.
Proof.
  unfold rstrip. destruct (lstrip_decompose (rev s)) as (t & Hs & Ht).
  assert (Hs' : s = rev (lstrip isspace (rev s)) ++ rev t).
  { rewrite <- rev_app_distr, <- Hs. by rewrite rev_involutive. }
  rewrite Hs' at 2. unfold split_ws. rewrite split_ws_from_trailing; [reflexivity|].
  apply Forall_forall. intros c Hc. apply list_elem_of_In, in_rev in Hc.
  rewrite Forall_forall in Ht. by apply Ht, list_elem_of_In.
Qed.

(** Stripping before splitting changes nothing. *)
Lemma split_ws_strip (s : ustr) :
  split_ws isspace (strip isspace s) = split_ws isspace s.
Proof. unfold strip. by rewrite split_ws_rstrip, split_ws_lstrip. Qed.

Hypothesis space_isspace : isspace 32 = true.

Lemma split_ws_from_space (cur s : ustr) (c : N) :
  isspace c = true -> cur <> [] ->
  split_ws_from isspace cur (c :: s) = cur :: split_ws_from isspace [] s.
Proof. intros Hc Hcur. simpl. rewrite Hc. by destruct cur. Qed.

(** Splitting a line made of words joined by single spaces gives back the
    words. *)
Lemma split_ws_join (words : list ustr) :
  Forall word words -> split_ws isspace (join [32%N] words) = words.
Proof.
  unfold split_ws. induction 1 as [|w words [Hne Hw] Hwords IH]; [reflexivity|].
  destruct words as [|w' words].
  - simpl join.
    transitivity (split_ws_from isspace ([] ++ w) []).
    + rewrite <- split_ws_from_word by exact Hw. by rewrite app_nil_r.
    + simpl. by destruct w.
  - rewrite join_cons by done. rewrite split_ws_from_word by exact Hw.
    change ([32%N] ++ join [32%N] (w' :: words))
      with (32%N :: join [32%N] (w' :: words)).
    rewrite split_ws_from_space by (rewrite ?app_nil_l; done).
    by rewrite IH.
Qed.
End WhitespaceLemmas.

Section CanonicalizeProofs.
Import Asc7 Canon.

Variables (lower : N -> ustr) (isspace : N -> bool).
Hypothesis facts : unicode_facts lower isspace.

(** The two stages of [canonicalize] as list functions. *)
Definition stage1 (source : ustr) : ustr :=
  flat_map (fun ch => lower (dict_get _ASC7_MAP ch ch)) source.

Definition norm (ln : ustr) : ustr := join [32%N] (split_ws isspace ln).

Definition keep (ln : ustr) : bool :=
  negb (ueqb ln []) && negb (startswith [47%N; 47%N] ln).

Lemma join_nil_concat (l : list ustr) : join [] l = concat l.
Proof.
  induction l as [|x l IH]; [reflexivity|].
  destruct l as [|y l]; [simpl; by rewrite app_nil_r|].
  rewrite join_cons by done. rewrite app_nil_l, IH. reflexivity.
Qed.

Lemma stage1_fold (source : ustr) (acc : list ustr) :
  fold_left (fun s ch => let ch := dict_get _ASC7_MAP ch ch in s ++ [lower ch])
            source acc
  = acc ++ map (fun ch => lower (dict_get _ASC7_MAP ch ch)) source.
Proof.
  revert acc. induction source as [|ch source IH]; intros acc; simpl.
  - by rewrite app_nil_r.
  - rewrite IH, <- app_assoc. reflexivity.
Qed.

Lemma lines_fold (pieces : list ustr) (acc : list ustr) :
  fold_left
    (fun lines ln =>
       let ln := join (u " ") (split_ws isspace (strip isspace ln)) in
       if negb (ueqb ln []) && negb (startswith (u "//") ln)
       then lines ++ [ln] else lines)
    pieces acc
  = acc ++ List.filter keep (map norm pieces).
Proof.
  revert acc. induction pieces as [|p pieces IH]; intros acc.
  - simpl. by rewrite app_nil_r.
  - cbn [fold_left map List.filter]. rewrite IH, split_ws_strip.
    change (join (u " ") (split_ws isspace p)) with (norm p).
    change (negb (ueqb (norm p) []) && negb (startswith (u "//") (norm p)))
      with (keep (norm p)).
    destruct (keep (norm p)); [by rewrite <- app_assoc | reflexivity].
Qed.

Lemma canonicalize_eq (source : ustr) :
  canonicalize lower isspace source
  = join [10%N] (List.filter keep (map norm (split_on 10 (stage1 source)))).
Proof.
  unfold canonicalize. rewrite stage1_fold, lines_fold, join_nil_concat.
  simpl app. unfold stage1. by rewrite flat_map_concat_map.
Qed.

(** A character that the first stage leaves as it is. *)
Definition stable (c : N) : Prop :=
  dict_get _ASC7_MAP c c = c /\ lower c = [c].

Lemma dict_get_not_key (c : N) : is_key c = false -> dict_get _ASC7_MAP c c = c.
Proof.
  unfold is_key, _ASC7_MAP. simpl.
  repeat (destruct (N.eqb c _); [discriminate|]). reflexivity.
Qed.

Lemma dict_get_is_not_key (c : N) : is_key (dict_get _ASC7_MAP c c) = false.
Proof.
  unfold _ASC7_MAP. simpl dict_get.
  repeat match goal with
         | |- context [if N.eqb c ?k then _ else _] =>
           destruct (N.eqb c k) eqn:?; [reflexivity|]
         end.
  unfold is_key, _ASC7_MAP. simpl.
  repeat match goal with H : N.eqb c _ = false |- _ => rewrite H; clear H end.
  reflexivity.
Qed.

Lemma stage1_output_stable (source : ustr) : Forall stable (stage1 source).
Proof.
  apply Forall_forall. intros d Hd. apply list_elem_of_In in Hd.
  unfold stage1 in Hd. apply in_flat_map in Hd as (c & _ & Hd). split.
  - apply dict_get_not_key. destruct (is_key d) eqn:Hk; [|reflexivity].
    apply (lower_keys _ _ facts) in Hd; [|exact Hk].
    by rewrite dict_get_is_not_key in Hd.
  - by apply (lower_idem _ _ facts) with (dict_get _ASC7_MAP c c).
Qed.

Lemma stage1_stable (s : ustr) : Forall stable s -> stage1 s = s.
Proof.
  induction 1 as [|c s [Hget Hlow] _ IH]; [reflexivity|].
  unfold stage1 in *. cbn [flat_map]. by rewrite Hget, Hlow, IH.
Qed.

Lemma stable_space : stable 32.
Proof. split; [reflexivity | apply (lower_space _ _ facts)]. Qed.

Lemma stable_line_feed : stable 10.
Proof. split; [reflexivity | apply (lower_line_feed _ _ facts)]. Qed.

(** A line of the canonical form: words made of stable characters other
    than the line feed, joined by single spaces, and kept by the filter. *)
Definition line_ok (ln : ustr) : Prop :=
  exists words,
    ln = join [32%N] words /\
    Forall (word isspace) words /\
    Forall (Forall (fun c => stable c /\ c <> 10%N)) words /\
    keep ln = true.

Lemma In_join (sep : ustr) (l : list ustr) (c : N) :
  In c (join sep l) -> In c sep \/ exists x, In x l /\ In c x.
Proof.
  induction l as [|x l IH]; [intros []|].
  destruct l as [|y l].
  - simpl. intros Hc. right. exists x. auto.
  - rewrite join_cons by done. rewrite !in_app_iff.
    intros [Hc|[Hc|Hc]]; [right; exists x; by split; [left|] | by left |].
    destruct (IH Hc) as [Hs|(z & Hz & Hcz)]; [by left|].
    right. exists z. split; [by right | exact Hcz].
Qed.

Lemma line_ok_chars (ln : ustr) (c : N) :
  line_ok ln -> In c ln -> stable c /\ c <> 10%N.
Proof.
  intros (words & -> & _ & Hchars & _) Hc.
  apply In_join in Hc as [[<-|[]]|(w & Hw & Hc)].
  - split; [apply stable_space | done].
  - rewrite Forall_forall in Hchars. apply list_elem_of_In, Hchars in Hw.
    rewrite Forall_forall in Hw. by apply Hw, list_elem_of_In.
Qed.

Lemma norm_line_ok (ln : ustr) : line_ok ln -> norm ln = ln.
Proof.
  intros (words & -> & Hwords & _ & _). unfold norm.
  rewrite split_ws_join; [reflexivity | apply (space_isspace _ _ facts) | exact Hwords].
Qed.

Lemma map_norm_lines (lines : list ustr) :
  Forall line_ok lines -> map norm lines = lines.
Proof.
  induction 1 as [|ln lines Hln _ IH]; simpl; [reflexivity|].
  by rewrite norm_line_ok, IH.
Qed.

Lemma filter_keep_lines (lines : list ustr) :
  Forall line_ok lines -> List.filter keep lines = lines.
Proof.
  induction 1 as [|ln lines (words & _ & _ & _ & Hkeep) _ IH]; simpl; [reflexivity|].
  by rewrite Hkeep, IH.
Qed.

(** A text in canonical form is a fixed point of [canonicalize]. *)
Lemma canonicalize_canonical (lines : list ustr) :
  Forall line_ok lines ->
  canonicalize lower isspace (join [10%N] lines) = join [10%N] lines.
Proof.
  intros Hlines. rewrite canonicalize_eq.
  assert (Hstable : Forall stable (join [10%N] lines)).
  { apply Forall_forall. intros c Hc. apply list_elem_of_In in Hc.
    apply In_join in Hc as [[<-|[]]|(ln & Hln & Hc)]; [apply stable_line_feed|].
    rewrite Forall_forall in Hlines. apply list_elem_of_In, Hlines in Hln.
    by destruct (line_ok_chars ln c Hln Hc). }
  rewrite stage1_stable by exact Hstable.
  destruct lines as [|ln lines]; [reflexivity|].
  rewrite split_on_join; [|done|].
  - by rewrite map_norm_lines, filter_keep_lines.
  - eapply Forall_impl; [exact Hlines|]. simpl. intros l Hl Hin.
    by destruct (line_ok_chars l 10%N Hl Hin).
Qed.

(** The output of [canonicalize] is in canonical form. *)
Lemma canonical_lines (source : ustr) :
  Forall line_ok (List.filter keep (map norm (split_on 10 (stage1 source)))).
Proof.
  apply Forall_forall. intros ln Hln. apply list_elem_of_In in Hln.
  apply filter_In in Hln as [Hln Hkeep].
  apply in_map_iff in Hln as (piece & <- & Hpiece).
  pose proof (split_on_pieces 10 (stage1 source)) as Hpieces.
  rewrite Forall_forall in Hpieces.
  specialize (Hpieces piece (proj2 (list_elem_of_In _ _) Hpiece)).
  clear Hpiece. rename Hpieces into Hpiece.
  pose proof (stage1_output_stable source) as Hst. rewrite Forall_forall in Hst.
  pose proof (split_ws_from_words isspace piece [] ltac:(constructor)) as Hwords.
  exists (split_ws isspace piece). split; [reflexivity|]. split; [|split; [|exact Hkeep]].
  - eapply Forall_impl; [exact Hwords|]. simpl. by intros w [Hw _].
  - eapply Forall_impl; [exact Hwords|]. simpl. intros w [_ Hin].
    apply Forall_forall. intros c Hc. apply list_elem_of_In in Hc.
    destruct (Hin c Hc) as [[]|Hc']. destruct (Hpiece c Hc') as [Hs Hne].
    split; [by apply Hst, list_elem_of_In | exact Hne].
Qed.

(** C8. Provided lowercasing and the whitespace class behave as Python's
    do, canonicalizing a canonicalized text changes nothing. *)
Theorem C8_canonicalize_idempotent (s : ustr) :
  canonicalize lower isspace (canonicalize lower isspace s)
  = canonicalize lower isspace s.
Proof.
  rewrite (canonicalize_eq s). apply canonicalize_canonical, canonical_lines.
Qed.
End CanonicalizeProofs.


(** The ASCII tables satisfy what is assumed of Python's. *)
Lemma ascii_unicode_facts : Canon.unicode_facts AsciiText.lower AsciiText.isspace.
Proof.
  assert (Hlow : forall c d, In d (AsciiText.lower c) ->
            (d = c + 32 /\ 65 <= c <= 90)%N \/ (d = c /\ ~ (65 <= c <= 90)%N)).
  { intros c d. unfold AsciiText.lower.
    destruct ((65 <=? c)%N && (c <=? 90)%N) eqn:Hc; intros [<-|[]].
    - apply andb_true_iff in Hc as [H1 H2]. apply N.leb_le in H1, H2. left. lia.
    - right. split; [reflexivity|]. intros [H1 H2].
      apply N.leb_le in H1, H2. rewrite H1, H2 in Hc. discriminate. }
  assert (Hfix : forall d, ~ (65 <= d <= 90)%N -> AsciiText.lower d = [d]).
  { intros d Hd. unfold AsciiText.lower.
    destruct ((65 <=? d)%N && (d <=? 90)%N) eqn:Hc; [|reflexivity].
    apply andb_true_iff in Hc as [H1 H2]. apply N.leb_le in H1, H2. lia. }
  split.
  - intros c d Hd. apply Hfix. destruct (Hlow c d Hd) as [[-> Hc]|[-> Hc]]; lia.
  - intros c d Hd Hkey. destruct (Hlow c d Hd) as [[-> Hc]|[-> Hc]]; [|exact Hkey].
    exfalso. unfold Canon.is_key, Asc7._ASC7_MAP in Hkey. simpl in Hkey.
    repeat (apply orb_true_iff in Hkey as [Hkey|Hkey];
            [apply N.eqb_eq in Hkey; lia|]).
    discriminate.
  - reflexivity.
  - reflexivity.
  - reflexivity.
Qed.

(** The canonical form of a text with upper case, a tab, trailing blanks, a
    comment, an empty line and curly quotes. *)
Definition untidy_source : ustr :=
  join [10%N]
    [ u "  PSI ::" ++ [9%N] ++ u "F3^3  "; u "// a comment"; [];
      [8220%N] ++ u "Grad" ++ [8221%N] ++ u "   x" ].

Example canonicalize_untidy :
  AsciiText.canonicalize untidy_source
  = join [10%N] [ u "psi :: f3^3"; [34%N] ++ u "grad" ++ [34%N] ++ u " x" ].
Proof. vm_compute. reflexivity. Qed.

(** The theorem with the ASCII tables, at that text. *)
Lemma C8_canonicalize_idempotent_witness :
  Canon.unicode_facts AsciiText.lower AsciiText.isspace /\
  Asc7.canonicalize AsciiText.lower AsciiText.isspace
    (Asc7.canonicalize AsciiText.lower AsciiText.isspace untidy_source)
  = Asc7.canonicalize AsciiText.lower AsciiText.isspace untidy_source.
Proof.
  split; [exact ascii_unicode_facts|].
  exact (C8_canonicalize_idempotent AsciiText.lower AsciiText.isspace
           ascii_unicode_facts untidy_source).
Defined.

(* ===================================================================== *)
(** * Part IV. Further properties of the code                             *)
(* ===================================================================== *)

(** ** Bit sets *)

Section BitsetProofs.
Import Fardbits.
Local Open Scope Z_scope.

Lemma land_shiftr_1 (bs i : Z) :
  0 <= i -> Z.land (Z.shiftr bs i) 1 = Z.b2z (Z.testbit bs i).
Proof.
  intros Hi. change 1 with (Z.ones 1). rewrite Z.land_ones by lia.
  change (2 ^ 1) with 2. rewrite <- Z.bit0_mod, Z.shiftr_spec by lia.
  reflexivity.
Qed.

Lemma bitset_test_testbit (bs i : Z) :
  0 <= i -> bitset_test bs i = Z.testbit bs i.
Proof.
  intros Hi. unfold bitset_test. rewrite land_shiftr_1 by exact Hi.
  by destruct (Z.testbit bs i).
Qed.

Lemma indices_from_bitset_filter (bs n : Z) :
  indices_from_bitset bs n = List.filter (Z.testbit bs) (range n).
Proof.
  unfold indices_from_bitset.
  assert (H : forall l, Forall (fun i => 0 <= i) l ->
            filter (fun i => Z.land (Z.shiftr bs i) 1 ≠ 0) l
            = List.filter (Z.testbit bs) l).
  { induction l as [|x l IH]; intros Hl; [reflexivity|].
    inversion Hl as [|? ? Hx Hl']; subst.
    rewrite filter_cons. simpl. rewrite <- (IH Hl').
    rewrite land_shiftr_1 by exact Hx.
    destruct (Z.testbit bs x); reflexivity. }
  apply H. apply Forall_forall. intros x Hx.
  apply list_elem_of_In, range_In in Hx. lia.
Qed.

(** Setting bit [i] makes a test of bit [i] succeed and leaves the test of
    any other bit as it was; a new bit set has no bit set.  Shift counts
    must not be negative, which Python rejects. *)
Theorem bitset_set_test (bs i j : Z) :
  0 <= i -> 0 <= j ->
  bitset_test (bitset_set bs i) j = (j =? i) || bitset_test bs j.
Proof.
  intros Hi Hj. rewrite !bitset_test_testbit by exact Hj.
  rewrite bitset_set_spec by exact Hi. apply orb_comm.
Qed.

(** [indices_from_bitset(bs, n)] lists, in increasing order and without
    repetition, the indices below [n] that [bitset_test] finds set; it is
    empty when [n <= 0]. *)
Theorem indices_from_bitset_spec (bs n : Z) :
  StronglySorted Z.lt (indices_from_bitset bs n) /\
  (forall i, In i (indices_from_bitset bs n) <->
             0 <= i < n /\ bitset_test bs i = true) /\
  (n <= 0 -> indices_from_bitset bs n = []).
Proof.
  rewrite indices_from_bitset_filter. split; [|split].
  - assert (H : forall l, StronglySorted Z.lt l ->
              StronglySorted Z.lt (List.filter (Z.testbit bs) l)).
    { induction 1 as [|x l Hl IH Hx]; simpl; [constructor|].
      destruct (Z.testbit bs x); [|exact IH].
      constructor; [exact IH|].
      rewrite List.Forall_forall in Hx |- *. intros y Hy.
      apply filter_In in Hy as [Hy _]. by apply Hx. }
    apply H, range_sorted.
  - intros i. rewrite filter_In, range_In. split.
    + intros [Hi Hb]. split; [exact Hi|]. rewrite bitset_test_testbit by lia. exact Hb.
    + intros [Hi Hb]. split; [exact Hi|]. rewrite bitset_test_testbit in Hb by lia. exact Hb.
  - intros Hn. unfold range. replace (Z.to_nat n) with 0%nat by lia. reflexivity.
Qed.

End BitsetProofs.

(** The first theorem at the bit set [0b101] and the bits 1 and 2. *)
Lemma bitset_set_test_witness :
  Fardbits.bitset_test (Fardbits.bitset_set 5 1) 2
  = (2 =? 1)%Z || Fardbits.bitset_test 5 2.
Proof. apply bitset_set_test; lia. Defined.

(** ** [build_mask] with a predicate that may raise *)

Section BuildMaskGeneral.
Import Fardbits Lex.
Local Open Scope Z_scope.

Variables (dim p : Z) (cond : list Z -> res bool).

(** What the call [rec(dim)] does when [coords] holds [tup]. *)
Definition visit_tuple (tup : list Z) (st : frame) : res frame :=
  b <- cond tup ;;
  Ok {| bs := if b : bool then bitset_set (bs st) (idx st) else bs st;
        idx := idx st + 1;
        coords := coords st;
        calls := calls st ++ [(idx st, tup)] |}.

Lemma visit_with_coords (ts : list (list Z)) (cs : list Z) (st : frame) :
  for_each ts visit_tuple (with_coords cs st)
  = (st' <- for_each ts visit_tuple st ;; Ok (with_coords cs st')).
Proof.
  revert st. induction ts as [|t ts IH]; intros st; [reflexivity|].
  cbn [for_each]. unfold visit_tuple at 1 3. cbn [with_coords bs idx coords calls].
  destruct (cond t) as [b|e]; [|reflexivity]. cbn [bind].
  rewrite <- IH. reflexivity.
Qed.

(** The outcome [r] of running the recursion from depth [d] in the frame
    [st] is that of visiting the tuples [ts] one after the other. *)
Definition runs_as (r : res frame) (ts : list (list Z)) (d : Z) (st : frame)
  : Prop :=
  match for_each ts visit_tuple st with
  | Ok st' =>
    exists cs, r = Ok (with_coords cs st') /\ length cs = Z.to_nat dim /\
               take (Z.to_nat d) cs = take (Z.to_nat d) (coords st)
  | Raise e => r = Raise e
  end.

Lemma loop_runs_as (n : nat) (fuel : nat) (d : Z) :
  0 <= d -> d < dim ->
  (forall st, length (coords st) = Z.to_nat dim ->
     runs_as (rec dim p cond fuel (d + 1) st)
       (map (app (take (Z.to_nat (d + 1)) (coords st))) (lex_tuples n p))
       (d + 1) st) ->
  forall vs st, length (coords st) = Z.to_nat dim ->
    runs_as
      (for_each vs
         (fun v st =>
            cs <- py_setitem (coords st) d v ;;
            rec dim p cond fuel (d + 1)
              {| bs := bs st; idx := idx st; coords := cs; calls := calls st |})
         st)
      (map (app (take (Z.to_nat d) (coords st)))
           (flat_map (fun v => map (cons v) (lex_tuples n p)) vs))
      d st.
Proof.
  intros Hd0 Hd IH vs. induction vs as [|v vs IHvs]; intros st Hlen.
  - unfold runs_as. simpl. exists (coords st). by rewrite with_coords_self.
  - cbn [for_each flat_map]. rewrite py_setitem_in_range by lia. cbn [bind].
    set (cs1 := <[Z.to_nat d := v]> (coords st)).
    change {| bs := bs st; idx := idx st; coords := cs1; calls := calls st |}
      with (with_coords cs1 st).
    assert (Hpre1 : take (Z.to_nat (d + 1)) cs1 = take (Z.to_nat d) (coords st) ++ [v]).
    { replace (Z.to_nat (d + 1)) with (S (Z.to_nat d)) by lia.
      unfold cs1. rewrite take_S_r with (x := v).
      - rewrite take_insert_ge by lia. reflexivity.
      - apply list_lookup_insert_eq. lia. }
    assert (Hlen1 : length (coords (with_coords cs1 st)) = Z.to_nat dim).
    { simpl. unfold cs1. by rewrite length_insert. }
    specialize (IH (with_coords cs1 st) Hlen1).
    unfold runs_as in IH |- *.
    rewrite map_app, for_each_app.
    cbn [coords with_coords] in IH. rewrite Hpre1, visit_with_coords in IH.
    rewrite map_map.
    rewrite (map_ext (fun x => take (Z.to_nat d) (coords st) ++ v :: x)
                     (app (take (Z.to_nat d) (coords st) ++ [v])))
      by (intros t; by rewrite <- app_assoc).
    destruct (for_each _ visit_tuple st) as [st'|e] eqn:Hfirst; cbn [bind] in IH |- *.
    + destruct IH as (cs2 & -> & Hlen2 & Hpre2). cbn [bind].
      rewrite with_coords_idem.
      assert (Hpre : take (Z.to_nat d) cs2 = take (Z.to_nat d) (coords st)).
      { apply (take_of_take_succ _ _ _ v); [|lia].
        replace (S (Z.to_nat d)) with (Z.to_nat (d + 1)) by lia.
        exact Hpre2. }
      specialize (IHvs (with_coords cs2 st') Hlen2). unfold runs_as in IHvs.
      cbn [coords with_coords] in IHvs. rewrite Hpre, visit_with_coords in IHvs.
      destruct (for_each _ visit_tuple st') as [st''|e]; cbn [bind] in IHvs.
      * destruct IHvs as (cs3 & -> & Hlen3 & Hpre3).
        exists cs3. rewrite with_coords_idem. split; [reflexivity|].
        split; [exact Hlen3|]. by rewrite Hpre3.
      * exact IHvs.
    + rewrite IH. reflexivity.
Qed.

Lemma rec_runs_as (n : nat) :
  forall fuel d st,
    (n < fuel)%nat -> 0 <= d -> d + Z.of_nat n = dim ->
    length (coords st) = Z.to_nat dim ->
    runs_as (rec dim p cond fuel d st)
      (map (app (take (Z.to_nat d) (coords st))) (lex_tuples n p)) d st.
Proof.
  induction n as [|n IH]; intros fuel d st Hfuel Hd0 Hd Hlen.
  - destruct fuel as [|fuel]; [lia|]. unfold runs_as. cbn [rec lex_tuples map for_each].
    replace (d =? dim) with true by (symmetry; apply Z.eqb_eq; lia).
    rewrite take_ge, app_nil_r by lia. unfold visit_tuple.
    destruct (cond (coords st)) as [b|e]; cbn [bind]; [|reflexivity].
    exists (coords st). split; [reflexivity|].
    split; [exact Hlen | apply take_ge; lia].
  - destruct fuel as [|fuel]; [lia|]. cbn [rec].
    replace (d =? dim) with false by (symmetry; apply Z.eqb_neq; lia).
    apply (loop_runs_as n fuel d); [lia | lia | | exact Hlen].
    intros st' Hlen'. apply IH; [lia | lia | lia | exact Hlen'].
Qed.

(** The frame in which [build_mask] starts. *)
Definition start : frame :=
  {| bs := bitset_new (p ^ dim); idx := 0;
     coords := repeat 0 (Z.to_nat dim); calls := [] |}.

(** For [dim >= 0], [build_mask] visits the tuples in order until [cond]
    raises. *)
Lemma build_mask_visits :
  0 <= dim ->
  build_mask dim p cond
  = (st <- for_each (lex_tuples (Z.to_nat dim) p) visit_tuple start ;; Ok (bs st)).
Proof.
  intros Hdim. unfold build_mask, build_mask_frame, pow_check.
  replace (dim <? 0) with false by (symmetry; apply Z.ltb_ge; lia).
  rewrite andb_false_r. cbn [bind]. fold start.
  pose proof (rec_runs_as (Z.to_nat dim) (S (Z.to_nat dim)) 0 start) as H.
  unfold runs_as in H. change (take (Z.to_nat 0) (coords start)) with (@nil Z) in H.
  rewrite (map_ext _ id), map_id in H by reflexivity.
  specialize (H ltac:(lia) ltac:(lia) ltac:(lia) ltac:(apply repeat_length)).
  destruct (for_each _ visit_tuple start) as [st'|e].
  - destruct H as (cs & -> & _). reflexivity.
  - rewrite H. reflexivity.
Qed.

Lemma visits_all_ok (ts : list (list Z)) (st : frame) :
  Forall (fun t => exists b, cond t = Ok b) ts ->
  exists st', for_each ts visit_tuple st = Ok st'.
Proof.
  revert st. induction ts as [|t ts IH]; intros st Hts; [by eexists|].
  inversion Hts as [|? ? [b Hb] Hts']; subst. cbn [for_each].
  unfold visit_tuple at 1. rewrite Hb. cbn [bind]. apply IH, Hts'.
Qed.

End BuildMaskGeneral.

Lemma visits_ext (cond cond' : list Z -> res bool) (ts : list (list Z))
    (st : Fardbits.frame) :
  Forall (fun t => cond t = cond' t) ts ->
  for_each ts (visit_tuple cond) st = for_each ts (visit_tuple cond') st.
Proof.
  revert st. induction ts as [|t ts IH]; intros st Hts; [reflexivity|].
  inversion Hts as [|? ? Ht Hts']; subst. cbn [for_each].
  unfold visit_tuple at 1 3. rewrite Ht.
  destruct (cond' t); cbn [bind]; [apply IH, Hts' | reflexivity].
Qed.

(** Two predicates that agree on the tuples of the lattice give the same
    mask. *)
Lemma build_mask_ext (dim p : Z) (cond cond' : list Z -> res bool) :
  (0 <= dim)%Z ->
  (forall t, length t = Z.to_nat dim -> Forall (fun x => 0 <= x < p)%Z t ->
             cond t = cond' t) ->
  Fardbits.build_mask dim p cond = Fardbits.build_mask dim p cond'.
Proof.
  intros Hdim Hagree. rewrite !build_mask_visits by exact Hdim.
  rewrite (visits_ext cond cond'); [reflexivity|].
  apply Forall_forall. intros t Ht.
  apply list_elem_of_In, lex_tuples_In in Ht as [Hlen Hall]. by apply Hagree.
Qed.

(** When [cond] raises, [build_mask] raises the same exception: the one of
    the first tuple, in lexicographic order, on which [cond] fails. *)
Theorem build_mask_propagates (dim p : Z) (cond : list Z -> res bool)
    (before after : list (list Z)) (t : list Z) (e : exn) :
  (0 <= dim)%Z ->
  Lex.lex_tuples (Z.to_nat dim) p = before ++ t :: after ->
  Forall (fun t' => exists b, cond t' = Ok b) before ->
  cond t = Raise e ->
  Fardbits.build_mask dim p cond = Raise e.
Proof.
  intros Hdim Hts Hbefore Ht. rewrite build_mask_visits by exact Hdim.
  rewrite Hts, for_each_app.
  destruct (visits_all_ok cond before (start dim p) Hbefore) as [st' ->].
  cbn [bind for_each]. unfold visit_tuple at 1. rewrite Ht. reflexivity.
Qed.

(** The theorem over [f2^1] with a predicate that accepts [(0,)] and
    raises on [(1,)]. *)
Lemma build_mask_propagates_witness :
  Fardbits.build_mask 1 2
    (fun t => if bool_decide (t = [0%Z]) then Ok true else Raise TypeError)
  = Raise TypeError.
Proof.
  apply (build_mask_propagates 1 2 _ [[0%Z]] [] [1%Z]);
    [lia | reflexivity | repeat constructor; by exists true | reflexivity].
Defined.

(** Outside [p >= 1], [dim >= 1] the lattice degenerates.  With [dim = 0]
    there is the empty tuple alone, and the mask is 1 or 0 as [cond] decides
    on it.  With a negative [dim] the list [coords] is empty, and the first
    assignment to [coords[0]] raises [IndexError] when [p >= 1]; [0 ** dim]
    raises [ZeroDivisionError] when [p = 0].  In every other case
    [range(p)] is empty and the mask is 0 without a call to [cond]. *)
Theorem build_mask_degenerate (dim p : Z) (cond : list Z -> res bool) :
  (dim <= 0 \/ p <= 0)%Z ->
  Fardbits.build_mask dim p cond =
    if (dim =? 0)%Z then b <- cond [] ;; Ok (if b : bool then 1%Z else 0%Z)
    else if (dim <? 0)%Z && (0 <? p)%Z then Raise IndexError
    else if (dim <? 0)%Z && (p =? 0)%Z then Raise ZeroDivisionError
    else Ok 0%Z.
Proof.
  intros H. unfold Fardbits.build_mask, Fardbits.build_mask_frame, Fardbits.pow_check.
  destruct (Z.eqb_spec dim 0) as [->|Hdim].
  - rewrite andb_false_r. simpl.
    destruct (cond []) as [[]|e]; reflexivity.
  - destruct (Z.ltb_spec dim 0) as [Hneg|Hpos].
    + replace (Z.to_nat dim) with 0%nat by lia.
      destruct (Z.ltb_spec 0 p) as [Hp|Hp].
      * replace (p =? 0)%Z with false by (symmetry; apply Z.eqb_neq; lia).
        cbn [andb bind Fardbits.rec].
        replace (0 =? dim)%Z with false by (symmetry; apply Z.eqb_neq; lia).
        unfold range. destruct (Z.to_nat p) as [|k] eqn:Hk; [lia|].
        reflexivity.
      * destruct (Z.eqb_spec p 0) as [->|Hp0]; [reflexivity|].
        cbn [andb bind Fardbits.rec].
        replace (0 =? dim)%Z with false by (symmetry; apply Z.eqb_neq; lia).
        unfold range. replace (Z.to_nat p) with 0%nat by lia. reflexivity.
    + rewrite andb_false_r. cbn [andb bind].
      assert (Hp : (p <= 0)%Z) by lia.
      destruct (Z.to_nat dim) as [|k] eqn:Hk; [lia|]. cbn [Fardbits.rec].
      replace (0 =? dim)%Z with false by (symmetry; apply Z.eqb_neq; lia).
      unfold range. replace (Z.to_nat p) with 0%nat by lia. reflexivity.
Qed.

(** The theorem at [dim = -1], [p = 2]: the first assignment to [coords]
    fails. *)
Lemma build_mask_degenerate_witness :
  Fardbits.build_mask (-1) 2 (fun _ => Ok true) = Raise IndexError.
Proof. apply (build_mask_degenerate (-1) 2 (fun _ => Ok true)). lia. Defined.

Section BuildMaskDecode.
Import Fardbits Lex.
Local Open Scope Z_scope.

Lemma filter_map_fst {A : Type} (g : Z -> bool) (h : A -> bool) (l : list (Z * A)) :
  (forall it, In it l -> g (fst it) = h (snd it)) ->
  List.filter g (map fst l) = map fst (List.filter (fun it => h (snd it)) l).
Proof.
  induction l as [|it l IH]; intros H; [reflexivity|]. simpl.
  rewrite (H it) by (by left). rewrite IH by (intros ? ?; apply H; by right).
  by destruct (h (snd it)).
Qed.

Lemma combine_fst_snd {A B : Type} (l : list (A * B)) :
  combine (map fst l) (map snd l) = l.
Proof. induction l as [|[a b] l IH]; simpl; congruence. Qed.

(** The mask that [build_mask] returns lies below [2^(p^dim)], and reading
    it back with [indices_from_bitset] gives the indices of the tuples on
    which the predicate holds, in order. *)
Theorem build_mask_indices (dim p : Z) (f : list Z -> bool) :
  1 <= p -> 0 <= dim ->
  exists mask,
    build_mask dim p (fun x => Ok (f x)) = Ok mask /\
    0 <= mask < 2 ^ (p ^ dim) /\
    indices_from_bitset mask (p ^ dim)
    = map fst (List.filter (fun it => f (snd it))
                 (combine (range (p ^ dim)) (lex_tuples (Z.to_nat dim) p))).
Proof.
  intros Hp Hdim.
  destruct (build_mask_frame_enumerates dim p f Hp Hdim) as (st & Hst & Henum).
  destruct Henum as (Hsnd & Hfst & _ & _ & _ & _ & Hbits).
  exists (bs st). unfold build_mask. rewrite Hst. split; [reflexivity|].
  assert (Hcalls : calls st = combine (range (p ^ dim)) (lex_tuples (Z.to_nat dim) p))
    by (rewrite <- Hfst, <- Hsnd; symmetry; apply combine_fst_snd).
  assert (Hrange : forall i, Z.testbit (bs st) i = true -> 0 <= i < p ^ dim).
  { intros i Hi. apply Hbits in Hi as (t & Hin & _).
    apply (in_map fst) in Hin. rewrite Hfst in Hin. by apply range_In in Hin. }
  assert (Hpow : 0 <= p ^ dim) by (apply Z.pow_nonneg; lia).
  split.
  - assert (Hnn : 0 <= bs st).
    { apply Z.bits_iff_nonneg_ex. exists (p ^ dim). intros m Hm.
      destruct (Z.testbit (bs st) m) eqn:Hb; [|reflexivity].
      apply Hrange in Hb. lia. }
    split; [exact Hnn|].
    destruct (Z.eq_dec (bs st) 0) as [->|Hne]; [apply Z.pow_pos_nonneg; lia|].
    apply Z.log2_lt_pow2; [lia|].
    assert (Hlog : Z.testbit (bs st) (Z.log2 (bs st)) = true)
      by (apply Z.bit_log2; lia).
    apply Hrange in Hlog. lia.
  - rewrite indices_from_bitset_filter, <- Hcalls, <- Hfst.
    apply filter_map_fst. intros [i t] Hin. simpl.
    destruct (f t) eqn:Hf.
    + apply Hbits. eauto.
    + destruct (Z.testbit (bs st) i) eqn:Hb; [|reflexivity].
      apply Hbits in Hb as (t' & Hin' & Hf').
      assert (t' = t); [|congruence].
      assert (Hnd : NoDup (map fst (calls st))).
      { rewrite Hfst. apply (StronglySorted_NoDup Z.lt); [lia | apply range_sorted]. }
      clear -Hin Hin' Hnd. induction (calls st) as [|[j s] l IH]; [destruct Hin|].
      simpl in Hnd. apply NoDup_cons in Hnd as [Hj Hnd].
      destruct Hin as [Hin|Hin], Hin' as [Hin'|Hin'].
      * congruence.
      * exfalso. apply Hj. apply list_elem_of_In.
        apply (in_map fst) in Hin'. simpl in Hin'. congruence.
      * exfalso. apply Hj. apply list_elem_of_In.
        apply (in_map fst) in Hin. simpl in Hin. congruence.
      * by apply IH.
Qed.

End BuildMaskDecode.

(** The theorem over [f2^2] with the predicate "the coordinates are
    equal": the mask is [0b1001], and the indices read back are 0 and 3. *)
Lemma build_mask_indices_witness :
  exists mask,
    Fardbits.build_mask 2 2 (fun x => Ok (bool_decide (x !! 0%nat = x !! 1%nat)))
    = Ok mask /\
    (0 <= mask < 2 ^ (2 ^ 2))%Z /\
    Fardbits.indices_from_bitset mask (2 ^ 2)
    = map fst (List.filter (fun it => bool_decide (snd it !! 0%nat = snd it !! 1%nat))
                 (combine (range (2 ^ 2)) (Lex.lex_tuples (Z.to_nat 2) 2))).
Proof.
  apply (build_mask_indices 2 2 (fun x => bool_decide (x !! 0%nat = x !! 1%nat))); lia.
Defined.

(** ** The validator axis in [compile_to_ir] *)

Section CompilerProofs.
Import Fardbits Lex Parser Ir Compiler.
Local Open Scope Z_scope.

Lemma In_combine_lookup {A B : Type} (l1 : list A) (l2 : list B) (k : nat) (a : A) (b : B) :
  l1 !! k = Some a -> l2 !! k = Some b -> In (a, b) (combine l1 l2).
Proof.
  revert l2 k. induction l1 as [|x l1 IH]; intros [|y l2] [|k]; simpl; try discriminate.
  - intros [= ->] [= ->]. by left.
  - intros H1 H2. right. by apply (IH l2 k).
Qed.

Lemma combine_lookup_unique {B : Type} (l1 : list Z) (l2 : list B) (i : Z) (b b' : B) :
  NoDup l1 -> In (i, b) (combine l1 l2) -> In (i, b') (combine l1 l2) -> b = b'.
Proof.
  revert l2. induction l1 as [|x l1 IH]; intros [|y l2] Hnd; simpl; try tauto.
  apply NoDup_cons in Hnd as [Hx Hnd].
  intros [H1|H1] [H2|H2].
  - congruence.
  - exfalso. apply Hx. apply in_combine_l in H2. apply list_elem_of_In. congruence.
  - exfalso. apply Hx. apply in_combine_l in H1. apply list_elem_of_In. congruence.
  - by apply (IH l2).
Qed.

(** Bit [i] of the mask is the value of the predicate on the tuple of
    index [i]. *)
Lemma build_mask_bits (dim p : Z) (f : list Z -> bool) :
  1 <= p -> 0 <= dim ->
  exists mask,
    build_mask dim p (fun x => Ok (f x)) = Ok mask /\
    forall (i : nat) (t : list Z),
      lex_tuples (Z.to_nat dim) p !! i = Some t ->
      Z.testbit mask (Z.of_nat i) = f t.
Proof.
  intros Hp Hdim.
  destruct (build_mask_frame_enumerates dim p f Hp Hdim) as (st & Hst & Henum).
  destruct Henum as (Hsnd & Hfst & _ & _ & _ & _ & Hbits).
  exists (bs st). unfold build_mask. rewrite Hst. split; [reflexivity|].
  assert (Hcalls : calls st = combine (range (p ^ dim)) (lex_tuples (Z.to_nat dim) p))
    by (rewrite <- Hfst, <- Hsnd; symmetry; apply combine_fst_snd).
  intros i t Hi.
  assert (Hin : In (Z.of_nat i, t) (calls st)).
  { rewrite Hcalls. apply (In_combine_lookup _ _ i); [|exact Hi].
    apply range_lookup. apply lookup_lt_Some in Hi.
    rewrite <- (lex_tuples_length_Z dim p) by lia. lia. }
  destruct (f t) eqn:Hf.
  - apply Hbits. eauto.
  - destruct (Z.testbit (bs st) (Z.of_nat i)) eqn:Hb; [|reflexivity].
    apply Hbits in Hb as (t' & Hin' & Hf').
    assert (t' = t); [|congruence].
    rewrite Hcalls in Hin, Hin'.
    apply (combine_lookup_unique (range (p ^ dim)) (lex_tuples (Z.to_nat dim) p)
             (Z.of_nat i)); [|exact Hin'|exact Hin].
    apply (StronglySorted_NoDup Z.lt); [lia | apply range_sorted].
Qed.

Lemma nth_error_lookup {A : Type} (xs : list A) (k : nat) :
  nth_error xs k = xs !! k.
Proof. revert k. induction xs as [|x xs IH]; intros [|k]; simpl; auto. Qed.

Lemma py_getitem_out_of_range {A : Type} (xs : list A) (i : Z) :
  ~ (- Z.of_nat (length xs) <= i < Z.of_nat (length xs)) ->
  py_getitem xs i = Raise IndexError.
Proof.
  intros Hi. unfold py_getitem, py_index.
  destruct (Z.leb_spec 0 i), (Z.ltb_spec i (Z.of_nat (length xs))),
    (Z.leb_spec (- Z.of_nat (length xs)) i), (Z.ltb_spec i 0);
    cbn [andb bind]; try reflexivity; lia.
Qed.

Lemma py_getitem_in_range {A : Type} (xs : list A) (i : Z) :
  - Z.of_nat (length xs) <= i < Z.of_nat (length xs) ->
  exists x, xs !! Z.to_nat (i mod Z.of_nat (length xs)) = Some x /\
            py_getitem xs i = Ok x.
Proof.
  intros Hi. unfold py_getitem, py_index.
  set (len := Z.of_nat (length xs)) in *.
  assert (Hmod : 0 <= i mod len < len) by (apply Z.mod_pos_bound; lia).
  destruct (lookup_lt_is_Some_2 xs (Z.to_nat (i mod len))) as [x Hx]; [lia|].
  exists x. split; [exact Hx|].
  destruct (Z.leb_spec 0 i), (Z.ltb_spec i len); cbn [andb bind].
  - rewrite Z.mod_small in Hx by lia.
    rewrite <- nth_error_lookup in Hx. by rewrite Hx.
  - lia.
  - destruct (Z.leb_spec (- len) i), (Z.ltb_spec i 0); cbn [andb bind]; try lia.
    replace (i mod len) with (len + i) in Hx.
    + rewrite <- nth_error_lookup in Hx. by rewrite Hx.
    + apply (Z.mod_unique_pos _ _ (-1)); lia.
  - lia.
Qed.

Lemma lex_tuples_head (n : nat) (p : Z) :
  1 <= p -> exists t rest, lex_tuples n p = t :: rest.
Proof.
  intros Hp. induction n as [|n (t & rest & IH)]; [by eexists _, _|].
  cbn [lex_tuples]. unfold range.
  destruct (Z.to_nat p) as [|k] eqn:Hk; [lia|].
  cbn [seq map flat_map]. rewrite IH. by eexists _, _.
Qed.

Lemma compile_step_code (steps : list Step) (bc : list Instr) :
  fold_left compile_step steps bc = bc ++ flat_map step_code steps.
Proof.
  revert bc. induction steps as [|st steps IH]; intros bc; cbn [fold_left flat_map].
  - by rewrite app_nil_r.
  - rewrite IH. unfold step_code at 2. unfold compile_step.
    repeat match goal with |- context [if ?b then _ else _] => destruct b end;
      cbn [app]; rewrite <- ?app_assoc; reflexivity.
Qed.

(** The validator axis is used as a Python index into the tuple.  When it
    lies outside [-dim, dim), so in particular whenever [dim = 0], the
    first call of the validator raises and compilation fails with
    [IndexError]. *)
Theorem compile_to_ir_axis_out_of_range (prog : Program) (axis cval : Z) :
  1 <= p (psi prog) -> 0 <= dim (psi prog) ->
  val_args (val prog) = (axis, cval) ->
  ~ (- dim (psi prog) <= axis < dim (psi prog)) ->
  compile_to_ir prog = Raise IndexError.
Proof.
  intros Hp Hdim Hargs Haxis. unfold compile_to_ir. rewrite Hargs.
  destruct (lex_tuples_head (Z.to_nat (dim (psi prog))) (p (psi prog)) Hp)
    as (t & rest & Hts).
  rewrite (build_mask_propagates _ _ _ [] rest t IndexError); try done.
  assert (Hlen : length t = Z.to_nat (dim (psi prog))).
  { apply (proj1 (proj1 (lex_tuples_In _ (p (psi prog)) t)
                    ltac:(rewrite Hts; by left))). }
  rewrite py_getitem_out_of_range; [reflexivity|]. rewrite Hlen. lia.
Qed.

(** When the axis lies in [-dim, dim), compilation returns [INIT p],
    [INIT dim], [SEED], [VMASK] and then the code of each step in order.
    Bit [i] of the mask tells whether the tuple of index [i] holds [cval]
    at the axis, a negative axis counting from the last coordinate: the
    validator text [x0 = c], whose axis is [-1], constrains the last
    coordinate. *)
Theorem compile_to_ir_axis_in_range (prog : Program) (axis cval : Z) :
  1 <= p (psi prog) ->
  val_args (val prog) = (axis, cval) ->
  - dim (psi prog) <= axis < dim (psi prog) ->
  exists mask,
    compile_to_ir prog =
      Ok ([ {| op := OP_INIT; a := NFloat f_zero; b := NFloat f_zero;
               c := NFloat f_zero; i := p (psi prog) |};
            {| op := OP_INIT; a := NFloat f_zero; b := NInt (dim (psi prog));
               c := NFloat f_zero; i := 0 |};
            mk OP_SEED;
            {| op := OP_VMASK; a := NFloat f_zero; b := NFloat f_zero;
               c := NFloat f_zero; i := mask |} ]
          ++ flat_map step_code (steps prog)) /\
    forall (k : nat) (t : list Z),
      lex_tuples (Z.to_nat (dim (psi prog))) (p (psi prog)) !! k = Some t ->
      Z.testbit mask (Z.of_nat k)
      = bool_decide (t !! Z.to_nat (axis mod dim (psi prog)) = Some cval).
Proof.
  intros Hp Hargs Haxis. unfold compile_to_ir. rewrite Hargs.
  set (f := fun t : list Z =>
              bool_decide (t !! Z.to_nat (axis mod dim (psi prog)) = Some cval)).
  rewrite (build_mask_ext _ _ _ (fun x => Ok (f x))); [|lia|].
  - destruct (build_mask_bits (dim (psi prog)) (p (psi prog)) f) as (mask & -> & Hbits);
      [lia | lia |].
    exists mask. cbn [bind]. split; [|exact Hbits].
    rewrite compile_step_code. reflexivity.
  - intros t Hlen _.
    destruct (py_getitem_in_range t axis) as (x & Hx & ->); [lia|].
    cbn [bind]. f_equal. unfold f. rewrite Hlen, Z2Nat.id in Hx by lia.
    rewrite Hx. destruct (Z.eqb_spec x cval) as [->|Hne].
    + by rewrite bool_decide_eq_true_2.
    + rewrite bool_decide_eq_false_2; [reflexivity|congruence].
Qed.

End CompilerProofs.

(** The first theorem at [f3^2] with the validator text [x3 = 0], whose
    axis is 2. *)
Lemma compile_to_ir_axis_out_of_range_witness :
  Compiler.compile_to_ir
    {| Parser.psi := {| Parser.p := 3; Parser.dim := 2 |};
       Parser.val := {| Parser.kind := "x_eq_const"; Parser.val_args := (2, 0)%Z |};
       Parser.steps := [] |}
  = Raise IndexError.
Proof.
  apply (compile_to_ir_axis_out_of_range _ 2 0); simpl; [lia | lia | reflexivity | lia].
Defined.

(** The second theorem at [f2^2] with the validator text [x0 = 1], whose
    axis is -1: the mask is [0b1010], the tuples [(0,1)] and [(1,1)]. *)
Lemma compile_to_ir_axis_in_range_witness :
  let prog :=
    {| Parser.psi := {| Parser.p := 2; Parser.dim := 2 |};
       Parser.val := {| Parser.kind := "x_eq_const"; Parser.val_args := (-1, 1)%Z |};
       Parser.steps := [ {| Parser.st_op := "goal"; Parser.st_args := [] |} ] |} in
  Compiler.compile_to_ir prog =
    Ok [ {| Ir.op := 1; Ir.a := NFloat f_zero; Ir.b := NFloat f_zero;
            Ir.c := NFloat f_zero; Ir.i := 2 |};
         {| Ir.op := 1; Ir.a := NFloat f_zero; Ir.b := NInt 2;
            Ir.c := NFloat f_zero; Ir.i := 0 |};
         Ir.mk 2;
         {| Ir.op := 3; Ir.a := NFloat f_zero; Ir.b := NFloat f_zero;
            Ir.c := NFloat f_zero; Ir.i := 10 |};
         Ir.mk 6; Ir.mk 7 ] /\
  exists mask,
    Compiler.compile_to_ir prog =
      Ok ([ {| Ir.op := Ir.OP_INIT; Ir.a := NFloat f_zero; Ir.b := NFloat f_zero;
               Ir.c := NFloat f_zero; Ir.i := 2 |};
            {| Ir.op := Ir.OP_INIT; Ir.a := NFloat f_zero; Ir.b := NInt 2;
               Ir.c := NFloat f_zero; Ir.i := 0 |};
            Ir.mk Ir.OP_SEED;
            {| Ir.op := Ir.OP_VMASK; Ir.a := NFloat f_zero; Ir.b := NFloat f_zero;
               Ir.c := NFloat f_zero; Ir.i := mask |} ]
          ++ flat_map step_code (Parser.steps prog)) /\
    forall (k : nat) (t : list Z),
      Lex.lex_tuples (Z.to_nat 2) 2 !! k = Some t ->
      Z.testbit mask (Z.of_nat k)
      = bool_decide (t !! Z.to_nat (-1 mod 2) = Some 1%Z).
Proof.
  intros prog. split; [by vm_compute|].
  apply (compile_to_ir_axis_in_range prog (-1) 1); simpl; [lia | reflexivity | lia].
Defined.

(** ** The assembler on arbitrary instructions *)

Section AssemblerProofs.
Import Ir Asm Struct Layout Operands.
Local Open Scope Z_scope.

Lemma concat_empty_cons (x : string) (xs : list string) :
  String.concat "" (x :: xs) = (x ++ String.concat "" xs)%string.
Proof.
  destruct xs as [|y ys]; cbn [String.concat]; [by rewrite append_empty_r | reflexivity].
Qed.

Lemma string_app_assoc (x y z : string) :
  ((x ++ y) ++ z)%string = (x ++ (y ++ z))%string.
Proof.
  induction x as [|ch x IH]; [reflexivity|].
  change ((String ch x ++ y) ++ z)%string with (String ch ((x ++ y) ++ z)%string).
  change (String ch x ++ (y ++ z))%string with (String ch (x ++ (y ++ z))%string).
  by rewrite IH.
Qed.

Lemma concat_empty_app (xs ys : list string) :
  String.concat "" (xs ++ ys)
  = (String.concat "" xs ++ String.concat "" ys)%string.
Proof.
  induction xs as [|x xs IH]; [reflexivity|].
  change ((x :: xs) ++ ys)%list with (x :: (xs ++ ys))%list.
  rewrite !concat_empty_cons, IH. by rewrite string_app_assoc.
Qed.

Lemma chunks_from_acc (bc : list Instr) (chunks : list string) :
  chunks_from bc chunks = (r <- chunks_from bc [] ;; Ok (chunks ++ r)%list).
Proof.
  revert chunks. induction bc as [|ins bc IH]; intros chunks; cbn [chunks_from bind].
  - by rewrite app_nil_r.
  - destruct (record ins) as [blob|e]; cbn [bind]; [|reflexivity].
    rewrite (IH (chunks ++ _)%list), (IH ([] ++ _)%list).
    destruct (chunks_from bc []) as [r|e]; cbn [bind]; [|reflexivity].
    by rewrite <- app_assoc.
Qed.

Lemma chunks_from_app (bc1 bc2 : list Instr) (chunks : list string) :
  chunks_from (bc1 ++ bc2) chunks
  = (c1 <- chunks_from bc1 chunks ;; chunks_from bc2 c1).
Proof.
  revert chunks. induction bc1 as [|ins bc1 IH]; intros chunks; [reflexivity|].
  cbn [app chunks_from]. destruct (record ins) as [blob|e]; cbn [bind]; [|reflexivity].
  apply IH.
Qed.

(** The binary form of a concatenation is the concatenation of the binary
    forms: records do not depend on their position.  When one of the two
    parts fails, the whole fails with the exception of the first part that
    does. *)
Theorem to_bytes_app (bc1 bc2 : list Instr) :
  to_bytes (bc1 ++ bc2)
  = (s1 <- to_bytes bc1 ;; s2 <- to_bytes bc2 ;; Ok (s1 ++ s2)%string).
Proof.
  unfold to_bytes. rewrite chunks_from_app.
  destruct (chunks_from bc1 []) as [c1|e]; cbn [bind]; [|reflexivity].
  rewrite chunks_from_acc.
  destruct (chunks_from bc2 []) as [c2|e]; cbn [bind]; [|reflexivity].
  by rewrite concat_empty_app.
Qed.

Lemma py_float_error (x : num) (e : exn) :
  py_float x = Raise e -> e = OverflowError.
Proof.
  destruct x as [z|f]; cbn [py_float]; [|discriminate].
  destruct (binary_normalize 53 1024 z 0 false); congruence.
Qed.

Lemma float32_bits_error (x : num) (e : exn) :
  float32_bits x = Raise e -> e = OverflowError.
Proof.
  unfold float32_bits. destruct (py_float x) as [f|e'] eqn:Hf; cbn [bind].
  - destruct f; cbn [to_binary32]; try discriminate.
    destruct (binary_round 24 128 s m e0); congruence.
  - intros [= <-]. by apply py_float_error in Hf.
Qed.

Lemma record_error (ins : Instr) (e : exn) :
  record ins = Raise e -> e = StructError \/ e = OverflowError.
Proof.
  unfold record.
  destruct (py_float (a ins)) as [fa|e1] eqn:Ha; cbn [bind];
    [|intros [= <-]; right; by apply py_float_error in Ha].
  destruct (py_float (b ins)) as [fb|e1] eqn:Hb; cbn [bind];
    [|intros [= <-]; right; by apply py_float_error in Hb].
  destruct (py_float (c ins)) as [fc|e1] eqn:Hc; cbn [bind];
    [|intros [= <-]; right; by apply py_float_error in Hc].
  unfold pack. cbn [fields]. unfold field. cbn [Ascii.eqb Bool.eqb].
  unfold uint_field.
  repeat match goal with
  | |- context [if ?b then _ else _] => destruct b; cbn [bind]
  | |- context [float32_bits ?x] =>
    let H := fresh in destruct (float32_bits x) eqn:H; cbn [bind];
    [|apply float32_bits_error in H]
  end; try discriminate; intros [= <-]; auto.
Qed.

Lemma record_ok_packable (ins : Instr) : is_ok (record ins) = packable ins.
Proof.
  destruct (packable ins) eqn:Hp.
  - by destruct (record_packable ins Hp) as [rec ->].
  - destruct (record ins) as [rec|e] eqn:Hrec; [|reflexivity].
    apply record_layout in Hrec as [(za & zb & zc & Hza & Hzb & Hzc & Ho & _) _].
    unfold packable in Hp. rewrite Hza, Hzb, Hzc in Hp. cbn [is_ok] in Hp.
    rewrite !andb_true_r in Hp.
    apply andb_false_iff in Hp as [Hp|Hp];
      [apply Z.leb_gt in Hp | apply Z.ltb_ge in Hp]; lia.
Qed.

Lemma chunks_from_outcome (bc : list Instr) (chunks : list string) :
  match chunks_from bc chunks with
  | Ok _ => forallb packable bc = true
  | Raise e => forallb packable bc = false /\ (e = StructError \/ e = OverflowError)
  end.
Proof.
  revert chunks. induction bc as [|ins bc IH]; intros chunks; cbn [chunks_from forallb].
  - reflexivity.
  - rewrite <- record_ok_packable.
    destruct (record ins) as [blob|e] eqn:Hrec; cbn [bind is_ok andb].
    + apply IH.
    + split; [reflexivity|]. by apply record_error in Hrec.
Qed.

Lemma to_bytes_length (bc : list Instr) (s : string) :
  to_bytes bc = Ok s -> String.length s = (42 * length bc)%nat.
Proof.
  unfold to_bytes. intros H. apply bind_Ok in H as (chunks & Hch & [= <-]).
  apply chunks_from_records in Hch as (recs & Hrecs & ->). cbn [app].
  rewrite concat_hexlify, hexlify_length.
  assert (Hlen : length (concat recs) = (21 * length bc)%nat); [|lia].
  induction Hrecs as [|ins rec bc recs Hrec _ IH]; [reflexivity|].
  apply record_layout in Hrec as [_ Hrec].
  cbn [concat length]. rewrite length_app, Hrec, IH. lia.
Qed.

(** [to_bytes] returns exactly when every instruction has an opcode in
    [0 .. 255] and operands [a], [b], [c] that convert to single precision;
    otherwise it raises [struct.error] or [OverflowError]. *)
Theorem to_bytes_succeeds_iff (bc : list Instr) :
  match to_bytes bc with
  | Ok s => forallb packable bc = true /\ String.length s = (42 * length bc)%nat
  | Raise e => forallb packable bc = false /\ (e = StructError \/ e = OverflowError)
  end.
Proof.
  pose proof (chunks_from_outcome bc []) as H.
  destruct (to_bytes bc) as [s|e] eqn:Hs.
  - split; [|by apply to_bytes_length].
    unfold to_bytes in Hs. by destruct (chunks_from bc []).
  - unfold to_bytes in Hs. destruct (chunks_from bc []); [discriminate|].
    cbn [bind] in Hs. by injection Hs as <-.
Qed.

Section Listing.
Variable repr_float : spec_float -> string.

Lemma line_outcome (k : nat) (ins : Instr) :
  if init_dim_infinite ins then line repr_float k ins = Raise OverflowError
  else exists l, line repr_float k ins = Ok l.
Proof.
  unfold init_dim_infinite, line.
  destruct (op ins =? OP_INIT) eqn:Hop; cbn [andb]; [|].
  - destruct (0 <? i ins) eqn:Hi; cbn [andb negb]; [eauto|].
    destruct (b ins) as [z|f]; cbn [num_pos py_int_of_num].
    + destruct (0 <? z); cbn [bind]; [eauto|].
      repeat match goal with |- context [if ?b then _ else _] => destruct b end; eauto.
    + destruct f as [s|[]|  |s m e]; cbn [SFltb SFcompare f_zero bind];
        repeat match goal with |- context [if ?b then _ else _] => destruct b end;
        eauto.
  - repeat match goal with |- context [if ?b then _ else _] => destruct b end; eauto.
Qed.

Lemma lines_from_outcome (bc : list Instr) :
  forall k out,
    if existsb init_dim_infinite bc
    then lines_from repr_float k bc out = Raise OverflowError
    else exists res, lines_from repr_float k bc out = Ok res.
Proof.
  induction bc as [|ins bc IH]; intros k out; cbn [existsb lines_from]; [eauto|].
  pose proof (line_outcome k ins) as Hl.
  destruct (init_dim_infinite ins); cbn [orb].
  - rewrite Hl. reflexivity.
  - destruct Hl as [l ->]. cbn [bind]. apply IH.
Qed.


End Listing.
End AssemblerProofs.

(** ** The canonical form *)

Section CanonicalFormProofs.
Import Asc7 Canon CanonForm.
Local Open Scope N_scope.

Variables (lower : N -> ustr) (isspace : N -> bool).
Hypothesis facts : unicode_facts lower isspace.

Lemma fixed_by_map_not_key (c : N) :
  dict_get _ASC7_MAP c c = c -> is_key c = false.
Proof.
  intros H. unfold is_key. cbn [existsb _ASC7_MAP fst].
  unfold _ASC7_MAP in H. cbn [dict_get] in H.
  repeat match goal with
  | |- context [N.eqb c ?k] =>
    let E := fresh in
    destruct (N.eqb_spec c k) as [E|E];
    [rewrite E in H; vm_compute in H; discriminate|]
  end.
  reflexivity.
Qed.

Lemma In_join_intro (sep x : ustr) (l : list ustr) (c : N) :
  In x l -> In c x -> In c (join sep l).
Proof.
  induction l as [|y l IH]; intros Hx Hc; [destruct Hx|].
  destruct l as [|z l].
  - destruct Hx as [->|[]]. exact Hc.
  - rewrite join_cons by done. destruct Hx as [->|Hx].
    + apply in_or_app. by left.
    + apply in_or_app. right. apply in_or_app. right. by apply IH.
Qed.

Lemma keep_spec (ln : ustr) :
  keep ln = true <-> ln <> [] /\ startswith (u "//") ln = false.
Proof.
  unfold keep, ueqb. rewrite andb_true_iff, !negb_true_iff.
  rewrite bool_decide_eq_false. reflexivity.
Qed.

Lemma line_ok_canonical (ln : ustr) :
  line_ok lower isspace ln <-> canonical_line lower isspace ln.
Proof.
  split.
  - intros Hok. pose proof Hok as (words & -> & Hwords & Hchars & Hkeep).
    apply keep_spec in Hkeep as [Hne Hcom].
    split; [exact Hne|]. split; [exact Hcom|]. split; [by exists words|].
    apply List.Forall_forall. intros c Hc.
    destruct (line_ok_chars lower isspace facts _ c Hok Hc) as [[Hmap Hlow] Hlf].
    split; [exact Hlf|]. split; [by apply fixed_by_map_not_key | exact Hlow].
  - intros (Hne & Hcom & (words & -> & Hwords) & Hchars).
    exists words. split; [reflexivity|]. split; [exact Hwords|]. split.
    + apply List.Forall_forall. intros w Hw. apply List.Forall_forall. intros c Hc.
      rewrite List.Forall_forall in Hchars.
      destruct (Hchars c (In_join_intro _ w words c Hw Hc)) as (Hlf & Hkey & Hlow).
      split; [|exact Hlf]. split; [by apply dict_get_not_key | exact Hlow].
    + by apply keep_spec.
Qed.

(** The shape of what [canonicalize] returns: lines separated by single
    line feeds, none empty, none a comment, each made of words separated
    by single spaces, and no character that the map replaces or that
    lowercasing changes. *)
Theorem canonicalize_form (source : ustr) :
  exists lines,
    canonicalize lower isspace source = join [10] lines /\
    Forall (canonical_line lower isspace) lines.
Proof.
  eexists. split; [apply canonicalize_eq|].
  eapply Forall_impl; [apply (canonical_lines lower isspace facts)|].
  intros ln. apply line_ok_canonical.
Qed.

(** Conversely, a text of that shape is left as it is: the texts in
    canonical form are the fixed points of [canonicalize]. *)
Theorem canonicalize_fixed_point (lines : list ustr) :
  Forall (canonical_line lower isspace) lines ->
  canonicalize lower isspace (join [10] lines) = join [10] lines.
Proof.
  intros Hlines. apply (canonicalize_canonical lower isspace facts).
  eapply Forall_impl; [exact Hlines|]. intros ln. apply line_ok_canonical.
Qed.

(** *** Line by line *)

Lemma stage1_app (s t : ustr) :
  stage1 lower (s ++ t) = stage1 lower s ++ stage1 lower t.
Proof. unfold stage1. apply flat_map_app. Qed.

Lemma split_on_app_line (c : N) (s t : ustr) :
  split_on c (s ++ c :: t) = split_on c s ++ split_on c t.
Proof.
  induction s as [|x s IH]; cbn [app split_on].
  - by rewrite N.eqb_refl.
  - rewrite IH. destruct (N.eqb x c); [reflexivity|].
    pose proof (split_on_nonempty c s) as Hne.
    by destruct (split_on c s).
Qed.

Lemma join_nonempty (lines : list ustr) :
  Forall (fun ln => ln <> []) lines -> lines <> [] -> join [10] lines <> [].
Proof.
  intros Hall Hne. destruct lines as [|ln lines]; [done|].
  apply Forall_cons in Hall as [Hln _].
  destruct lines as [|ln' lines]; [exact Hln|].
  rewrite join_cons by done. by destruct ln.
Qed.

Lemma join_app_stack (l1 l2 : list ustr) :
  Forall (fun ln => ln <> []) l1 -> Forall (fun ln => ln <> []) l2 ->
  join [10] (l1 ++ l2) = stack (join [10] l1) (join [10] l2).
Proof.
  intros H1 H2. destruct l2 as [|b l2].
  - rewrite app_nil_r. cbn [join]. unfold stack. by destruct (join [10] l1).
  - pose proof (join_nonempty (b :: l2) H2 ltac:(done)) as Hb.
    set (J := join [10] (b :: l2)) in *.
    induction l1 as [|a l1 IH].
    + reflexivity.
    + apply Forall_cons in H1 as [Ha H1].
      change ((a :: l1) ++ b :: l2) with (a :: (l1 ++ b :: l2)).
      rewrite join_cons by (by destruct l1). rewrite (IH H1).
      destruct l1 as [|a' l1].
      * cbn [join]. unfold stack.
        destruct a; [done|]. by destruct J.
      * pose proof (join_nonempty (a' :: l1) H1 ltac:(done)) as Ha'.
        rewrite (join_cons [10] a (a' :: l1)) by done.
        unfold stack.
        destruct (join [10] (a' :: l1)) as [|x1 r1] eqn:E1; [done|].
        destruct J as [|x2 r2]; [done|].
        destruct a as [|x0 r0]; [done|].
        cbn [app]. rewrite <- !app_assoc. reflexivity.
Qed.

Lemma kept_nonempty (pieces : list ustr) :
  Forall (fun ln => ln <> []) (List.filter keep (map (norm isspace) pieces)).
Proof.
  apply List.Forall_forall. intros ln Hln.
  apply filter_In in Hln as [_ Hk]. by apply keep_spec in Hk as [? _].
Qed.

(** [canonicalize] works line by line: the canonical form of two texts
    put one above the other is the canonical forms put one above the
    other, a text that canonicalizes to nothing (blank lines, comments)
    contributing no line. *)
Theorem canonicalize_line_by_line (s t : ustr) :
  canonicalize lower isspace (s ++ [10] ++ t)
  = stack (canonicalize lower isspace s) (canonicalize lower isspace t).
Proof.
  rewrite !canonicalize_eq. rewrite stage1_app.
  change (stage1 lower ([10] ++ t)) with (lower 10 ++ stage1 lower t).
  rewrite (lower_line_feed _ _ facts). cbn [app].
  rewrite split_on_app_line, map_app, List.filter_app.
  apply join_app_stack; apply kept_nonempty.
Qed.

End CanonicalFormProofs.

(** The first theorem with the ASCII tables, at the untidy text. *)
Lemma canonicalize_form_witness :
  exists lines,
    Asc7.canonicalize AsciiText.lower AsciiText.isspace untidy_source
    = join [10%N] lines /\
    Forall (CanonForm.canonical_line AsciiText.lower AsciiText.isspace) lines.
Proof.
  exact (canonicalize_form AsciiText.lower AsciiText.isspace ascii_unicode_facts
           untidy_source).
Defined.

(** The second theorem with the ASCII tables, at the two lines
    [psi :: f3^3] and [grad x]. *)
Lemma canonicalize_fixed_point_witness :
  Asc7.canonicalize AsciiText.lower AsciiText.isspace
    (join [10%N] [u "psi :: f3^3"; u "grad x"])
  = join [10%N] [u "psi :: f3^3"; u "grad x"].
Proof.
  apply (canonicalize_fixed_point AsciiText.lower AsciiText.isspace ascii_unicode_facts).
  repeat constructor; try discriminate;
    try (by exists [u "psi"; u "::"; u "f3^3"]; split; [reflexivity|];
            repeat constructor; discriminate);
    try (by exists [u "grad"; u "x"]; split; [reflexivity|];
            repeat constructor; discriminate).
Defined.

(** The third theorem with the ASCII tables, at a header line above a
    comment and a step. *)
Lemma canonicalize_line_by_line_witness :
  Asc7.canonicalize AsciiText.lower AsciiText.isspace
    (u "PSI :: F3^3" ++ [10%N] ++ (u "// note" ++ [10%N] ++ u "Grad"))
  = CanonForm.stack
      (Asc7.canonicalize AsciiText.lower AsciiText.isspace (u "PSI :: F3^3"))
      (Asc7.canonicalize AsciiText.lower AsciiText.isspace
         (u "// note" ++ [10%N] ++ u "Grad")).
Proof.
  exact (canonicalize_line_by_line AsciiText.lower AsciiText.isspace
           ascii_unicode_facts (u "PSI :: F3^3") (u "// note" ++ [10%N] ++ u "Grad")).
Defined.

(** ** Packing Python modules: [PyToZ], [z_to_py] and the evaluator *)

Section PackProofs.
Import MiniCC PyAst CollapsePack CollapseUnpack Subset.

(** [z] is [z0] wrapped in a [LET] for each binding, the first binding
    outermost. *)
Inductive chain : list (string * expr) -> ZNode -> ZNode -> Prop :=
  | chain_nil (z0 : ZNode) : chain [] z0 z0
  | chain_cons (b : string * expr) (bs : list (string * expr)) (z0 z val : ZNode) :
      visit (snd b) = Ok val -> chain bs z0 z ->
      chain (b :: bs) z0 (Node LET [val; z] (meta_name (fst b))).

Lemma wrap_assign (b : string * expr) (z : ZNode) :
  wrap_let (assign b) z
  = (val <- visit (snd b) ;; Ok (Node LET [val; z] (meta_name (fst b)))).
Proof. reflexivity. Qed.

Lemma wrap_chain (bs : list (string * expr)) :
  Forall (fun b => exists val, visit (snd b) = Ok val) bs ->
  forall z0, exists z,
    for_each (rev (map assign bs)) wrap_let z0 = Ok z /\ chain bs z0 z.
Proof.
  induction bs as [|b bs IH]; intros Hbs z0.
  - exists z0. split; [reflexivity | constructor].
  - apply Forall_cons in Hbs as [[val Hval] Hbs].
    destruct (IH Hbs z0) as (z & Hz & Hchain).
    exists (Node LET [val; z] (meta_name (fst b))). split.
    + cbn [map rev]. rewrite for_each_app, Hz. cbn [bind for_each].
      rewrite wrap_assign, Hval. reflexivity.
    + by constructor.
Qed.

Lemma visit_Module_program (bs : list (string * expr)) (final : expr) :
  visit_Module (program bs final)
  = (z0 <- visit final ;; for_each (rev (map assign bs)) wrap_let z0).
Proof.
  unfold visit_Module, program. rewrite rev_app_distr. reflexivity.
Qed.

(** *** The text that [z_to_py] writes *)

Lemma visit_core_text (e : expr) :
  core e ->
  exists z, visit e = Ok z /\ forall acc, t z acc = (Ok (show_expr e), acc).
Proof.
  induction 1 as [z|id|l r _ (zl & Hl & Htl) _ (zr & Hr & Htr)
                 |l r _ (zl & Hl & Htl) _ (zr & Hr & Htr)
                 |f a _ (za & Ha & Hta)].
  - eexists. split; [reflexivity|]. intros acc. reflexivity.
  - eexists. split; [reflexivity|]. intros acc. reflexivity.
  - eexists. split; [cbn [visit]; rewrite Hl, Hr; reflexivity|].
    intros acc. cbn [t znode]. unfold t_bind. rewrite Htl, Htr. reflexivity.
  - eexists. split; [cbn [visit]; rewrite Hl, Hr; reflexivity|].
    intros acc. cbn [t znode]. unfold t_bind. rewrite Htl, Htr. reflexivity.
  - eexists. split; [cbn [visit]; rewrite Ha; reflexivity|].
    intros acc. cbn [t znode]. unfold t_bind.
    cbn [t_lift meta_get meta_name m_name]. rewrite Hta. reflexivity.
Qed.

Lemma chain_text (bs : list (string * expr)) (z0 z : ZNode) :
  chain bs z0 z -> Forall (fun b => core (snd b)) bs ->
  forall acc, t z acc = t z0 (acc ++ map show_stmt (map assign bs)).
Proof.
  induction 1 as [z0|b bs z0 z val Hval _ IH]; intros Hbs acc.
  - by rewrite app_nil_r.
  - apply Forall_cons in Hbs as [Hb Hbs].
    destruct (visit_core_text _ Hb) as (val' & Hval' & Htext).
    assert (val' = val) as -> by congruence.
    cbn [t]. unfold t_bind at 1. cbn [t_lift meta_get meta_name m_name].
    unfold t_bind at 1. rewrite Htext. unfold t_bind, append.
    rewrite (IH Hbs). cbn [map]. rewrite <- app_assoc. reflexivity.
Qed.


(** *** Statements that are dropped *)

Lemma wrap_let_other (st : stmt) (z : ZNode) :
  single_assign st = false -> wrap_let st z = Ok z.
Proof.
  destruct st as [e|targets v|]; try reflexivity.
  destruct targets as [|tg [|tg' targets]]; try reflexivity. discriminate.
Qed.

Lemma for_each_wrap_filter (sts : list stmt) (z : ZNode) :
  for_each (List.filter single_assign sts) wrap_let z = for_each sts wrap_let z.
Proof.
  revert z. induction sts as [|st sts IH]; intros z; [reflexivity|].
  cbn [List.filter]. destruct (single_assign st) eqn:Hst; cbn [for_each].
  - destruct (wrap_let st z); cbn [bind]; [apply IH | reflexivity].
  - rewrite (wrap_let_other _ _ Hst). cbn [bind]. apply IH.
Qed.

(** Before the last statement, [visit_Module] looks at the assignments with
    a single target only.  Every other statement (an expression statement,
    an assignment to several targets, any other kind of statement) is
    skipped without an error: the module is packed as if it were not there. *)
Theorem visit_Module_skips_statements (before : list stmt) (last : stmt) :
  visit_Module (before ++ [last])
  = visit_Module (List.filter single_assign before ++ [last]).
Proof.
  unfold visit_Module. rewrite !rev_app_distr. cbn [rev app].
  rewrite <- List.filter_rev.
  destruct (match last with
            | Expr value => visit value
            | Assign [target] value =>
              nm <- _name_of target ;;
              val <- visit value ;;
              Ok (znode LET [val; znode VAR [] (meta_name nm)] (meta_name nm))
            | _ => Raise (SyntaxError "last stmt must be expr or single assignment")
            end) as [z|e]; cbn [bind]; [|reflexivity].
  symmetry. apply for_each_wrap_filter.
Qed.

(** *** The value of a packed module *)

Section Values.
Variable value : Type.
Variable vint : Z -> value.
Variable is_None : value -> bool.
Variables py_add py_mul py_call : value -> value -> res value.

Abbreviation eval' := (eval value vint is_None py_add py_mul py_call).
Abbreviation eval_expr' := (eval_expr value vint py_add py_mul py_call).
Abbreviation exec_module' := (exec_module value vint py_add py_mul py_call).

(** Evaluation never adds a binding to the environment and never removes
    or changes a binding to a value other than [None], whether it returns
    or raises, whatever the node and the environment: the names that a run
    can lose are those bound to [None]. *)
Theorem eval_only_shrinks_environment (n : ZNode) (E : gmap string value) :
  Env.shrinks value is_None E (snd (eval' n E)).
Proof. apply eval_shrinks. Qed.

Lemma visit_core_eval (e : expr) :
  core e ->
  exists z, visit e = Ok z /\ forall E, eval' z E = (eval_expr' E e, E).
Proof.
  induction 1 as [z|id|l r _ (zl & Hl & Hel) _ (zr & Hr & Her)
                 |l r _ (zl & Hl & Hel) _ (zr & Hr & Her)
                 |f a _ (za & Ha & Hea)].
  - eexists. split; [reflexivity|]. intros E. reflexivity.
  - eexists. split; [reflexivity|]. intros E. cbn [eval znode eval_expr].
    unfold bindM, lift, env_get. cbn [meta_get meta_name m_name].
    by destruct (E !! id).
  - eexists. split; [cbn [visit]; rewrite Hl, Hr; reflexivity|].
    intros E. cbn [eval znode eval_expr]. unfold bindM. rewrite Hel.
    destruct (eval_expr' E l) as [x|e]; cbn [bind]; [|reflexivity].
    rewrite Her. destruct (eval_expr' E r) as [y|e]; cbn [bind]; reflexivity.
  - eexists. split; [cbn [visit]; rewrite Hl, Hr; reflexivity|].
    intros E. cbn [eval znode eval_expr]. unfold bindM. rewrite Hel.
    destruct (eval_expr' E l) as [x|e]; cbn [bind]; [|reflexivity].
    rewrite Her. destruct (eval_expr' E r) as [y|e]; cbn [bind]; reflexivity.
  - eexists. split; [cbn [visit]; rewrite Ha; reflexivity|].
    intros E. cbn [eval znode eval_expr]. unfold bindM, lift, env_get, ret, raise.
    cbn [meta_get meta_name m_name].
    destruct (E !! f) as [fv|]; cbn [bind]; [|reflexivity].
    rewrite Hea. destruct (eval_expr' E a) as [y|e]; cbn [bind]; reflexivity.
Qed.

Hypothesis vint_not_None : forall z, is_None (vint z) = false.
Hypothesis py_add_not_None : forall x y v, py_add x y = Ok v -> is_None v = false.
Hypothesis py_mul_not_None : forall x y v, py_mul x y = Ok v -> is_None v = false.
Hypothesis py_call_not_None : forall f x v, py_call f x = Ok v -> is_None v = false.

Lemma eval_expr_not_None (e : expr) (E : gmap string value) (v : value) :
  core e -> Env.None_free value is_None E ->
  eval_expr' E e = Ok v -> is_None v = false.
Proof.
  intros He Hfree. destruct He as [z|id|l r _ _|l r _ _|f a _]; cbn [eval_expr].
  - intros [= <-]. apply vint_not_None.
  - destruct (E !! id) as [w|] eqn:Hid; [|discriminate].
    intros [= <-]. by apply (Hfree id).
  - intros H. apply bind_Ok in H as (x & _ & H). apply bind_Ok in H as (y & _ & H).
    by apply py_add_not_None in H.
  - intros H. apply bind_Ok in H as (x & _ & H). apply bind_Ok in H as (y & _ & H).
    by apply py_mul_not_None in H.
  - intros H. apply bind_Ok in H as (x & _ & H). apply bind_Ok in H as (y & _ & H).
    by apply py_call_not_None in H.
Qed.

Lemma None_free_insert (E : gmap string value) (k : string) (v : value) :
  Env.None_free value is_None E -> is_None v = false ->
  Env.None_free value is_None (<[k := v]> E).
Proof.
  intros Hfree Hv k' v' Hk'. destruct (decide (k' = k)) as [->|Hne].
  - rewrite lookup_insert_eq in Hk'. by injection Hk' as <-.
  - rewrite lookup_insert_ne in Hk' by done. by apply (Hfree k').
Qed.

Lemma chain_eval (bs : list (string * expr)) (final : expr) (z0 z : ZNode) :
  chain bs z0 z -> Forall (fun b => core (snd b)) bs ->
  (forall E, eval' z0 E = (eval_expr' E final, E)) ->
  forall E, Env.None_free value is_None E ->
    eval' z E = (exec_module' E (program bs final), E).
Proof.
  intros Hchain Hbs H0.
  induction Hchain as [z0|[nm e] bs z0 z val Hval _ IH]; intros E Hfree.
  - apply H0.
  - apply Forall_cons in Hbs as [Hb Hbs]. cbn [fst snd] in *.
    destruct (visit_core_eval _ Hb) as (val' & Hval' & Heval).
    assert (val' = val) as -> by congruence.
    unfold program. cbn [map app assign fst snd exec_module].
    fold (program bs final).
    cbn [eval]. unfold bindM at 1. cbn [lift meta_get meta_name m_name].
    unfold bindM at 1. rewrite Heval.
    destruct (eval_expr' E e) as [x|err] eqn:Hx; cbn [bind]; [|reflexivity].
    assert (Hxn : is_None x = false) by (by apply (eval_expr_not_None e E)).
    unfold bindM, env_get, env_set, try_finally.
    rewrite (IH Hbs H0 _ (None_free_insert _ nm _ Hfree Hxn)).
    unfold old_is_None. destruct (E !! nm) as [old|] eqn:Hold.
    + rewrite (Hfree nm old Hold). unfold env_set.
      rewrite insert_insert_eq, (insert_id E nm old Hold). reflexivity.
    + unfold env_del. rewrite lookup_insert_eq.
      rewrite delete_insert_eq, (delete_id E nm Hold). reflexivity.
Qed.


End Values.
End PackProofs.


(** The concrete values are never [None] unless the caller binds a name to
    it. *)
Lemma concrete_call_not_None (f x v : MiniCC.value) :
  MiniCC.py_call f x = Ok v -> MiniCC.is_None v = false.
Proof.
  destruct f as [a| |f]; cbn [MiniCC.py_call]; try discriminate.
  destruct f, x; cbn [MiniCC.call_fn]; try discriminate;
    repeat match goal with |- context [if ?b then _ else _] => destruct b end;
    try discriminate; by intros [= <-].
Qed.


(** ** The canonical bytes of a node and the packer of Python modules *)

Section CanonProofs.
Import MiniCC CollapseUnpack Canonical Json.
Local Open Scope string_scope.

(** The object that [to_canon] writes for a node, as it is read back. *)
Fixpoint node_json (z : ZNode) : json :=
  let 'Node op args meta := z in
  JDict [ ("args", JList (map node_json args));
          ("meta", meta_json meta);
          ("op", JStr (op_name op)) ].

Lemma sort_meta_json (m : Meta) : sort_keys (meta_json m) = meta_json m.
Proof. destruct m as [[v|] [n|]]; reflexivity. Qed.

Lemma sort_written (s : string) (l : list json) (m : json) :
  sort_keys (JDict [("op", JStr s); ("args", JList l); ("meta", m)])
  = JDict [("args", JList (map sort_keys l)); ("meta", sort_keys m); ("op", JStr s)].
Proof. reflexivity. Qed.

Lemma sort_read (s : string) (l : list json) (m : json) :
  sort_keys (JDict [("args", JList l); ("meta", m); ("op", JStr s)])
  = JDict [("args", JList (map sort_keys l)); ("meta", sort_keys m); ("op", JStr s)].
Proof. reflexivity. Qed.

Lemma sort_node_json (z : ZNode) : sort_keys (node_json z) = node_json z.
Proof.
  induction z as [op args meta IH] using ZNode_ind'.
  cbn [node_json]. rewrite sort_read, sort_meta_json.
  assert (Hargs : map sort_keys (map node_json args) = map node_json args).
  { induction IH as [|a args Ha _ IHargs]; [reflexivity|].
    cbn [map]. by rewrite Ha, IHargs. }
  rewrite Hargs. reflexivity.
Qed.

Lemma zop_of_op_name (op : ZOp) : zop_of_name (op_name op) = Ok op.
Proof. by destruct op. Qed.

Lemma meta_of_meta_json (m : Meta) :
  meta_of_json (Some (meta_json m)) = Ok m.
Proof. destruct m as [[v|] [n|]]; reflexivity. Qed.

(** [z_from_dict] reads a node back from the object written for it. *)
Lemma z_from_node_json (z : ZNode) : z_from_dict (node_json z) = Ok z.
Proof.
  induction z as [op args meta IH] using ZNode_ind'.
  cbn [node_json z_from_dict jget String.eqb Ascii.eqb Bool.eqb bind].
  rewrite zop_of_op_name. cbn [bind].
  match goal with |- context [?each (map node_json args)] =>
    assert (Hargs : each (map node_json args) = Ok args)
  end.
  { induction IH as [|a args Ha _ IHargs]; [reflexivity|].
    cbn [map]. rewrite Ha. cbn [bind]. rewrite IHargs. reflexivity. }
  rewrite Hargs. cbn [bind]. rewrite meta_of_meta_json. reflexivity.
Qed.

Section WithJson.
Variables (json_dumps : json -> list byte)
          (json_loads : list byte -> res json).
Hypothesis json_round_trip : round_trip json_dumps json_loads.

(** The object handed to [json.dumps] for a node. *)
Definition node_dict (z : ZNode) : json :=
  JDict [ ("op", JStr (op_name (node_op z)));
          ("args", JList (map node_json (node_args z)));
          ("meta", meta_json (node_meta z)) ].

Lemma sort_node_dict (z : ZNode) : sort_keys (node_dict z) = node_json z.
Proof.
  destruct z as [op args meta].
  unfold node_dict. cbn [node_op node_args node_meta node_json].
  rewrite sort_written, sort_meta_json.
  assert (Hargs : map sort_keys (map node_json args) = map node_json args).
  { induction args as [|a args IH]; [reflexivity|].
    cbn [map]. by rewrite sort_node_json, IH. }
  rewrite Hargs. reflexivity.
Qed.

Lemma to_canon_eq (z : ZNode) :
  to_canon json_dumps json_loads z = Ok (json_dumps (node_dict z)).
Proof.
  induction z as [op args meta IH] using ZNode_ind'.
  cbn [to_canon].
  match goal with |- context [?each args] =>
    assert (Hargs : each args = Ok (map node_json args))
  end.
  { induction IH as [|a args Ha _ IHargs]; [reflexivity|].
    rewrite Ha. cbn [bind]. rewrite json_round_trip, sort_node_dict.
    cbn [bind]. rewrite IHargs. reflexivity. }
  rewrite Hargs. reflexivity.
Qed.

(** With a [json] that reads back what it writes, [to_canon] returns for
    every node, and [z_from_dict] turns what [json.loads] makes of its
    bytes into the node again: operation, arguments and [meta] are all
    recovered. *)
Theorem z_from_dict_inverts_to_canon (z : ZNode) :
  exists canon d,
    to_canon json_dumps json_loads z = Ok canon /\
    json_loads canon = Ok d /\
    z_from_dict d = Ok z.
Proof.
  exists (json_dumps (node_dict z)), (node_json z).
  split; [apply to_canon_eq|]. split.
  - by rewrite json_round_trip, sort_node_dict.
  - apply z_from_node_json.
Qed.

End WithJson.
End CanonProofs.

Section StoredJsonProofs.
Import CollapseUnpack StoredJson.

Lemma all_some_map {A B : Type} (f : A -> option B) (g : B -> A) (l : list B) :
  Forall (fun x => f (g x) = Some x) l ->
  all_some (map f (map g l)) = Some l.
Proof.
  induction 1 as [|x l Hx _ IH]; [reflexivity|].
  cbn [map all_some]. by rewrite Hx, IH.
Qed.

Lemma of_to_tree : forall j, of_tree (to_tree j) = Some j.
Proof.
  fix IH 1. intros [|b|z|s|items|items]; cbn [to_tree].
  - reflexivity.
  - by destruct b.
  - reflexivity.
  - reflexivity.
  - cbn [of_tree]. rewrite all_some_map; [reflexivity|].
    induction items as [|j items IHitems]; constructor; [apply IH | exact IHitems].
  - cbn [of_tree].
    assert (H1 : all_some
                   (map of_tree
                      (map (fun kv => GenNode 3 [GenLeaf (inr (fst kv)); to_tree (snd kv)])
                           items))
                 = Some (map (fun kv => JList [JStr (fst kv); snd kv]) items)).
    { induction items as [|[k v] items IHitems]; [reflexivity|].
      cbn [map all_some of_tree fst snd]. rewrite (IH v). cbn [all_some].
      by rewrite IHitems. }
    rewrite H1.
    assert (H2 : all_some
                   (map entry_of (map (fun kv => JList [JStr (fst kv); snd kv]) items))
                 = Some items).
    { clear H1. induction items as [|[k v] items IHitems]; [reflexivity|].
      cbn [map all_some entry_of fst snd]. by rewrite IHitems. }
    by rewrite H2.
Qed.

Lemma pos_of_bytes_of_pos (p : positive) : pos_of_bytes (bytes_of_pos p) = p.
Proof. induction p as [p IH|p IH|]; cbn; by rewrite ?IH. Qed.

(** The stand-in reads back what it writes. *)
Lemma stored_json_round_trip : Json.round_trip json_dumps json_loads.
Proof.
  intros j. unfold json_loads, json_dumps.
  by rewrite pos_of_bytes_of_pos, decode_encode, of_to_tree.
Qed.
End StoredJsonProofs.

(** The theorem with the stand-in for [json], at the node of
    [let x -> 2 in add1(x)]. *)
Lemma z_from_dict_inverts_to_canon_witness :
  let z :=
    MiniCC.Node MiniCC.LET
      [ MiniCC.Node MiniCC.INT [] (MiniCC.meta_value 2);
        MiniCC.Node MiniCC.APPLY
          [ MiniCC.Node MiniCC.VAR [] (MiniCC.meta_name "add1");
            MiniCC.Node MiniCC.VAR [] (MiniCC.meta_name "x") ] MiniCC.no_meta ]
      (MiniCC.meta_name "x") in
  exists canon d,
    Canonical.to_canon StoredJson.json_dumps StoredJson.json_loads z = Ok canon /\
    StoredJson.json_loads canon = Ok d /\
    CollapseUnpack.z_from_dict d = Ok z.
Proof.
  intros z.
  exact (z_from_dict_inverts_to_canon StoredJson.json_dumps StoredJson.json_loads
           stored_json_round_trip z).
Defined.

(** ** Packing a Python file and unpacking the package *)

Lemma header_parts (m v rest : list byte) :
  length m = 4%nat -> length v = 4%nat ->
  slice 0 4 (m ++ v ++ rest) = m /\
  slice 4 8 (m ++ v ++ rest) = v /\
  drop 8 (m ++ v ++ rest) = rest.
Proof.
  intros Hm Hv. unfold slice. split; [|split].
  - rewrite drop_0. replace (4 - 0)%nat with (length m) by lia.
    apply take_app_length.
  - rewrite drop_app_length' by lia.
    replace (8 - 4)%nat with (length v) by lia. apply take_app_length.
  - replace (m ++ v ++ rest) with ((m ++ v) ++ rest) by (by rewrite <- app_assoc).
    apply drop_app_length'. rewrite length_app. lia.
Qed.

Section PackPyProofs.
Import MiniCC PyAst CollapsePack CollapseUnpack Canonical PackPy Subset.
Local Open Scope string_scope.

Variables (decode : list byte -> res string)
          (ast_parse : string -> res module)
          (json_dumps : json -> list byte)
          (json_loads : list byte -> res json)
          (zlib_compress : list byte -> list byte)
          (zlib_decompress : list byte -> res (list byte))
          (with_suffix : string -> string -> res string).
Variable value : Type.
Variable vint : Z -> value.
Variable is_None : value -> bool.
Variables py_add py_mul py_call : value -> value -> res value.
Variable builtins : gmap string value.

Abbreviation pack_py' :=
  (pack_py decode ast_parse json_dumps json_loads zlib_compress with_suffix).
Abbreviation unpack' :=
  (unpack zlib_decompress json_loads with_suffix value vint is_None
          py_add py_mul py_call builtins).

(** The package that [pack_py] writes for a node. *)
Definition package (z : ZNode) : list byte :=
  CollapsePack.MAGIC ++ Struct.be_bytes 4 VER
    ++ zlib_compress (json_dumps (node_dict z)).

Lemma pack_py_run (fs : gmap string (list byte)) (src pkg : string)
    (raw : list byte) (text : string) (tree : module) (z : ZNode) :
  Json.round_trip json_dumps json_loads ->
  fs !! src = Some raw -> decode raw = Ok text -> ast_parse text = Ok tree ->
  visit_Module tree = Ok z -> with_suffix src ".cslx" = Ok pkg ->
  pack_py' src None fs = (Ok tt, <[pkg := package z]> fs).
Proof.
  intros Hjson Hraw Htext Htree Hz Hpkg.
  unfold pack_py, io_bind, read_bytes, io_lift. rewrite Hraw, Htext, Htree, Hz.
  rewrite (to_canon_eq json_dumps json_loads Hjson).
  rewrite pack_u32 by (unfold VER; lia). rewrite Hpkg. reflexivity.
Qed.

Lemma unpack_package (fs : gmap string (list byte)) (pkg dst : string)
    (z : ZNode) (assigns : list string) (final : string) (eval_now : bool) :
  Json.round_trip json_dumps json_loads ->
  (forall data, zlib_decompress (zlib_compress data) = Ok data) ->
  fs !! pkg = Some (package z) -> z_to_py z = Ok (assigns, final) ->
  with_suffix pkg ".py" = Ok dst ->
  unpack' pkg None eval_now fs
  = (if eval_now
     then (_ <- fst (eval value vint is_None py_add py_mul py_call z builtins) ;;
           Ok tt)
     else Ok tt,
     <[dst := list_byte_of_string (Expansion.expanded (assigns ++ [final]))]> fs).
Proof.
  intros Hjson Hzlib Hpkg Hpy Hdst.
  destruct (header_parts CollapsePack.MAGIC (Struct.be_bytes 4 VER)
              (zlib_compress (json_dumps (node_dict z))))
    as (Hm & Hv & Hrest); [reflexivity | apply be_bytes_length |].
  fold (package z) in Hm, Hv, Hrest.
  unfold unpack, io_bind, read_bytes, io_lift. rewrite Hpkg, Hm.
  replace (bytes_eqb CollapsePack.MAGIC MAGIC) with true
    by (symmetry; by apply bytes_eqb_eq).
  cbn [negb]. rewrite Hv, be_bytes_length. cbn [Nat.eqb].
  rewrite Hrest, Hzlib, Hjson, sort_node_dict, z_from_node_json, Hpy, Hdst.
  unfold write_bytes. destruct eval_now; reflexivity.
Qed.

Lemma program_lines (bindings : list (string * expr)) (final : expr) :
  Forall (fun b => core (snd b)) bindings -> core final ->
  exists z,
    visit_Module (program bindings final) = Ok z /\
    z_to_py z = Ok (map show_stmt (map assign bindings), show_expr final).
Proof.
  intros Hbs Hfinal.
  destruct (visit_core_text _ Hfinal) as (z0 & Hz0 & Ht0).
  destruct (wrap_chain bindings) with (z0 := z0) as (z & Hz & Hchain).
  { eapply Forall_impl; [exact Hbs|]. intros b Hb.
    destruct (visit_core_text _ Hb) as (val & Hval & _). eauto. }
  exists z. split.
  - rewrite visit_Module_program, Hz0. exact Hz.
  - unfold z_to_py. rewrite (chain_text _ _ _ Hchain Hbs), Ht0. reflexivity.
Qed.


(** [pack_py] writes once, at the end: when it returns, the file system
    differs by one file, which starts with the magic [CSLX]; when it
    raises, whatever the reason (a missing or undecodable source, a syntax
    error, a module that [PyToZ] rejects), nothing has been written. *)
Theorem pack_py_writes_once (fs : gmap string (list byte)) (src : string)
    (out : option string) :
  match pack_py' src out fs with
  | (Ok _, fs') =>
    exists o payload, fs' = <[o := payload]> fs /\ take 4 payload = CollapsePack.MAGIC
  | (Raise _, fs') => fs' = fs
  end.
Proof.
  unfold pack_py, io_bind, read_bytes, io_lift.
  destruct (fs !! src) as [raw|]; [|reflexivity].
  destruct (decode raw) as [text|]; [|reflexivity].
  destruct (ast_parse text) as [tree|]; [|reflexivity].
  destruct (visit_Module tree) as [z|]; [|reflexivity].
  destruct (to_canon json_dumps json_loads z) as [canon|]; [|reflexivity].
  rewrite pack_u32 by (unfold VER; lia).
  destruct out as [o|]; cbn [io_ret].
  - unfold write_bytes. eexists _, _. split; reflexivity.
  - destruct (with_suffix src ".cslx") as [o|]; [|reflexivity].
    unfold write_bytes. eexists _, _. split; reflexivity.
Qed.

(** [unpack] writes at most once, and evaluation does not touch the files:
    the file system that a run with [--eval] leaves is the one that the run
    without it leaves.  Without [--eval], a run that raises has written
    nothing, and a run that returns has written one file. *)
Theorem unpack_writes_once (fs : gmap string (list byte)) (in_path : string)
    (out : option string) :
  let run eval_now :=
    unpack zlib_decompress json_loads with_suffix value vint is_None
      py_add py_mul py_call builtins in_path out eval_now fs in
  snd (run true) = snd (run false) /\
  match run false with
  | (Ok _, fs') => exists o data, fs' = <[o := data]> fs
  | (Raise _, fs') => fs' = fs
  end.
Proof.
  cbv zeta. unfold unpack, io_bind, read_bytes, io_lift.
  destruct (fs !! in_path) as [raw|]; [|split; reflexivity].
  destruct (negb (bytes_eqb (slice 0 4 raw) MAGIC)); [split; reflexivity|].
  destruct (length (slice 4 8 raw) =? 4)%nat; [|split; reflexivity].
  destruct (zlib_decompress (drop 8 raw)) as [canon|]; [|split; reflexivity].
  destruct (json_loads canon) as [d|]; [|split; reflexivity].
  destruct (z_from_dict d) as [z|]; [|split; reflexivity].
  destruct (z_to_py z) as [[assigns final]|]; [|split; reflexivity].
  destruct out as [o|]; cbn [io_ret].
  - unfold write_bytes. split.
    + by destruct (fst (eval value vint is_None py_add py_mul py_call z builtins)).
    + eexists _, _. reflexivity.
  - destruct (with_suffix in_path ".py") as [o|]; [|split; reflexivity].
    unfold write_bytes. split.
    + by destruct (fst (eval value vint is_None py_add py_mul py_call z builtins)).
    + eexists _, _. reflexivity.
Qed.

End PackPyProofs.


(** ** The parser of [mini_cc] *)

Section ParserUnfold.
Import MiniCC Front.
Variable ts : list Token.

Lemma expr_S (f i : nat) :
  expr ts (S f) i
  = (tok <- cur ts i ;;
     if is_type TokenType.LET tok then
       p <- expect ts TokenType.IDENT (adv ts i) ;;
       let '(name, i) := p in
       p <- expect ts TokenType.ARROW i ;;
       let '(_, i) := p in
       p <- expr ts f i ;;
       let '(val, i) := p in
       p <- expect ts TokenType.IN i ;;
       let '(_, i) := p in
       p <- expr ts f i ;;
       let '(body, i) := p in
       Ok (Node LET [val; body] (meta_name (str_value name)), i)
     else add ts f i).
Proof. reflexivity. Qed.

Lemma add_S (f i : nat) :
  add ts (S f) i = (p <- mul ts f i ;; let '(lhs, i) := p in add_loop ts f lhs i).
Proof. reflexivity. Qed.

Lemma add_loop_S (f : nat) (lhs : ZNode) (i : nat) :
  add_loop ts (S f) lhs i
  = (tok <- cur ts i ;;
     if is_type TokenType.PLUS tok then
       p <- mul ts f (adv ts i) ;;
       let '(rhs, i) := p in
       add_loop ts f (Node ADD [lhs; rhs] no_meta) i
     else Ok (lhs, i)).
Proof. reflexivity. Qed.

Lemma mul_S (f i : nat) :
  mul ts (S f) i = (p <- app ts f i ;; let '(lhs, i) := p in mul_loop ts f lhs i).
Proof. reflexivity. Qed.

Lemma mul_loop_S (f : nat) (lhs : ZNode) (i : nat) :
  mul_loop ts (S f) lhs i
  = (tok <- cur ts i ;;
     if is_type TokenType.STAR tok then
       p <- app ts f (adv ts i) ;;
       let '(rhs, i) := p in
       mul_loop ts f (Node MUL [lhs; rhs] no_meta) i
     else Ok (lhs, i)).
Proof. reflexivity. Qed.

Lemma app_S (f i : nat) :
  app ts (S f) i
  = (p <- prim ts f i ;;
     let '(fn, i) := p in
     tok <- cur ts i ;;
     if is_type TokenType.LPAREN tok then
       tok <- cur ts (adv ts i) ;;
       p <- (if negb (is_type TokenType.RPAREN tok) then
               p <- expr ts f (adv ts i) ;;
               let '(a, i) := p in
               app_loop ts f [a] i
             else Ok ([], adv ts i)) ;;
       let '(args, i) := p in
       p <- expect ts TokenType.RPAREN i ;;
       let '(_, i) := p in
       Ok (fold_left (fun fn a => Node APPLY [fn; a] no_meta) args fn, i)
     else Ok (fn, i)).
Proof. reflexivity. Qed.

Lemma app_loop_S (f : nat) (args : list ZNode) (i : nat) :
  app_loop ts (S f) args i
  = (tok <- cur ts i ;;
     if is_type TokenType.COMMA tok then
       p <- expr ts f (adv ts i) ;;
       let '(a, i) := p in
       app_loop ts f (args ++ [a]) i
     else Ok (args, i)).
Proof. reflexivity. Qed.

Lemma prim_S (f i : nat) :
  prim ts (S f) i
  = (tok <- cur ts i ;;
     match tok with
     | T_INT value => Ok (Node INT [] (meta_value value), adv ts i)
     | T_IDENT value => Ok (Node VAR [] (meta_name value), adv ts i)
     | T_LPAREN =>
       p <- expr ts f (adv ts i) ;;
       let '(e, i) := p in
       p <- expect ts TokenType.RPAREN i ;;
       let '(_, i) := p in
       Ok (e, i)
     | _ => Raise (SyntaxError ("Unexpected token: "
                                  ++ TokenType.name (type_of tok)))
     end).
Proof. reflexivity. Qed.

Lemma is_type_true (ty : TokenType.t) (tok : Token) :
  is_type ty tok = true -> type_of tok = ty.
Proof. unfold is_type. apply bool_decide_eq_true. Qed.
End ParserUnfold.

(** *** Token lists that end with [EOF] *)

Section ParserTermination.
Import MiniCC Front.
Variable body : list Token.

Abbreviation ts := (body ++ [T_EOF]).
Abbreviation L := (length (body ++ [T_EOF])).

Lemma lookup_valid (i : nat) : i < L -> exists tok, ts !! i = Some tok.
Proof. intros Hi. by apply lookup_lt_is_Some_2. Qed.

Lemma cur_lookup (i : nat) (tok : Token) :
  ts !! i = Some tok -> cur ts i = Ok tok.
Proof. intros H. unfold cur. by rewrite H. Qed.

Lemma lookup_not_eof (i : nat) (tok : Token) :
  ts !! i = Some tok -> type_of tok <> TokenType.EOF -> S i < L.
Proof.
  intros Hlk Hty. pose proof (lookup_lt_Some _ _ _ Hlk) as Hi.
  rewrite length_app in *. cbn [length] in *.
  destruct (decide (i = length body)) as [->|Hne]; [|lia].
  rewrite list_lookup_middle in Hlk by done. injection Hlk as <-. done.
Qed.

Lemma adv_S (i : nat) : S i < L -> adv ts i = S i.
Proof.
  intros Hi. unfold adv.
  destruct (Z.ltb_spec (Z.of_nat i) (Z.of_nat L - 1)); [reflexivity | lia].
Qed.

(** The outcome [r] of a method called at [i]: either a [SyntaxError], or
    a result and a new index, which is still within the list and beyond
    [i], strictly so when [strict]. *)
Definition progress {A : Type} (strict : bool) (i : nat) (r : res (A * nat))
  : Prop :=
  match r with
  | Ok (_, i') => (if strict then i < i' else i <= i') /\ i' < L
  | Raise (SyntaxError _) => True
  | Raise _ => False
  end.

(** The method [fn] called at [i] has one outcome for every amount of fuel
    from [bound] on. *)
Definition settles {A : Type} (fn : nat -> res (A * nat)) (bound : nat)
    (strict : bool) (i : nat) : Prop :=
  exists r, progress strict i r /\ forall f, bound <= f -> fn f = r.

Lemma progress_lt {A : Type} (s : bool) (i j : nat) (r : res (A * nat)) :
  progress s j r -> i < j -> progress true i r.
Proof. destruct r as [[x k]|e], s; cbn; try done; lia. Qed.

Lemma progress_le {A : Type} (s : bool) (i j : nat) (r : res (A * nat)) :
  progress s j r -> i <= j -> progress false i r.
Proof. destruct r as [[x k]|e], s; cbn; try done; lia. Qed.

Lemma progress_Raise {A B : Type} (s s' : bool) (i j : nat) (e : exn) :
  @progress A s j (Raise e) -> @progress B s' i (Raise e).
Proof. done. Qed.

Lemma expect_cases (ty : TokenType.t) (i : nat) :
  i < L -> ty <> TokenType.EOF ->
  (exists tok, expect ts ty i = Ok (tok, S i) /\ S i < L /\ type_of tok = ty) \/
  (exists msg, expect ts ty i = Raise (SyntaxError msg)).
Proof.
  intros Hi Hty. destruct (lookup_valid i Hi) as [tok Hlk].
  unfold expect. rewrite (cur_lookup _ _ Hlk). cbn [bind].
  destruct (bool_decide (type_of tok = ty)) eqn:Hb.
  - apply bool_decide_eq_true in Hb. left. exists tok.
    assert (HS : S i < L) by (apply (lookup_not_eof i tok Hlk); congruence).
    by rewrite adv_S.
  - right. by eexists.
Qed.

(** The methods called at [j] settle, each within its share of the fuel. *)
Definition ok (j : nat) : Prop :=
  settles (fun f => prim ts f j) (6 * (L - 1 - j) + 1) true j /\
  (forall args, settles (fun f => app_loop ts f args j) (6 * (L - 1 - j) + 1) false j) /\
  settles (fun f => app ts f j) (6 * (L - 1 - j) + 2) true j /\
  (forall lhs, settles (fun f => mul_loop ts f lhs j) (6 * (L - 1 - j) + 1) false j) /\
  settles (fun f => mul ts f j) (6 * (L - 1 - j) + 3) true j /\
  (forall lhs, settles (fun f => add_loop ts f lhs j) (6 * (L - 1 - j) + 1) false j) /\
  settles (fun f => add ts f j) (6 * (L - 1 - j) + 4) true j /\
  settles (fun f => expr ts f j) (6 * (L - 1 - j) + 5) true j.

Ltac run_body f' :=
  repeat first
    [ progress cbn [bind negb]
    | match goal with
      | H : cur _ _ = _ |- _ => rewrite H
      | H : adv _ _ = _ |- _ => rewrite H
      | H : is_type _ _ = _ |- _ => rewrite H
      | H : expect _ _ _ = _ |- _ => rewrite H
      | H : forall f, _ <= f -> _ = _ |- _ => rewrite (H f') by lia
      end ].

(** Close a case: give the outcome by running the body of the method, whose
    unfolding is [eqn], and leave the progress to prove. *)
Ltac settle eqn :=
  eexists; split;
  [ | let f' := fresh "f'" in
      intros [|f'] ?; [lia|]; rewrite eqn; run_body f'; reflexivity ].

Ltac sub_call H r Hp He :=
  destruct H as (r & Hp & He).

Section At.
Variable i : nat.
Hypothesis Hi : i < L.
Hypothesis below : forall j, i < j -> j < L -> ok j.

Lemma prim_settles : settles (fun f => prim ts f i) (6 * (L - 1 - i) + 1) true i.
Proof.
  destruct (lookup_valid i Hi) as [tok Hlk].
  pose proof (cur_lookup _ _ Hlk) as Hcur.
  destruct tok;
    try (settle prim_S; exact I).
  - assert (HS : S i < L) by (by apply (lookup_not_eof i _ Hlk)).
    pose proof (adv_S i HS) as Hadv.
    settle prim_S. cbn. lia.
  - assert (HS : S i < L) by (by apply (lookup_not_eof i _ Hlk)).
    pose proof (adv_S i HS) as Hadv.
    settle prim_S. cbn. lia.
  - assert (HS : S i < L) by (by apply (lookup_not_eof i _ Hlk)).
    pose proof (adv_S i HS) as Hadv.
    destruct (below (S i) ltac:(lia) HS) as (_ & _ & _ & _ & _ & _ & _ & He).
    destruct He as (r1 & Hp1 & He1). destruct r1 as [[e i1]|err].
    + cbn in Hp1. destruct (expect_cases TokenType.RPAREN i1) as
        [(tok & Hexp & HS1 & _)|(msg & Hexp)]; [lia | done | |].
      * settle prim_S. cbn. lia.
      * settle prim_S. exact I.
    + settle prim_S. exact Hp1.
Qed.

Lemma app_loop_settles (args : list ZNode) :
  settles (fun f => app_loop ts f args i) (6 * (L - 1 - i) + 1) false i.
Proof.
  destruct (lookup_valid i Hi) as [tok Hlk].
  pose proof (cur_lookup _ _ Hlk) as Hcur.
  destruct (is_type TokenType.COMMA tok) eqn:Hty.
  - apply is_type_true in Hty.
    assert (HS : S i < L) by (apply (lookup_not_eof i _ Hlk); congruence).
    pose proof (adv_S i HS) as Hadv.
    destruct (below (S i) ltac:(lia) HS) as (_ & _ & _ & _ & _ & _ & _ & He).
    destruct He as (r1 & Hp1 & He1). destruct r1 as [[a i1]|err].
    + cbn in Hp1.
      destruct (below i1 ltac:(lia) ltac:(lia)) as (_ & Hl & _).
      destruct (Hl (args ++ [a])) as (r2 & Hp2 & He2).
      assert (Hty' : is_type TokenType.COMMA tok = true)
        by (unfold is_type; by apply bool_decide_eq_true).
      settle app_loop_S. apply (progress_le _ _ _ _ Hp2). lia.
    + assert (Hty' : is_type TokenType.COMMA tok = true)
        by (unfold is_type; by apply bool_decide_eq_true).
      settle app_loop_S. exact Hp1.
  - settle app_loop_S. cbn. lia.
Qed.

Lemma app_settles : settles (fun f => app ts f i) (6 * (L - 1 - i) + 2) true i.
Proof.
  destruct prim_settles as (r0 & Hp0 & He0). destruct r0 as [[fn i1]|err];
    [|settle app_S; exact Hp0].
  cbn in Hp0. destruct (lookup_valid i1 ltac:(lia)) as [tok Hlk].
  pose proof (cur_lookup _ _ Hlk) as Hcur.
  destruct (is_type TokenType.LPAREN tok) eqn:Hty; [|settle app_S; cbn; lia].
  assert (HS : S i1 < L)
    by (apply (lookup_not_eof i1 _ Hlk); apply is_type_true in Hty; congruence).
  pose proof (adv_S i1 HS) as Hadv.
  destruct (lookup_valid (S i1) HS) as [tok2 Hlk2].
  pose proof (cur_lookup _ _ Hlk2) as Hcur2.
  destruct (is_type TokenType.RPAREN tok2) eqn:Hty2.
  - destruct (expect_cases TokenType.RPAREN (S i1)) as
      [(tok3 & Hexp & HS2 & _)|(msg & Hexp)]; [lia | done | |].
    + settle app_S. cbn. lia.
    + settle app_S. exact I.
  - destruct (below (S i1) ltac:(lia) HS) as (_ & _ & _ & _ & _ & _ & _ & He).
    destruct He as (r1 & Hp1 & He1). destruct r1 as [[a i2]|err];
      [|settle app_S; exact Hp1].
    cbn in Hp1. destruct (below i2 ltac:(lia) ltac:(lia)) as (_ & Hl & _).
    destruct (Hl [a]) as (r2 & Hp2 & He2). destruct r2 as [[args i3]|err];
      [|settle app_S; exact Hp2].
    cbn in Hp2.
    destruct (expect_cases TokenType.RPAREN i3) as
      [(tok3 & Hexp & HS3 & _)|(msg & Hexp)]; [lia | done | |].
    + settle app_S. cbn. lia.
    + settle app_S. exact I.
Qed.

Lemma mul_loop_settles (lhs : ZNode) :
  settles (fun f => mul_loop ts f lhs i) (6 * (L - 1 - i) + 1) false i.
Proof.
  destruct (lookup_valid i Hi) as [tok Hlk].
  pose proof (cur_lookup _ _ Hlk) as Hcur.
  destruct (is_type TokenType.STAR tok) eqn:Hty; [|settle mul_loop_S; cbn; lia].
  assert (HS : S i < L)
    by (apply (lookup_not_eof i _ Hlk); apply is_type_true in Hty; congruence).
  pose proof (adv_S i HS) as Hadv.
  destruct (below (S i) ltac:(lia) HS) as (_ & _ & Ha & _).
  destruct Ha as (r1 & Hp1 & He1). destruct r1 as [[rhs i1]|err];
    [|settle mul_loop_S; exact Hp1].
  cbn in Hp1. destruct (below i1 ltac:(lia) ltac:(lia)) as (_ & _ & _ & Hl & _).
  destruct (Hl (Node MUL [lhs; rhs] no_meta)) as (r2 & Hp2 & He2).
  settle mul_loop_S. apply (progress_le _ _ _ _ Hp2). lia.
Qed.

Lemma mul_settles : settles (fun f => mul ts f i) (6 * (L - 1 - i) + 3) true i.
Proof.
  destruct app_settles as (r0 & Hp0 & He0). destruct r0 as [[lhs i1]|err];
    [|settle mul_S; exact Hp0].
  cbn in Hp0. destruct (below i1 ltac:(lia) ltac:(lia)) as (_ & _ & _ & Hl & _).
  destruct (Hl lhs) as (r2 & Hp2 & He2).
  settle mul_S. apply (progress_lt _ _ _ _ Hp2). lia.
Qed.

Lemma add_loop_settles (lhs : ZNode) :
  settles (fun f => add_loop ts f lhs i) (6 * (L - 1 - i) + 1) false i.
Proof.
  destruct (lookup_valid i Hi) as [tok Hlk].
  pose proof (cur_lookup _ _ Hlk) as Hcur.
  destruct (is_type TokenType.PLUS tok) eqn:Hty; [|settle add_loop_S; cbn; lia].
  assert (HS : S i < L)
    by (apply (lookup_not_eof i _ Hlk); apply is_type_true in Hty; congruence).
  pose proof (adv_S i HS) as Hadv.
  destruct (below (S i) ltac:(lia) HS) as (_ & _ & _ & _ & Hm & _).
  destruct Hm as (r1 & Hp1 & He1). destruct r1 as [[rhs i1]|err];
    [|settle add_loop_S; exact Hp1].
  cbn in Hp1.
  destruct (below i1 ltac:(lia) ltac:(lia)) as (_ & _ & _ & _ & _ & Hl & _).
  destruct (Hl (Node ADD [lhs; rhs] no_meta)) as (r2 & Hp2 & He2).
  settle add_loop_S. apply (progress_le _ _ _ _ Hp2). lia.
Qed.

Lemma add_settles : settles (fun f => add ts f i) (6 * (L - 1 - i) + 4) true i.
Proof.
  destruct mul_settles as (r0 & Hp0 & He0). destruct r0 as [[lhs i1]|err];
    [|settle add_S; exact Hp0].
  cbn in Hp0.
  destruct (below i1 ltac:(lia) ltac:(lia)) as (_ & _ & _ & _ & _ & Hl & _).
  destruct (Hl lhs) as (r2 & Hp2 & He2).
  settle add_S. apply (progress_lt _ _ _ _ Hp2). lia.
Qed.

Lemma expr_settles : settles (fun f => expr ts f i) (6 * (L - 1 - i) + 5) true i.
Proof.
  destruct (lookup_valid i Hi) as [tok Hlk].
  pose proof (cur_lookup _ _ Hlk) as Hcur.
  destruct (is_type TokenType.LET tok) eqn:Hty.
  - assert (HS : S i < L)
      by (apply (lookup_not_eof i _ Hlk); apply is_type_true in Hty; congruence).
    pose proof (adv_S i HS) as Hadv.
    destruct (expect_cases TokenType.IDENT (S i)) as
      [(name & Hexp1 & HS1 & _)|(msg & Hexp1)]; [lia | done | |settle expr_S; exact I].
    destruct (expect_cases TokenType.ARROW (S (S i))) as
      [(tok2 & Hexp2 & HS2 & _)|(msg & Hexp2)]; [lia | done | |settle expr_S; exact I].
    destruct (below (S (S (S i))) ltac:(lia) HS2) as (_ & _ & _ & _ & _ & _ & _ & He).
    destruct He as (r1 & Hp1 & He1). destruct r1 as [[val i1]|err];
      [|settle expr_S; exact Hp1].
    cbn in Hp1.
    destruct (expect_cases TokenType.IN i1) as
      [(tok3 & Hexp3 & HS3 & _)|(msg & Hexp3)]; [lia | done | |settle expr_S; exact I].
    destruct (below (S i1) ltac:(lia) HS3) as (_ & _ & _ & _ & _ & _ & _ & He').
    destruct He' as (r2 & Hp2 & He2). destruct r2 as [[bdy i2]|err];
      [|settle expr_S; exact Hp2].
    cbn in Hp2. settle expr_S. cbn. lia.
  - destruct add_settles as (r0 & Hp0 & He0).
    settle expr_S. exact Hp0.
Qed.

Lemma ok_here : ok i.
Proof.
  split; [apply prim_settles|]. split; [apply app_loop_settles|].
  split; [apply app_settles|]. split; [apply mul_loop_settles|].
  split; [apply mul_settles|]. split; [apply add_loop_settles|].
  split; [apply add_settles | apply expr_settles].
Qed.

End At.

Lemma ok_everywhere (n i : nat) : L - 1 - i <= n -> i < L -> ok i.
Proof.
  revert i. induction n as [|n IH]; intros i Hn Hi.
  - apply ok_here; [exact Hi|]. intros j Hj HjL. lia.
  - apply ok_here; [exact Hi|]. intros j Hj HjL. apply IH; [lia | exact HjL].
Qed.

Lemma parse_with_settles :
  exists r,
    (forall fuel, 6 * L <= fuel -> parse_with ts fuel = r) /\
    match r with
    | Ok _ | Raise (SyntaxError _) => True
    | Raise _ => False
    end.
Proof.
  assert (H0 : 0 < L) by (rewrite length_app; cbn [length]; lia).
  destruct (ok_everywhere (L - 1) 0 ltac:(lia) H0) as (_ & _ & _ & _ & _ & _ & _ & He).
  destruct He as (r1 & Hp1 & He1). destruct r1 as [[node i1]|err].
  - cbn in Hp1. destruct (lookup_valid i1 ltac:(lia)) as [tok Hlk].
    pose proof (cur_lookup _ _ Hlk) as Hcur.
    eexists. split.
    + intros fuel Hfuel. unfold parse_with. rewrite (He1 fuel) by lia.
      cbn [bind]. unfold expect. rewrite Hcur. cbn [bind]. reflexivity.
    + by destruct (bool_decide (type_of tok = TokenType.EOF)).
  - exists (Raise err). split.
    + intros fuel Hfuel. unfold parse_with. by rewrite (He1 fuel) by lia.
    + exact Hp1.
Qed.

End ParserTermination.

(** Given a list of tokens that ends with [EOF], [parse] returns a node or
    raises [SyntaxError]: it does not run past the end of the list
    ([IndexError]) and its recursion ends, the outcome being the same for
    every amount of fuel from six steps a token on. *)
Theorem parse_returns_or_SyntaxError (body : list Front.Token) :
  let ts := body ++ [Front.T_EOF] in
  (forall fuel, 6 * length ts <= fuel -> Front.parse_with ts fuel = Front.parse ts) /\
  match Front.parse ts with
  | Ok _ | Raise (SyntaxError _) => True
  | Raise _ => False
  end.
Proof.
  intros ts. subst ts. destruct (parse_with_settles body) as (r & Hr & Hgood).
  assert (Hparse : Front.parse (body ++ [Front.T_EOF]) = r)
    by (unfold Front.parse; apply Hr; lia).
  rewrite Hparse. split; [exact Hr | exact Hgood].
Qed.

(** ** The tokenizer of [mini_cc] *)

Section TokenizerProofs.
Import MiniCC Front.
Local Open Scope string_scope.

Variables (isspace isdigit isdecimal isnumeric isalpha : ascii -> bool).
Variable py_int : string -> res Z.

Abbreviation tokenize_from' :=
  (tokenize_from isspace isdigit isdecimal isnumeric isalpha py_int).

Lemma span_length (p : ascii -> bool) (s : string) :
  String.length (snd (span p s)) <= String.length s.
Proof.
  induction s as [|c s IH]; [done|]. cbn [span].
  destruct (p c); [|done]. destruct (span p s) as [w r]. cbn in *. lia.
Qed.

Lemma span_head (p : ascii -> bool) (c : ascii) (s : string) :
  p c = true ->
  exists w r, span p (String c s) = (String c w, r) /\
              String.length r <= String.length s.
Proof.
  intros Hc. cbn [span]. rewrite Hc.
  pose proof (span_length p s) as Hlen. destruct (span p s) as [w r].
  by exists w, r.
Qed.

(** The two ways in which [tokenize] fails. *)
Definition tokenize_error (e : exn) : Prop :=
  (exists c, e = SyntaxError ("Unexpected " ++ String c "")) \/
  (exists w, py_int w = Raise e).

Lemma symbol_not_EOF (c : ascii) (tok : Token) :
  symbol c = Some tok -> type_of tok <> TokenType.EOF.
Proof.
  unfold symbol.
  repeat match goal with |- context [if ?b then _ else _] => destruct b end;
    intros [= <-]; done.
Qed.

Lemma tokenize_from_spec (fuel : nat) :
  forall s ts, String.length s <= fuel ->
  match tokenize_from' fuel s ts with
  | Ok out =>
    exists new, out = (ts ++ new ++ [T_EOF])%list /\
                Forall (fun tok => type_of tok <> TokenType.EOF) new
  | Raise e => tokenize_error e
  end.
Proof.
  induction fuel as [|fuel IH]; intros s ts Hlen.
  - destruct s; [|cbn in Hlen; lia]. cbn. exists []. by split.
  - destruct s as [|c rest]; [cbn; exists []; by split|].
    cbn [String.length] in Hlen. cbn [tokenize_from].
    destruct (isspace c); [apply IH; lia|].
    destruct (isdigit c) eqn:Hdigit.
    { destruct (span_head isdigit c rest Hdigit) as (w & r & -> & Hr).
      destruct (py_int (String c w)) as [n|e] eqn:Hint; cbn [bind].
      - specialize (IH r (ts ++ [T_INT n])%list ltac:(lia)).
        destruct (tokenize_from' fuel r (ts ++ [T_INT n])%list) as [out|e];
          [|exact IH].
        destruct IH as (new & -> & Hnew). exists (T_INT n :: new). split.
        + by rewrite <- !app_assoc.
        + by constructor.
      - right. by exists (String c w). }
    destruct (isalpha c || Ascii.eqb c "_") eqn:Halpha.
    { assert (Hc : (fun c => isalnum isdigit isdecimal isnumeric isalpha c
                             || Ascii.eqb c "_") c = true).
      { unfold isalnum. destruct (isalpha c); [done|].
        cbn in Halpha. rewrite Halpha. by rewrite orb_true_r. }
      destruct (span_head _ c rest Hc) as (w & r & -> & Hr).
      match goal with |- context [tokenize_from' fuel r (ts ++ [?tok])%list] =>
        set (t := tok);
        assert (Ht : type_of t <> TokenType.EOF)
          by (unfold t; repeat case_match; done)
      end.
      specialize (IH r (ts ++ [t])%list ltac:(lia)).
      destruct (tokenize_from' fuel r (ts ++ [t])%list) as [out|e]; [|exact IH].
      destruct IH as (new & -> & Hnew). exists (t :: new). split.
      - by rewrite <- !app_assoc.
      - by constructor. }
    assert (Hsym : match symbol c with
                   | Some tok => tokenize_from' fuel rest (ts ++ [tok])%list
                   | None => Raise (SyntaxError ("Unexpected " ++ String c ""))
                   end = Raise (SyntaxError ("Unexpected " ++ String c "")) \/
                   exists tok, symbol c = Some tok /\
                     type_of tok <> TokenType.EOF).
    { destruct (symbol c) as [tok|] eqn:Hs; [right|left; reflexivity].
      exists tok. split; [reflexivity|]. by apply (symbol_not_EOF c). }
    assert (Hsymbol :
      match (match symbol c with
             | Some tok => tokenize_from' fuel rest (ts ++ [tok])%list
             | None => Raise (SyntaxError ("Unexpected " ++ String c ""))
             end) with
      | Ok out =>
        exists new, out = (ts ++ new ++ [T_EOF])%list /\
                    Forall (fun tok => type_of tok <> TokenType.EOF) new
      | Raise e => tokenize_error e
      end).
    { destruct (symbol c) as [tok|] eqn:Hs; [|left; by exists c].
      pose proof (symbol_not_EOF c tok Hs) as Ht.
      specialize (IH rest (ts ++ [tok])%list ltac:(lia)).
      destruct (tokenize_from' fuel rest (ts ++ [tok])%list) as [out|e];
        [|exact IH].
      destruct IH as (new & -> & Hnew). exists (tok :: new). split.
      - by rewrite <- !app_assoc.
      - by constructor. }
    destruct rest as [|d rest']; [exact Hsymbol|].
    destruct (Ascii.eqb c "-" && Ascii.eqb d ">"); [|exact Hsymbol].
    cbn [String.length] in Hlen.
    specialize (IH rest' (ts ++ [T_ARROW])%list ltac:(lia)).
    destruct (tokenize_from' fuel rest' (ts ++ [T_ARROW])%list) as [out|e];
      [|exact IH].
    destruct IH as (new & -> & Hnew). exists (T_ARROW :: new). split.
    + by rewrite <- !app_assoc.
    + by constructor.
Qed.

(** When [tokenize] returns, the list ends with [EOF] and holds no other
    [EOF].  When it raises, the exception is [SyntaxError] for a character
    that starts no token, or what [int] raised on a run of characters that
    [isdigit] accepts. *)
Theorem tokenize_ends_with_EOF (s : string) :
  match tokenize isspace isdigit isdecimal isnumeric isalpha py_int s with
  | Ok out =>
    exists body, out = (body ++ [T_EOF])%list /\
                 Forall (fun tok => type_of tok <> TokenType.EOF) body
  | Raise e =>
    (exists c, e = SyntaxError ("Unexpected " ++ String c "")) \/
    (exists w, py_int w = Raise e)
  end.
Proof.
  unfold tokenize. pose proof (tokenize_from_spec (String.length s) s [] ltac:(lia)) as H.
  destruct (tokenize_from' (String.length s) s []) as [out|e]; [|exact H].
  destruct H as (body & -> & Hbody). by exists body.
Qed.


End TokenizerProofs.

(** ** The parser on fully parenthesised expressions *)

Section ParserValues.
Import MiniCC Front Printed.
Variable ts : list Token.

Lemma drop_lookup (i : nat) (a : Token) (rest : list Token) :
  drop i ts = a :: rest -> cur ts i = Ok a.
Proof.
  intros H. unfold cur.
  assert (Hlk : ts !! i = Some a).
  { rewrite <- (Nat.add_0_r i), <- lookup_drop, H. reflexivity. }
  by rewrite Hlk.
Qed.

Lemma drop_next (i : nat) (a : Token) (rest : list Token) :
  drop i ts = a :: rest -> drop (S i) ts = rest.
Proof.
  intros H. replace (S i) with (i + 1) by lia.
  rewrite <- drop_drop, H. reflexivity.
Qed.

Lemma drop_skip (i : nat) (xs rest : list Token) :
  drop i ts = xs ++ rest -> drop (i + length xs) ts = rest.
Proof. intros H. by rewrite <- drop_drop, H, drop_app_length. Qed.

Lemma drop_adv (i : nat) (a b : Token) (rest : list Token) :
  drop i ts = a :: b :: rest -> adv ts i = S i.
Proof.
  intros H. apply drop_next in H.
  assert (Hlen : length (drop (S i) ts) = S (length rest)) by (by rewrite H).
  rewrite length_drop in Hlen. unfold adv.
  destruct (Z.ltb_spec (Z.of_nat i) (Z.of_nat (length ts) - 1)); [reflexivity | lia].
Qed.

Lemma expect_here (ty : TokenType.t) (i : nat) (a b : Token) (rest : list Token) :
  drop i ts = a :: b :: rest -> type_of a = ty ->
  expect ts ty i = Ok (a, S i).
Proof.
  intros H Hty. unfold expect. rewrite (drop_lookup _ _ _ H). cbn [bind].
  rewrite (drop_adv _ _ _ _ H). by rewrite bool_decide_eq_true_2.
Qed.

(** With enough fuel, the method [fn] returns [x] and the index [j]. *)
Definition returns {A : Type} (fn : nat -> res (A * nat)) (x : A) (j : nat)
  : Prop :=
  exists F, forall f, F <= f -> fn f = Ok (x, j).

Lemma mul_of_app (i j : nat) (x : ZNode) (tok : Token) :
  returns (fun f => app ts f i) x j ->
  cur ts j = Ok tok -> is_type TokenType.STAR tok = false ->
  returns (fun f => mul ts f i) x j.
Proof.
  intros [F HF] Hcur Hty. exists (S (S F)). intros f Hf.
  destruct f as [|f]; [lia|]. rewrite mul_S, (HF f) by lia. cbn [bind].
  destruct f as [|f]; [lia|]. rewrite mul_loop_S, Hcur. cbn [bind].
  by rewrite Hty.
Qed.

Lemma add_of_mul (i j : nat) (x : ZNode) (tok : Token) :
  returns (fun f => mul ts f i) x j ->
  cur ts j = Ok tok -> is_type TokenType.PLUS tok = false ->
  returns (fun f => add ts f i) x j.
Proof.
  intros [F HF] Hcur Hty. exists (S (S F)). intros f Hf.
  destruct f as [|f]; [lia|]. rewrite add_S, (HF f) by lia. cbn [bind].
  destruct f as [|f]; [lia|]. rewrite add_loop_S, Hcur. cbn [bind].
  by rewrite Hty.
Qed.

Lemma expr_of_add (i j : nat) (x : ZNode) (tok : Token) :
  returns (fun f => add ts f i) x j ->
  cur ts i = Ok tok -> is_type TokenType.LET tok = false ->
  returns (fun f => expr ts f i) x j.
Proof.
  intros [F HF] Hcur Hty. exists (S F). intros f Hf.
  destruct f as [|f]; [lia|]. rewrite expr_S, Hcur. cbn [bind].
  rewrite Hty. apply HF. lia.
Qed.

(** What may follow an operand: a token that continues neither a call, nor
    a product, nor a sum. *)
Definition closes (tok : Token) : Prop :=
  is_type TokenType.LPAREN tok = false /\
  is_type TokenType.STAR tok = false /\
  is_type TokenType.PLUS tok = false.

Lemma expr_of_app (i j : nat) (x : ZNode) (first next : Token) :
  returns (fun f => app ts f i) x j ->
  cur ts i = Ok first -> is_type TokenType.LET first = false ->
  cur ts j = Ok next -> closes next ->
  returns (fun f => expr ts f i) x j.
Proof.
  intros Happ Hfirst Hlet Hnext (_ & Hstar & Hplus).
  apply (expr_of_add i j x first); [|exact Hfirst | exact Hlet].
  apply (add_of_mul i j x next); [|exact Hnext | exact Hplus].
  by apply (mul_of_app i j x next).
Qed.

Lemma prim_paren (i j : nat) (e : ZNode) (b : Token) (rest more : list Token) :
  drop i ts = T_LPAREN :: rest ->
  rest <> [] ->
  returns (fun f => expr ts f (S i)) e j ->
  drop j ts = T_RPAREN :: b :: more ->
  returns (fun f => prim ts f i) e (S j).
Proof.
  intros Hi Hrest [F HF] Hj. exists (S F). intros f Hf.
  destruct f as [|f]; [lia|]. rewrite prim_S, (drop_lookup _ _ _ Hi). cbn [bind].
  destruct rest as [|a rest]; [done|]. rewrite (drop_adv _ _ _ _ Hi).
  rewrite (HF f) by lia. cbn [bind].
  by rewrite (expect_here TokenType.RPAREN j _ _ _ Hj).
Qed.

Lemma app_of_prim (i j : nat) (x : ZNode) (tok : Token) :
  returns (fun f => prim ts f i) x j ->
  cur ts j = Ok tok -> is_type TokenType.LPAREN tok = false ->
  returns (fun f => app ts f i) x j.
Proof.
  intros [F HF] Hcur Hty. exists (S F). intros f Hf.
  destruct f as [|f]; [lia|]. rewrite app_S, (HF f) by lia. cbn [bind].
  rewrite Hcur. cbn [bind]. by rewrite Hty.
Qed.

Lemma tokens_head (e : term) :
  exists tok rest,
    tokens e = tok :: rest /\
    is_type TokenType.LET tok = false /\ is_type TokenType.RPAREN tok = false.
Proof. destruct e; by eexists _, _. Qed.

Lemma length_tokens_pos (e : term) : 0 < length (tokens e).
Proof. destruct (tokens_head e) as (tok & rest & -> & _). cbn. lia. Qed.

(** An operand followed by a token: the call [app] at its first token
    returns its node and the index of that token. *)
Definition parses (e : term) : Prop :=
  forall i next more,
    drop i ts = tokens e ++ next :: more ->
    is_type TokenType.LPAREN next = false ->
    returns (fun f => app ts f i) (node_of e) (i + length (tokens e)).

Lemma parses_expr (e : term) (i : nat) (next : Token) (more : list Token) :
  parses e ->
  drop i ts = tokens e ++ next :: more -> closes next ->
  returns (fun f => expr ts f i) (node_of e) (i + length (tokens e)).
Proof.
  intros He Hi Hnext. destruct (tokens_head e) as (first & rest & Htok & Hlet & _).
  apply (expr_of_app _ _ _ first next); [|  | exact Hlet | | exact Hnext].
  - apply (He i next more Hi). apply Hnext.
  - rewrite Htok in Hi. by apply (drop_lookup _ _ _ Hi).
  - apply drop_skip in Hi. by apply (drop_lookup _ _ _ Hi).
Qed.

Lemma parses_atom (i : nat) (tok next : Token) (more : list Token) (x : ZNode) :
  drop i ts = tok :: next :: more ->
  (forall f, prim ts (S f) i = Ok (x, adv ts i)) ->
  is_type TokenType.LPAREN next = false ->
  returns (fun f => app ts f i) x (i + 1).
Proof.
  intros Hi Hprim Hnext. replace (i + 1) with (S i) by lia.
  apply (app_of_prim i (S i) x next); [| |exact Hnext].
  - exists 1. intros f Hf. destruct f as [|f]; [lia|].
    by rewrite Hprim, (drop_adv _ _ _ _ Hi).
  - apply drop_next in Hi. by apply (drop_lookup _ _ _ Hi).
Qed.

Lemma parses_binary (op : ZOp) (sym : Token) (l r : term) :
  (op = ADD /\ sym = T_PLUS) \/ (op = MUL /\ sym = T_STAR) ->
  parses l -> parses r ->
  forall i next more,
    drop i ts = [T_LPAREN] ++ tokens l ++ [sym] ++ tokens r ++ [T_RPAREN]
                  ++ next :: more ->
    is_type TokenType.LPAREN next = false ->
    returns (fun f => app ts f i)
      (Node op [node_of l; node_of r] no_meta)
      (i + length ([T_LPAREN] ++ tokens l ++ [sym] ++ tokens r ++ [T_RPAREN])).
Proof.
  intros Hop Hl Hr i next more Hi Hnext.
  cbn [app] in Hi.
  pose proof (drop_next _ _ _ Hi) as Hi1.
  pose proof (drop_skip _ _ _ Hi1) as Hj1.
  set (j1 := S i + length (tokens l)) in *.
  pose proof (drop_next _ _ _ Hj1) as Hj1'.
  pose proof (drop_skip _ _ _ Hj1') as Hj2.
  set (j2 := S j1 + length (tokens r)) in *.
  assert (Hsym : is_type TokenType.LPAREN sym = false)
    by (destruct Hop as [[_ ->]|[_ ->]]; reflexivity).
  destruct (Hl (S i) sym _ Hi1 Hsym) as [Fl HFl]. fold j1 in HFl.
  destruct (Hr (S j1) T_RPAREN _ Hj1' eq_refl) as [Fr HFr]. fold j2 in HFr.
  destruct (tokens_head l) as (first & rest & Htok & Hlet & _).
  assert (Hfirst : cur ts (S i) = Ok first)
    by (rewrite Htok in Hi1; by apply (drop_lookup _ _ _ Hi1)).
  assert (Hexpr : returns (fun f => expr ts f (S i))
                    (Node op [node_of l; node_of r] no_meta) j2).
  { exists (Fl + Fr + 10). intros f Hf.
    destruct f as [|f]; [lia|]. rewrite expr_S, Hfirst. cbn [bind]. rewrite Hlet.
    destruct f as [|f]; [lia|]. rewrite add_S.
    destruct f as [|f]; [lia|]. rewrite mul_S, (HFl f) by lia. cbn [bind].
    destruct f as [|f]; [lia|]. rewrite mul_loop_S, (drop_lookup _ _ _ Hj1).
    cbn [bind]. destruct Hop as [[-> ->]|[-> ->]].
    - change (is_type TokenType.STAR T_PLUS) with false. cbn [bind].
      rewrite add_loop_S, (drop_lookup _ _ _ Hj1). cbn [bind].
      change (is_type TokenType.PLUS T_PLUS) with true. cbn [bind].
      destruct (tokens_head r) as (fr & rr & Htr & _).
      rewrite Htr in Hj1. cbn [app] in Hj1. rewrite (drop_adv _ _ _ _ Hj1).
      rewrite mul_S, (HFr f) by lia. cbn [bind].
      destruct f as [|f]; [lia|]. rewrite mul_loop_S, (drop_lookup _ _ _ Hj2).
      cbn [bind]. change (is_type TokenType.STAR T_RPAREN) with false. cbn [bind].
      rewrite add_loop_S, (drop_lookup _ _ _ Hj2). cbn [bind]. reflexivity.
    - change (is_type TokenType.STAR T_STAR) with true. cbn [bind].
      destruct (tokens_head r) as (fr & rr & Htr & _).
      rewrite Htr in Hj1. cbn [app] in Hj1. rewrite (drop_adv _ _ _ _ Hj1).
      rewrite (HFr f) by lia. cbn [bind].
      destruct f as [|f]; [lia|]. rewrite mul_loop_S, (drop_lookup _ _ _ Hj2).
      cbn [bind]. change (is_type TokenType.STAR T_RPAREN) with false. cbn [bind].
      rewrite add_loop_S, (drop_lookup _ _ _ Hj2). cbn [bind]. reflexivity. }
  replace (i + length ([T_LPAREN] ++ tokens l ++ [sym] ++ tokens r ++ [T_RPAREN]))
    with (S j2)
    by (rewrite !length_app; cbn [length]; unfold j2, j1; lia).
  apply (app_of_prim i (S j2) _ next); [| |exact Hnext].
  - apply (prim_paren i j2 _ next _ more Hi); [|exact Hexpr|exact Hj2].
    destruct (tokens_head l) as (? & ? & -> & _). done.
  - apply drop_next in Hj2. by apply (drop_lookup _ _ _ Hj2).
Qed.

Lemma parses_apply (fn a : term) :
  parses fn -> parses a -> parses (TApply fn a).
Proof.
  intros Hf Ha i next more Hi Hnext. cbn [tokens node_of] in *.
  repeat (rewrite <- app_assoc in Hi || rewrite <- app_comm_cons in Hi
          || rewrite app_nil_l in Hi).
  pose proof (drop_next _ _ _ Hi) as Hi1.
  pose proof (drop_skip _ _ _ Hi1) as Hj1.
  set (j1 := S i + length (tokens fn)) in *.
  pose proof (drop_next _ _ _ Hj1) as Hj1'.
  pose proof (drop_next _ _ _ Hj1') as Hk.
  pose proof (drop_skip _ _ _ Hk) as Hj2.
  set (j2 := S (S j1) + length (tokens a)) in *.
  assert (Hfn : returns (fun f => expr ts f (S i)) (node_of fn) j1).
  { apply (parses_expr fn (S i) T_RPAREN _ Hf Hi1). by repeat split. }
  assert (Harg : returns (fun f => expr ts f (S (S j1))) (node_of a) j2).
  { apply (parses_expr a (S (S j1)) T_RPAREN _ Ha Hk). by repeat split. }
  assert (Hprim : returns (fun f => prim ts f i) (node_of fn) (S j1)).
  { eapply (prim_paren i j1); [exact Hi| |exact Hfn|exact Hj1].
    destruct (tokens_head fn) as (? & ? & -> & _). done. }
  destruct Hprim as [Fp HFp]. destruct Harg as [Fa HFa].
  destruct (tokens_head a) as (first & rest & Htok & _ & Hrp).
  rewrite Htok in Hj1', Hk. cbn [app] in Hj1', Hk.
  replace (i + length ([T_LPAREN] ++ tokens fn ++ [T_RPAREN; T_LPAREN]
                         ++ tokens a ++ [T_RPAREN]))
    with (S j2)
    by (rewrite !length_app; cbn [length]; unfold j2, j1; lia).
  exists (Fp + Fa + 10). intros f Hf'.
  destruct f as [|f]; [lia|]. rewrite app_S, (HFp f) by lia. cbn [bind].
  rewrite (drop_lookup _ _ _ Hj1'). cbn [bind].
  change (is_type TokenType.LPAREN T_LPAREN) with true. cbn [bind].
  rewrite (drop_adv _ _ _ _ Hj1'), (drop_lookup _ _ _ Hk). cbn [bind].
  rewrite Hrp. cbn [negb bind]. rewrite (HFa f) by lia. cbn [bind].
  destruct f as [|f]; [lia|]. rewrite app_loop_S, (drop_lookup _ _ _ Hj2).
  cbn [bind]. change (is_type TokenType.COMMA T_RPAREN) with false. cbn [bind].
  by rewrite (expect_here TokenType.RPAREN j2 _ _ _ Hj2).
Qed.

Lemma parses_let (name : string) (val body : term) :
  parses val -> parses body -> parses (TLet name val body).
Proof.
  intros Hv Hb i next more Hi Hnext. cbn [tokens node_of] in *.
  repeat (rewrite <- app_assoc in Hi || rewrite <- app_comm_cons in Hi
          || rewrite app_nil_l in Hi).
  pose proof (drop_next _ _ _ Hi) as H1.
  pose proof (drop_next _ _ _ H1) as H2.
  pose proof (drop_next _ _ _ H2) as H3.
  pose proof (drop_next _ _ _ H3) as H4.
  pose proof (drop_skip _ _ _ H4) as Hj1.
  set (j1 := S (S (S (S i))) + length (tokens val)) in *.
  pose proof (drop_next _ _ _ Hj1) as Hj1'.
  pose proof (drop_skip _ _ _ Hj1') as Hj2.
  set (j2 := S j1 + length (tokens body)) in *.
  assert (Hval : returns (fun f => expr ts f (S (S (S (S i))))) (node_of val) j1).
  { apply (parses_expr val _ T_IN _ Hv H4). by repeat split. }
  assert (Hbody : returns (fun f => expr ts f (S j1)) (node_of body) j2).
  { apply (parses_expr body _ T_RPAREN _ Hb Hj1'). by repeat split. }
  destruct Hval as [Fv HFv]. destruct Hbody as [Fb HFb].
  assert (Hexpr : returns (fun f => expr ts f (S i))
                    (Node LET [node_of val; node_of body] (meta_name name)) j2).
  { destruct (tokens_head val) as (fv & rv & Htv & _).
    destruct (tokens_head body) as (fb & rb & Htb & _).
    rewrite Htv in H3. rewrite Htb in Hj1. cbn [app] in H3, Hj1.
    exists (Fv + Fb + 10). intros f Hf'.
    destruct f as [|f]; [lia|]. rewrite expr_S, (drop_lookup _ _ _ H1).
    cbn [bind]. change (is_type TokenType.LET T_LET) with true. cbn [bind].
    rewrite (drop_adv _ _ _ _ H1).
    rewrite (expect_here TokenType.IDENT _ _ _ _ H2 eq_refl). cbn [bind].
    rewrite (expect_here TokenType.ARROW _ _ _ _ H3 eq_refl). cbn [bind].
    rewrite (HFv f) by lia. cbn [bind].
    rewrite (expect_here TokenType.IN _ _ _ _ Hj1 eq_refl). cbn [bind].
    rewrite (HFb f) by lia. cbn [bind]. reflexivity. }
  replace (i + length ([T_LPAREN; T_LET; T_IDENT name; T_ARROW] ++ tokens val
                         ++ [T_IN] ++ tokens body ++ [T_RPAREN]))
    with (S j2)
    by (rewrite !length_app; cbn [length]; unfold j2, j1; lia).
  apply (app_of_prim i (S j2) _ next); [| |exact Hnext].
  - eapply (prim_paren i j2); [exact Hi|done|exact Hexpr|exact Hj2].
  - apply drop_next in Hj2. by apply (drop_lookup _ _ _ Hj2).
Qed.

Lemma parses_all (e : term) : parses e.
Proof.
  induction e as [value|name|l IHl r IHr|l IHl r IHr|fn IHf a IHa|name val IHv body IHb].
  - intros i next more Hi Hnext. cbn [tokens node_of length].
    apply (parses_atom i (T_INT value) next more); [exact Hi| |exact Hnext].
    intros f. by rewrite prim_S, (drop_lookup i (T_INT value) (next :: more) Hi).
  - intros i next more Hi Hnext. cbn [tokens node_of length].
    apply (parses_atom i (T_IDENT name) next more); [exact Hi| |exact Hnext].
    intros f. by rewrite prim_S, (drop_lookup i (T_IDENT name) (next :: more) Hi).
  - intros i next more Hi Hnext. cbn [tokens node_of].
    apply (parses_binary ADD T_PLUS l r ltac:(by left) IHl IHr i next more);
      [|exact Hnext].
    cbn [tokens] in Hi. by rewrite <- !app_assoc in Hi.
  - intros i next more Hi Hnext. cbn [tokens node_of].
    apply (parses_binary MUL T_STAR l r ltac:(by right) IHl IHr i next more);
      [|exact Hnext].
    cbn [tokens] in Hi. by rewrite <- !app_assoc in Hi.
  - by apply parses_apply.
  - by apply parses_let.
Qed.

End ParserValues.

(** The parser reads back every expression from the tokens of its fully
    parenthesised text: each node made of [INT], [VAR], binary [ADD] and
    [MUL], [APPLY] and [LET] is the result of [parse] on some list of
    tokens, and precedence plays no part once the parentheses are there. *)
Theorem parse_tokens (e : Printed.term) :
  Front.parse (Printed.tokens e ++ [Front.T_EOF]) = Ok (Printed.node_of e).
Proof.
  set (ts := Printed.tokens e ++ [Front.T_EOF]).
  destruct (parse_with_settles (Printed.tokens e)) as (r & Hr & _). fold ts in Hr.
  assert (Hexpr : returns (fun f => Front.expr ts f 0) (Printed.node_of e)
                    (0 + length (Printed.tokens e))).
  { apply (parses_expr ts e 0 Front.T_EOF [] (parses_all ts e)); [reflexivity|].
    by repeat split. }
  destruct Hexpr as [F HF]. cbn [Nat.add] in HF.
  assert (Hlast : Front.cur ts (length (Printed.tokens e)) = Ok Front.T_EOF).
  { unfold Front.cur, ts. by rewrite list_lookup_middle. }
  transitivity (Front.parse_with ts (F + 6 * length ts)).
  - unfold Front.parse. rewrite (Hr (6 * length ts + 6)) by lia.
    symmetry. apply Hr. lia.
  - unfold Front.parse_with. rewrite HF by lia. cbn [bind].
    unfold Front.expect. rewrite Hlast. reflexivity.
Qed.

(** ** What [unpack_any] trusts *)

Section UnpackAnyProofs.
Import AnyCollapse Packaged.

Variables (zlib_decompress : list byte -> res (list byte))
          (decode : list byte -> res string).

(** [unpack_any] does not look at the version, and it writes where the
    package says: whatever the four bytes of the version are, the data is
    written under the name stored in the package, which is used as a path
    as it is, wherever the package itself lies and whatever file that path
    already designates. *)
Theorem unpack_any_trusts_package (fs : gmap string (list byte))
    (pkg_path out : string) (ver name comp data : list byte) :
  length ver = 4%nat ->
  (Z.of_nat (length name) < 2 ^ 32)%Z ->
  fs !! pkg_path = Some (framed ver name comp) ->
  decode name = Ok out ->
  zlib_decompress comp = Ok data ->
  unpack_any zlib_decompress decode pkg_path fs = (Ok out, <[out := data]> fs).
Proof.
  intros Hver Hlen Hpkg Hname Hdata.
  destruct (framed_parts MAGIC ver
              (Struct.be_bytes 4 (Z.of_nat (length name))) name comp)
    as (H1 & H2 & H3 & H4); [reflexivity | exact Hver | apply be_bytes_length |].
  fold (framed ver name comp) in H1, H2, H3, H4.
  unfold unpack_any, io_bind, read_bytes, io_lift. rewrite Hpkg, H1.
  replace (bytes_eqb MAGIC MAGIC) with true by (symmetry; by apply bytes_eqb_eq).
  cbn [negb]. rewrite H2.
  rewrite from_be_be_bytes by (change (256 ^ Z.of_nat 4)%Z with (2 ^ 32)%Z; lia).
  rewrite Nat2Z.id, H3, Hname, H4, Hdata. reflexivity.
Qed.
End UnpackAnyProofs.

(** The theorem with the stand-ins for the libraries: a package with
    version 7 that lies at [in/p.cslx] and stores that same path as its
    name is unpacked over itself. *)
Lemma unpack_any_trusts_package_witness :
  let pkg :=
    Packaged.framed (Struct.be_bytes 4 7) (list_byte_of_string "in/p.cslx")
      (list_byte_of_string "data") in
  let fs : gmap string (list byte) := {["in/p.cslx" := pkg]} in
  AnyCollapse.unpack_any Stored.zlib_decompress Stored.decode "in/p.cslx" fs
  = (Ok "in/p.cslx", <["in/p.cslx" := list_byte_of_string "data"]> fs).
Proof.
  intros pkg fs.
  apply (unpack_any_trusts_package Stored.zlib_decompress Stored.decode fs
           "in/p.cslx" "in/p.cslx" (Struct.be_bytes 4 7)
           (list_byte_of_string "in/p.cslx") (list_byte_of_string "data")
           (list_byte_of_string "data")).
  - reflexivity.
  - vm_compute. reflexivity.
  - apply lookup_singleton_eq.
  - reflexivity.
  - reflexivity.
Defined.

(** ** The failures of [parse_minimal] *)

Section ParseMinimalErrors.
Import Parser Markers.

Variables (isspace : N -> bool)
          (str_lower : ustr -> ustr)
          (py_int : ustr -> res Z)
          (_val_re_search : ustr -> option (ustr * ustr)).

Lemma contains_split_first (c : N) (s : ustr) :
  contains [c] s = true -> exists l r, split_first c s = Some (l, r).
Proof.
  induction s as [|x s IH]; [discriminate|].
  cbn [contains startswith split_first]. rewrite andb_true_r.
  rewrite (N.eqb_sym x c). destruct (N.eqb c x); [by eexists _, _|].
  cbn [orb]. intros H. destruct (IH H) as (l & r & ->). by eexists _, _.
Qed.

Lemma existsb_nonempty {A : Type} (f : A -> bool) (l : list A) :
  existsb f l = true -> (0 < length l)%nat.
Proof. destruct l; [discriminate | cbn; lia]. Qed.

(** With fewer than two non-empty lines, [parse_minimal] fails with
    ["program too short"].  Otherwise it returns, or fails with one of the
    [ValueError]s of the header and of the validator line, or with what
    [int] raises on one of the four numbers; indexing never fails, the
    tests made before each index seeing to it. *)
Theorem parse_minimal_failures (canon_text : ustr) :
  match parse_minimal isspace str_lower py_int _val_re_search canon_text with
  | Ok _ => (2 <= length (lines canon_text))%nat
  | Raise e =>
    if (length (lines canon_text) <? 2)%nat
    then e = ValueError "program too short"
    else (exists msg, e = ValueError msg) \/ (exists s, py_int s = Raise e)
  end.
Proof.
  unfold parse_minimal. fold (lines canon_text).
  destruct (lines canon_text) as [|line0 [|line1 rest]]; [reflexivity..|].
  cbn [length Nat.ltb Nat.leb].
  destruct (negb (existsb (ueqb (u "::")) (split_ws isspace line0))) eqn:Hsep;
    [left; by eexists|].
  apply negb_false_iff, existsb_nonempty in Hsep.
  destruct (py_getitem_in_range (split_ws isspace line0) (-1) ltac:(lia))
    as (layout & _ & ->). cbn [bind].
  destruct (negb (startswith (u "f") layout)); [left; by eexists|].
  destruct (split_first 94 (drop 1 layout)) as [[p_str dim_str]|];
    [|left; by eexists].
  destruct (py_int p_str) as [p|e] eqn:Hp; cbn [bind]; [|right; by eexists].
  destruct (py_int dim_str) as [dim|e] eqn:Hdim; cbn [bind]; [|right; by eexists].
  destruct (contains (u ":") line1) eqn:Hcolon; cbn [negb orb];
    [|left; by eexists].
  destruct (negb (contains (u "}") line1)); [left; by eexists|].
  destruct (contains_split_first 58 line1 Hcolon) as (l & r & ->).
  destruct (_val_re_search (before_last 125 r)) as [[g1 g2]|];
    [|left; by eexists].
  destruct (py_int g1) as [k|e] eqn:Hk; cbn [bind]; [|right; by eexists].
  destruct (py_int g2) as [cval|e] eqn:Hc; cbn [bind]; [|right; by eexists].
  cbn. lia.
Qed.

End ParseMinimalErrors.

(** ** Precedence, associativity and calls *)

Section ParserGrammar.
Import MiniCC Front Printed Surface.
Variable ts : list Token.

(** With enough fuel, the method [fn] has the outcome [r]. *)
Definition yields {A : Type} (fn : nat -> res (A * nat)) (r : res (A * nat))
  : Prop :=
  exists F, forall f, F <= f -> fn f = r.

Lemma sum_continues (i j : nat) (x : ZNode) (r : res (ZNode * nat)) :
  returns (fun f => mul ts f i) x j ->
  yields (fun f => add_loop ts f x j) r ->
  yields (fun f => add ts f i) r.
Proof.
  intros [F1 H1] [F2 H2]. exists (S (F1 + F2)). intros f Hf.
  destruct f as [|f]; [lia|]. rewrite add_S, (H1 f) by lia. cbn [bind].
  apply H2. lia.
Qed.

Lemma product_continues (i j : nat) (x : ZNode) (r : res (ZNode * nat)) :
  returns (fun f => app ts f i) x j ->
  yields (fun f => mul_loop ts f x j) r ->
  yields (fun f => mul ts f i) r.
Proof.
  intros [F1 H1] [F2 H2]. exists (S (F1 + F2)). intros f Hf.
  destruct f as [|f]; [lia|]. rewrite mul_S, (H1 f) by lia. cbn [bind].
  apply H2. lia.
Qed.

Lemma add_loop_stop (j : nat) (x : ZNode) (tok : Token) :
  cur ts j = Ok tok -> is_type TokenType.PLUS tok = false ->
  yields (fun f => add_loop ts f x j) (Ok (x, j)).
Proof.
  intros Hcur Hty. exists 1. intros f Hf. destruct f as [|f]; [lia|].
  rewrite add_loop_S, Hcur. cbn [bind]. by rewrite Hty.
Qed.

Lemma mul_loop_stop (j : nat) (x : ZNode) (tok : Token) :
  cur ts j = Ok tok -> is_type TokenType.STAR tok = false ->
  yields (fun f => mul_loop ts f x j) (Ok (x, j)).
Proof.
  intros Hcur Hty. exists 1. intros f Hf. destruct f as [|f]; [lia|].
  rewrite mul_loop_S, Hcur. cbn [bind]. by rewrite Hty.
Qed.

Lemma add_loop_step (j j2 : nat) (x rhs : ZNode) (b : Token) (more : list Token)
    (r : res (ZNode * nat)) :
  drop j ts = T_PLUS :: b :: more ->
  returns (fun f => mul ts f (S j)) rhs j2 ->
  yields (fun f => add_loop ts f (Node ADD [x; rhs] no_meta) j2) r ->
  yields (fun f => add_loop ts f x j) r.
Proof.
  intros Hj [F1 H1] [F2 H2]. exists (S (F1 + F2)). intros f Hf.
  destruct f as [|f]; [lia|].
  rewrite add_loop_S, (drop_lookup ts _ _ _ Hj). cbn [bind].
  change (is_type TokenType.PLUS T_PLUS) with true. cbn [bind].
  rewrite (drop_adv ts _ _ _ _ Hj), (H1 f) by lia. cbn [bind]. apply H2. lia.
Qed.

Lemma mul_loop_step (j j2 : nat) (x rhs : ZNode) (b : Token) (more : list Token)
    (r : res (ZNode * nat)) :
  drop j ts = T_STAR :: b :: more ->
  returns (fun f => app ts f (S j)) rhs j2 ->
  yields (fun f => mul_loop ts f (Node MUL [x; rhs] no_meta) j2) r ->
  yields (fun f => mul_loop ts f x j) r.
Proof.
  intros Hj [F1 H1] [F2 H2]. exists (S (F1 + F2)). intros f Hf.
  destruct f as [|f]; [lia|].
  rewrite mul_loop_S, (drop_lookup ts _ _ _ Hj). cbn [bind].
  change (is_type TokenType.STAR T_STAR) with true. cbn [bind].
  rewrite (drop_adv ts _ _ _ _ Hj), (H1 f) by lia. cbn [bind]. apply H2. lia.
Qed.

(** What may follow a call, a factor and an expression. *)
Definition follow_app (rest : list Token) : Prop :=
  exists tok more, rest = tok :: more /\ is_type TokenType.LPAREN tok = false.

Definition follow_mul (rest : list Token) : Prop :=
  exists tok more,
    rest = tok :: more /\ is_type TokenType.LPAREN tok = false /\
    is_type TokenType.STAR tok = false.

Definition follow_expr (rest : list Token) : Prop :=
  exists tok more, rest = tok :: more /\ closes tok.

Lemma follow_expr_mul (rest : list Token) : follow_expr rest -> follow_mul rest.
Proof. intros (tok & more & -> & H1 & H2 & _). by exists tok, more. Qed.

Lemma follow_mul_app (rest : list Token) : follow_mul rest -> follow_app rest.
Proof. intros (tok & more & -> & H1 & _). by exists tok, more. Qed.

(** The parser on the text of [e] at each level. *)
Definition Q4 (e : term) : Prop :=
  forall i rest, drop i ts = show 4 e ++ rest -> rest <> [] ->
    returns (fun f => prim ts f i) (node_of e) (i + length (show 4 e)).

Definition Q3 (e : term) : Prop :=
  forall i rest, drop i ts = show 3 e ++ rest -> follow_app rest ->
    returns (fun f => app ts f i) (node_of e) (i + length (show 3 e)).

Definition Q2 (e : term) : Prop :=
  forall i rest r, drop i ts = show 2 e ++ rest -> follow_app rest ->
    yields (fun f => mul_loop ts f (node_of e) (i + length (show 2 e))) r ->
    yields (fun f => mul ts f i) r.

Definition Q1 (e : term) : Prop :=
  forall i rest r, drop i ts = show 1 e ++ rest -> follow_mul rest ->
    yields (fun f => add_loop ts f (node_of e) (i + length (show 1 e))) r ->
    yields (fun f => add ts f i) r.

Definition Q0 (e : term) : Prop :=
  forall i rest, drop i ts = show 0 e ++ rest -> follow_expr rest ->
    returns (fun f => expr ts f i) (node_of e) (i + length (show 0 e)).

Lemma show_head (e : term) :
  forall lvl, exists tok more,
    show lvl e = tok :: more /\ is_type TokenType.RPAREN tok = false /\
    (1 <= lvl -> is_type TokenType.LET tok = false).
Proof.
  induction e as [v|x|l IHl r _|l IHl r _|fn IHf a _|x v _ b _]; intros lvl;
    cbn [show].
  - by eexists _, _.
  - by eexists _, _.
  - destruct (1 <? lvl); cbn [paren]; [by eexists _, _|].
    destruct (IHl 1) as (tok & more & -> & Hr & Hl). eexists _, _.
    split; [reflexivity|]. split; [exact Hr|]. intros _. apply Hl. lia.
  - destruct (2 <? lvl); cbn [paren]; [by eexists _, _|].
    destruct (IHl 2) as (tok & more & -> & Hr & Hl). eexists _, _.
    split; [reflexivity|]. split; [exact Hr|]. intros _. apply Hl. lia.
  - destruct (3 <? lvl); cbn [paren]; [by eexists _, _|].
    destruct (IHf 4) as (tok & more & -> & Hr & Hl). eexists _, _.
    split; [reflexivity|]. split; [exact Hr|]. intros _. apply Hl. lia.
  - destruct (Nat.ltb_spec 0 lvl) as [Hl|Hl]; cbn [paren]; [by eexists _, _|].
    eexists _, _. split; [reflexivity|]. split; [reflexivity|]. lia.
Qed.

Ltac norm H :=
  repeat (rewrite <- app_assoc in H || rewrite <- app_comm_cons in H
          || rewrite app_nil_l in H).

Lemma lift_43 (e : term) : Q4 e -> show 3 e = show 4 e -> Q3 e.
Proof.
  intros H4 Heq i rest Hi (tok & more & -> & Hty). rewrite Heq in *.
  apply (app_of_prim ts i _ _ tok); [| |exact Hty].
  - by apply (H4 i _ Hi).
  - apply drop_skip in Hi. by apply (drop_lookup ts _ _ _ Hi).
Qed.

Lemma lift_32 (e : term) : Q3 e -> show 2 e = show 3 e -> Q2 e.
Proof.
  intros H3 Heq i rest r Hi Hf Hr. rewrite Heq in *.
  eapply (product_continues i); [|exact Hr]. by apply (H3 i rest).
Qed.

Lemma Q2_returns (e : term) (i : nat) (rest : list Token) :
  Q2 e -> drop i ts = show 2 e ++ rest -> follow_mul rest ->
  returns (fun f => mul ts f i) (node_of e) (i + length (show 2 e)).
Proof.
  intros H2 Hi (tok & more & -> & Hlp & Hst).
  apply (H2 i _ _ Hi); [by exists tok, more|].
  apply (mul_loop_stop _ _ tok); [|exact Hst].
  apply drop_skip in Hi. by apply (drop_lookup ts _ _ _ Hi).
Qed.

Lemma lift_21 (e : term) : Q2 e -> show 1 e = show 2 e -> Q1 e.
Proof.
  intros H2 Heq i rest r Hi Hf Hr. rewrite Heq in *.
  eapply (sum_continues i); [|exact Hr].
  by apply (Q2_returns e i rest).
Qed.

Lemma Q1_returns (e : term) (i : nat) (rest : list Token) :
  Q1 e -> drop i ts = show 1 e ++ rest -> follow_expr rest ->
  returns (fun f => add ts f i) (node_of e) (i + length (show 1 e)).
Proof.
  intros H1 Hi (tok & more & -> & Hlp & Hst & Hpl).
  apply (H1 i _ _ Hi); [by exists tok, more|].
  apply (add_loop_stop _ _ tok); [|exact Hpl].
  apply drop_skip in Hi. by apply (drop_lookup ts _ _ _ Hi).
Qed.

Lemma lift_10 (e : term) : Q1 e -> show 0 e = show 1 e -> Q0 e.
Proof.
  intros H1 Heq i rest Hi Hf. rewrite Heq in *.
  destruct (show_head e 1) as (first & m & Hhead & _ & Hlet).
  apply (expr_of_add ts i _ _ first); [| |apply Hlet; lia].
  - by apply (Q1_returns e i rest).
  - rewrite Hhead in Hi. by apply (drop_lookup ts _ _ _ Hi).
Qed.

Lemma lift_04 (e : term) :
  Q0 e -> show 4 e = T_LPAREN :: show 0 e ++ [T_RPAREN] -> Q4 e.
Proof.
  intros H0 Heq i rest Hi Hrest. rewrite Heq in *. norm Hi.
  destruct rest as [|b more]; [done|].
  pose proof (drop_next ts _ _ _ Hi) as Hi1.
  pose proof (drop_skip ts _ _ _ Hi1) as Hj.
  replace (i + length (T_LPAREN :: show 0 e ++ [T_RPAREN]))
    with (S (S i + length (show 0 e)))
    by (cbn [length]; rewrite length_app; cbn [length]; lia).
  eapply (prim_paren ts i); [exact Hi| | |exact Hj].
  - destruct (show_head e 0) as (? & ? & -> & _). done.
  - apply (H0 (S i) _ Hi1). exists T_RPAREN, (b :: more). by repeat split.
Qed.

Lemma Q4_atom (e : term) (tok : Token) :
  show 4 e = [tok] ->
  (forall f i, cur ts i = Ok tok -> prim ts (S f) i = Ok (node_of e, adv ts i)) ->
  Q4 e.
Proof.
  intros Heq Hprim i rest Hi Hrest. rewrite Heq in *.
  destruct rest as [|b more]; [done|]. cbn [app length] in *.
  replace (i + 1) with (S i) by lia. exists 1. intros f Hf.
  destruct f as [|f]; [lia|].
  rewrite Hprim by (by apply (drop_lookup ts _ _ _ Hi)).
  by rewrite (drop_adv ts _ _ _ _ Hi).
Qed.

Lemma Q1_add (l r : term) : Q1 l -> Q2 r -> Q1 (TAdd l r).
Proof.
  intros Hl Hr i rest res Hi Hf Hres.
  cbn [show node_of Nat.ltb Nat.leb paren] in *. norm Hi.
  apply (Hl i _ _ Hi); [exists T_PLUS, (show 2 r ++ rest); by repeat split|].
  pose proof (drop_skip ts _ _ _ Hi) as Hj1.
  set (j1 := i + length (show 1 l)) in *.
  pose proof (drop_next ts _ _ _ Hj1) as Hj1'.
  destruct (show_head r 2) as (fr & mr & Hhr & _).
  eapply (add_loop_step j1).
  - rewrite Hhr in Hj1. norm Hj1. exact Hj1.
  - exact (Q2_returns r (S j1) rest Hr Hj1' Hf).
  - replace (S j1 + length (show 2 r))
      with (i + length (show 1 l ++ T_PLUS :: show 2 r))
      by (rewrite length_app; cbn [length]; unfold j1; lia).
    exact Hres.
Qed.

Lemma Q2_mul (l r : term) : Q2 l -> Q3 r -> Q2 (TMul l r).
Proof.
  intros Hl Hr i rest res Hi Hf Hres.
  cbn [show node_of Nat.ltb Nat.leb paren] in *. norm Hi.
  apply (Hl i _ _ Hi); [exists T_STAR, (show 3 r ++ rest); by repeat split|].
  pose proof (drop_skip ts _ _ _ Hi) as Hj1.
  set (j1 := i + length (show 2 l)) in *.
  pose proof (drop_next ts _ _ _ Hj1) as Hj1'.
  destruct (show_head r 3) as (fr & mr & Hhr & _).
  eapply (mul_loop_step j1).
  - rewrite Hhr in Hj1. norm Hj1. exact Hj1.
  - exact (Hr (S j1) rest Hj1' Hf).
  - replace (S j1 + length (show 3 r))
      with (i + length (show 2 l ++ T_STAR :: show 3 r))
      by (rewrite length_app; cbn [length]; unfold j1; lia).
    exact Hres.
Qed.

Lemma Q3_apply (fn a : term) : Q4 fn -> Q0 a -> Q3 (TApply fn a).
Proof.
  intros Hfn Ha i rest Hi (tok & more & -> & Htok).
  cbn [show node_of Nat.ltb Nat.leb paren] in *. norm Hi.
  destruct (Hfn i _ Hi ltac:(done)) as [Fp HFp].
  pose proof (drop_skip ts _ _ _ Hi) as Hj1.
  set (j1 := i + length (show 4 fn)) in *.
  pose proof (drop_next ts _ _ _ Hj1) as Hk.
  pose proof (drop_skip ts _ _ _ Hk) as Hj2.
  set (j2 := S j1 + length (show 0 a)) in *.
  destruct (Ha (S j1) _ Hk) as [Fa HFa];
    [exists T_RPAREN, (tok :: more); by repeat split|].
  destruct (show_head a 0) as (first & m & Hhead & Hrp & _).
  rewrite Hhead in Hj1, Hk. norm Hj1. norm Hk.
  replace (i + length (show 4 fn ++ T_LPAREN :: show 0 a ++ [T_RPAREN]))
    with (S j2)
    by (rewrite !length_app; cbn [length]; rewrite length_app; cbn [length];
        unfold j2, j1; lia).
  exists (Fp + Fa + 10). intros f Hf'.
  destruct f as [|f]; [lia|]. rewrite app_S, (HFp f) by lia. cbn [bind].
  rewrite (drop_lookup ts _ _ _ Hj1). cbn [bind].
  change (is_type TokenType.LPAREN T_LPAREN) with true. cbn [bind].
  rewrite (drop_adv ts _ _ _ _ Hj1), (drop_lookup ts _ _ _ Hk). cbn [bind].
  rewrite Hrp. cbn [negb bind]. rewrite (HFa f) by lia. cbn [bind]. fold j2.
  destruct f as [|f]; [lia|]. rewrite app_loop_S, (drop_lookup ts _ _ _ Hj2).
  cbn [bind]. change (is_type TokenType.COMMA T_RPAREN) with false. cbn [bind].
  by rewrite (expect_here ts TokenType.RPAREN j2 _ _ _ Hj2).
Qed.

Lemma Q0_let (name : string) (val body : term) :
  Q0 val -> Q0 body -> Q0 (TLet name val body).
Proof.
  intros Hv Hb i rest Hi Hf.
  cbn [show node_of Nat.ltb Nat.leb paren] in *. norm Hi.
  pose proof (drop_next ts _ _ _ Hi) as H1.
  pose proof (drop_next ts _ _ _ H1) as H2.
  pose proof (drop_next ts _ _ _ H2) as H3.
  pose proof (drop_skip ts _ _ _ H3) as Hj1.
  set (j1 := S (S (S i)) + length (show 0 val)) in *.
  pose proof (drop_next ts _ _ _ Hj1) as Hj1'.
  destruct (Hv _ _ H3) as [Fv HFv];
    [exists T_IN, (show 0 body ++ rest); by repeat split|].
  destruct (Hb _ _ Hj1' Hf) as [Fb HFb].
  destruct (show_head val 0) as (fv & mv & Htv & _).
  destruct (show_head body 0) as (fb & mb & Htb & _).
  rewrite Htv in H2. rewrite Htb in Hj1. norm H2. norm Hj1.
  replace (i + length (T_LET :: T_IDENT name :: T_ARROW :: show 0 val
                         ++ T_IN :: show 0 body))
    with (S j1 + length (show 0 body))
    by (cbn [length]; rewrite length_app; cbn [length]; unfold j1; lia).
  exists (Fv + Fb + 10). intros f Hf'.
  destruct f as [|f]; [lia|]. rewrite expr_S, (drop_lookup ts _ _ _ Hi).
  cbn [bind]. change (is_type TokenType.LET T_LET) with true. cbn [bind].
  rewrite (drop_adv ts _ _ _ _ Hi).
  rewrite (expect_here ts TokenType.IDENT _ _ _ _ H1 eq_refl). cbn [bind].
  rewrite (expect_here ts TokenType.ARROW _ _ _ _ H2 eq_refl). cbn [bind].
  rewrite (HFv f) by lia. cbn [bind]. fold j1.
  rewrite (expect_here ts TokenType.IN _ _ _ _ Hj1 eq_refl). cbn [bind].
  rewrite (HFb f) by lia. cbn [bind]. reflexivity.
Qed.

Lemma all_levels (e : term) : Q0 e /\ Q1 e /\ Q2 e /\ Q3 e /\ Q4 e.
Proof.
  induction e as [v|x|l (_ & IHl1 & _) r (_ & _ & IHr2 & _)
                 |l (_ & _ & IHl2 & _) r (_ & _ & _ & IHr3 & _)
                 |fn (_ & _ & _ & _ & IHf4) a (IHa0 & _)
                 |x v (IHv0 & _) b (IHb0 & _)].
  - assert (H4 : Q4 (TInt v)).
    { apply (Q4_atom _ (T_INT v)); [reflexivity|].
      intros f i Hc. by rewrite prim_S, Hc. }
    pose proof (lift_43 _ H4 eq_refl) as H3.
    pose proof (lift_32 _ H3 eq_refl) as H2.
    pose proof (lift_21 _ H2 eq_refl) as H1.
    pose proof (lift_10 _ H1 eq_refl) as H0. done.
  - assert (H4 : Q4 (TVar x)).
    { apply (Q4_atom _ (T_IDENT x)); [reflexivity|].
      intros f i Hc. by rewrite prim_S, Hc. }
    pose proof (lift_43 _ H4 eq_refl) as H3.
    pose proof (lift_32 _ H3 eq_refl) as H2.
    pose proof (lift_21 _ H2 eq_refl) as H1.
    pose proof (lift_10 _ H1 eq_refl) as H0. done.
  - pose proof (Q1_add l r IHl1 IHr2) as H1.
    pose proof (lift_10 _ H1 eq_refl) as H0.
    pose proof (lift_04 _ H0 eq_refl) as H4.
    pose proof (lift_43 _ H4 eq_refl) as H3.
    pose proof (lift_32 _ H3 eq_refl) as H2. done.
  - pose proof (Q2_mul l r IHl2 IHr3) as H2.
    pose proof (lift_21 _ H2 eq_refl) as H1.
    pose proof (lift_10 _ H1 eq_refl) as H0.
    pose proof (lift_04 _ H0 eq_refl) as H4.
    pose proof (lift_43 _ H4 eq_refl) as H3. done.
  - pose proof (Q3_apply fn a IHf4 IHa0) as H3.
    pose proof (lift_32 _ H3 eq_refl) as H2.
    pose proof (lift_21 _ H2 eq_refl) as H1.
    pose proof (lift_10 _ H1 eq_refl) as H0.
    pose proof (lift_04 _ H0 eq_refl) as H4. done.
  - pose proof (Q0_let x v b IHv0 IHb0) as H0.
    pose proof (lift_04 _ H0 eq_refl) as H4.
    pose proof (lift_43 _ H4 eq_refl) as H3.
    pose proof (lift_32 _ H3 eq_refl) as H2.
    pose proof (lift_21 _ H2 eq_refl) as H1. done.
Qed.

Lemma app_loop_commas (rest : list term) :
  forall acc j b more,
    drop j ts = more_commas rest ++ T_RPAREN :: b :: more ->
    returns (fun f => app_loop ts f acc j) (acc ++ map node_of rest)
      (j + length (more_commas rest)).
Proof.
  induction rest as [|a rest IH]; intros acc j b more Hj.
  - cbn [more_commas flat_map app length map] in *.
    rewrite app_nil_r, Nat.add_0_r. exists 1. intros f Hf.
    destruct f as [|f]; [lia|].
    by rewrite app_loop_S, (drop_lookup ts _ _ _ Hj).
  - cbn [more_commas flat_map] in Hj. fold (more_commas rest) in Hj. norm Hj.
    pose proof (drop_next ts _ _ _ Hj) as H1.
    pose proof (drop_skip ts _ _ _ H1) as H2.
    destruct (all_levels a) as [H0 _].
    destruct (H0 (S j) _ H1) as [Fa HFa].
    { destruct rest as [|a' rest'].
      - exists T_RPAREN, (b :: more). by repeat split.
      - eexists T_COMMA, _. by repeat split. }
    destruct (IH (acc ++ [node_of a]) _ b more H2) as [Fl HFl].
    destruct (show_head a 0) as (first & m & Hhead & _).
    rewrite Hhead in Hj. norm Hj.
    exists (S (Fa + Fl)). intros f Hf. destruct f as [|f]; [lia|].
    rewrite app_loop_S, (drop_lookup ts _ _ _ Hj). cbn [bind].
    change (is_type TokenType.COMMA T_COMMA) with true. cbn [bind].
    rewrite (drop_adv ts _ _ _ _ Hj), (HFa f) by lia. cbn [bind].
    rewrite (HFl f) by lia. cbn [map more_commas flat_map].
    fold (more_commas rest). rewrite <- app_assoc. do 2 f_equal.
    rewrite length_app. cbn [length]. lia.
Qed.

(** A call with any number of arguments, followed by [b]. *)
Lemma app_call (fn : term) (args : list term) (i : nat) (b : Token)
    (more : list Token) :
  drop i ts = show 4 fn ++ T_LPAREN :: commas args ++ T_RPAREN :: b :: more ->
  returns (fun f => app ts f i) (curried (node_of fn) (map node_of args))
    (i + length (show 4 fn) + length (commas args) + 2).
Proof.
  intros Hi. destruct (all_levels fn) as (_ & _ & _ & _ & H4).
  destruct (H4 i _ Hi ltac:(done)) as [Fp HFp].
  pose proof (drop_skip ts _ _ _ Hi) as Hj1.
  set (j1 := i + length (show 4 fn)) in *.
  pose proof (drop_next ts _ _ _ Hj1) as Hk.
  destruct args as [|a rest].
  - cbn [commas app length map curried fold_left] in *.
    exists (S Fp). intros f Hf. destruct f as [|f]; [lia|].
    rewrite app_S, (HFp f) by lia. cbn [bind].
    rewrite (drop_lookup ts _ _ _ Hj1). cbn [bind].
    change (is_type TokenType.LPAREN T_LPAREN) with true. cbn [bind].
    rewrite (drop_adv ts _ _ _ _ Hj1), (drop_lookup ts _ _ _ Hk). cbn [bind].
    change (is_type TokenType.RPAREN T_RPAREN) with true. cbn [negb bind].
    rewrite (expect_here ts TokenType.RPAREN _ _ _ _ Hk eq_refl). cbn [bind].
    do 2 f_equal. unfold j1. lia.
  - cbn [commas] in *. norm Hk.
    destruct (all_levels a) as [H0 _].
    destruct (H0 (S j1) _ Hk) as [Fa HFa].
    { destruct rest as [|a' rest'].
      - exists T_RPAREN, (b :: more). by repeat split.
      - eexists T_COMMA, _. by repeat split. }
    pose proof (drop_skip ts _ _ _ Hk) as Hj2.
    set (j2 := S j1 + length (show 0 a)) in *.
    destruct (app_loop_commas rest [node_of a] j2 b more Hj2) as [Fl HFl].
    pose proof (drop_skip ts _ _ _ Hj2) as Hj3.
    set (j3 := j2 + length (more_commas rest)) in *.
    destruct (show_head a 0) as (first & m & Hhead & Hrp & _).
    rewrite Hhead in Hj1, Hk. norm Hj1. norm Hk.
    exists (S (Fp + Fa + Fl)). intros f Hf. destruct f as [|f]; [lia|].
    rewrite app_S, (HFp f) by lia. cbn [bind].
    rewrite (drop_lookup ts _ _ _ Hj1). cbn [bind].
    change (is_type TokenType.LPAREN T_LPAREN) with true. cbn [bind].
    rewrite (drop_adv ts _ _ _ _ Hj1), (drop_lookup ts _ _ _ Hk). cbn [bind].
    rewrite Hrp. cbn [negb bind]. rewrite (HFa f) by lia. cbn [bind]. fold j2.
    rewrite (HFl f) by lia. cbn [bind]. fold j3.
    rewrite (expect_here ts TokenType.RPAREN _ _ _ _ Hj3 eq_refl). cbn [bind].
    cbn [app map]. unfold curried. do 2 f_equal.
    rewrite length_app. unfold j3, j2, j1. lia.
Qed.

(** The expression at the head of [ts] when it is a call followed by a
    token that is no operator. *)
Lemma call_expr (fn : term) (args : list term) (b : Token) (more : list Token) :
  ts = (show 4 fn ++ T_LPAREN :: commas args ++ T_RPAREN :: b :: more)%list ->
  is_type TokenType.STAR b = false -> is_type TokenType.PLUS b = false ->
  let j := length (show 4 fn) + length (commas args) + 2 in
  returns (fun f => expr ts f 0)
    (curried (node_of fn) (map node_of args)) j /\
  cur ts j = Ok b.
Proof.
  intros Hts Hstar Hplus j.
  assert (H0 : drop 0 ts
               = (show 4 fn ++ T_LPAREN :: commas args ++ T_RPAREN :: b :: more)%list)
    by (by rewrite drop_0).
  pose proof (app_call fn args 0 b more H0) as Happ. cbn [Nat.add] in Happ.
  fold j in Happ.
  assert (Hcur : cur ts j = Ok b).
  { apply (drop_lookup ts j b more).
    replace (T_LPAREN :: commas args ++ T_RPAREN :: b :: more)
      with ((T_LPAREN :: commas args ++ [T_RPAREN]) ++ b :: more)%list in H0
      by (rewrite <- app_comm_cons, <- app_assoc; reflexivity).
    rewrite app_assoc in H0. apply drop_skip in H0.
    replace j with (0 + length (show 4 fn ++ T_LPAREN :: commas args ++ [T_RPAREN]));
      [exact H0|].
    unfold j. rewrite length_app. cbn [length]. rewrite length_app.
    cbn [length]. lia. }
  split; [|exact Hcur].
  destruct (show_head fn 4) as (first & m & Hhead & _ & Hlet).
  apply (expr_of_add ts 0 j _ first).
  - apply (add_of_mul ts 0 j _ b); [|exact Hcur|exact Hplus].
    by apply (mul_of_app ts 0 j _ b).
  - rewrite Hhead in H0. by apply (drop_lookup ts _ _ _ H0).
  - apply Hlet. lia.
Qed.

End ParserGrammar.

(** The parser reads back every expression from its text written with the
    parentheses that the grammar needs and no other: a product binds
    tighter than a sum, sums and products group to the left, a call binds
    tighter than a product, and a [let] reaches as far to the right as it
    can. *)
Theorem parse_show (e : Printed.term) :
  Front.parse (Surface.show 0 e ++ [Front.T_EOF]) = Ok (Printed.node_of e).
Proof.
  set (ts := Surface.show 0 e ++ [Front.T_EOF]).
  destruct (parse_with_settles (Surface.show 0 e)) as (r & Hr & _).
  fold ts in Hr.
  destruct (all_levels ts e) as [H0 _].
  destruct (H0 0 [Front.T_EOF] eq_refl) as [F HF].
  { exists Front.T_EOF, []. by repeat split. }
  cbn [Nat.add] in HF.
  assert (Hlast : Front.cur ts (length (Surface.show 0 e)) = Ok Front.T_EOF).
  { unfold Front.cur, ts. by rewrite list_lookup_middle. }
  transitivity (Front.parse_with ts (F + 6 * length ts)).
  - unfold Front.parse. rewrite (Hr (6 * length ts + 6)) by lia.
    symmetry. apply Hr. lia.
  - unfold Front.parse_with. rewrite HF by lia. cbn [bind].
    unfold Front.expect. rewrite Hlast. reflexivity.
Qed.

(** A call with several arguments is the call of a call: [f(a, b, c)] is
    read as [f] applied to [a], the result applied to [b], and that result
    to [c].  A call without arguments, [f()], is read as [f] itself. *)
Theorem parse_call (fn : Printed.term) (args : list Printed.term) :
  Front.parse (Surface.show 4 fn ++ Front.T_LPAREN :: Surface.commas args
                 ++ [Front.T_RPAREN; Front.T_EOF])
  = Ok (Surface.curried (Printed.node_of fn) (map Printed.node_of args)).
Proof.
  set (body := (Surface.show 4 fn ++ Front.T_LPAREN :: Surface.commas args
                  ++ [Front.T_RPAREN])%list).
  set (ts := (Surface.show 4 fn ++ Front.T_LPAREN :: Surface.commas args
                ++ [Front.T_RPAREN; Front.T_EOF])%list).
  assert (Hts : ts = (body ++ [Front.T_EOF])%list).
  { unfold ts, body.
    repeat (rewrite <- app_assoc || rewrite <- app_comm_cons). reflexivity. }
  destruct (parse_with_settles body) as (r & Hr & _). rewrite <- Hts in Hr.
  destruct (call_expr ts fn args Front.T_EOF [] eq_refl eq_refl eq_refl)
    as [[F HF] Hcur].
  transitivity (Front.parse_with ts (F + 6 * length ts)).
  - unfold Front.parse. rewrite (Hr (6 * length ts + 6)) by lia.
    symmetry. apply Hr. lia.
  - unfold Front.parse_with. rewrite HF by lia. cbn [bind].
    unfold Front.expect. rewrite Hcur. reflexivity.
Qed.

(** The result of a call cannot be called in its turn: after the closing
    parenthesis of a call, [app] does not look for a second list of
    arguments, so that a text such as [f(a)(b)] is refused, whatever
    follows the second opening parenthesis. *)
Theorem parse_call_of_call (fn : Printed.term) (args : list Printed.term)
    (more : list Front.Token) :
  Front.parse (Surface.show 4 fn ++ Front.T_LPAREN :: Surface.commas args
                 ++ Front.T_RPAREN :: Front.T_LPAREN :: more ++ [Front.T_EOF])
  = Raise (SyntaxError "Expected EOF, got LPAREN").
Proof.
  set (body := (Surface.show 4 fn ++ Front.T_LPAREN :: Surface.commas args
                  ++ Front.T_RPAREN :: Front.T_LPAREN :: more)%list).
  set (ts := (Surface.show 4 fn ++ Front.T_LPAREN :: Surface.commas args
                ++ Front.T_RPAREN :: Front.T_LPAREN :: more
                ++ [Front.T_EOF])%list).
  assert (Hts : ts = (body ++ [Front.T_EOF])%list).
  { unfold ts, body.
    repeat (rewrite <- app_assoc || rewrite <- app_comm_cons). reflexivity. }
  destruct (parse_with_settles body) as (r & Hr & _). rewrite <- Hts in Hr.
  destruct (call_expr ts fn args Front.T_LPAREN (more ++ [Front.T_EOF])
              eq_refl eq_refl eq_refl) as [[F HF] Hcur].
  transitivity (Front.parse_with ts (F + 6 * length ts)).
  - unfold Front.parse. rewrite (Hr (6 * length ts + 6)) by lia.
    symmetry. apply Hr. lia.
  - unfold Front.parse_with. rewrite HF by lia. cbn [bind].
    unfold Front.expect. rewrite Hcur. reflexivity.
Qed.

